(** * Terraform provider network-mirror builders

    A shallow embedding of the two programs of the repository,

      - [mirror-provider-local.py]: uploads local release archives to a
        mirror bucket (module [Local] below), and
      - [mirror-provider.py]: copies release archives from a releases
        bucket to a mirror bucket (module [Remote] below),

    together with the properties of their archive-name parser, of the
    copy-or-skip decision and of the version and index documents they put.

    Python [str] values are modelled by [string]; the Python and boto3
    primitives the programs call ([str.split], [str.endswith], slicing,
    [os.path.basename], [os.path.splitext], [sorted], [json.dumps], the S3
    object operations) are modelled in module [Py] and in the section on
    the object store.  Console output ([print]) is not modelled.

    Modelling choices: [os.path] is [posixpath] (the programs are scripts
    for a POSIX shell); a character of a [str] is a code point below 256; a
    request that writes to the store ([put], [upload_file], [copy_from] from
    a source that exists) succeeds, and so does the listing of a bucket;
    what can fail is [head_bucket], the HEAD or GET of an object, and the
    [dirhasher] program. *)

From Stdlib Require Import ZArith Ascii.
From stdpp Require Import gmap strings list sorting pretty.

Local Open Scope Z_scope.
Local Open Scope nat_scope.

(** ** Python string primitives *)

Module Py.

(** [len(s) == 0], i.e. [s == ''] *)
Definition is_empty (s : string) : bool :=
  match s with EmptyString => true | String _ _ => false end.

Fixpoint take (n : nat) (s : string) : string :=
  match n, s with
  | S n', String c s' => String c (take n' s')
  | _, _ => EmptyString
  end.

Fixpoint drop (n : nat) (s : string) : string :=
  match n, s with
  | S n', String _ s' => drop n' s'
  | _, _ => s
  end.

(** Index adjustment of a slice bound (step 1): a negative bound counts from
    the end, and bounds are clamped to [0, len]. *)
Definition adjust_index (len i : Z) : Z :=
  if (i <? 0)%Z then Z.max 0 (i + len) else Z.min i len.

(** [s[start:stop]]; an omitted bound is [None]. *)
Definition slice (s : string) (start stop : option Z) : string :=
  let len := Z.of_nat (String.length s) in
  let lo := from_option (adjust_index len) 0%Z start in
  let hi := from_option (adjust_index len) len stop in
  take (Z.to_nat (hi - lo)) (drop (Z.to_nat lo) s).

(** [s.endswith(suffix)] *)
Definition endswith (s suffix : string) : bool :=
  (String.length suffix <=? String.length s) &&
  String.eqb (drop (String.length s - String.length suffix) s) suffix.

(** [s.rfind(c)] for a one-character [c]: the highest index of [c] in [s],
    or [-1]. *)
Fixpoint rfind (c : ascii) (s : string) : Z :=
  match s with
  | EmptyString => (-1)%Z
  | String a s' =>
      let r := rfind c s' in
      if (0 <=? r)%Z then (r + 1)%Z
      else if Ascii.eqb a c then 0%Z else (-1)%Z
  end.

(** [s.split(sep, maxsplit)] for a one-character separator; [maxsplit] is
    [None] when the argument is omitted.  The result is never empty. *)
Fixpoint split (sep : ascii) (maxsplit : option nat) (s : string)
  : list string :=
  match s with
  | EmptyString => [EmptyString]
  | String c s' =>
      let may_split :=
        match maxsplit with Some 0 => false | _ => true end in
      if may_split && Ascii.eqb c sep
      then EmptyString :: split sep (Nat.pred <$> maxsplit) s'
      else match split sep maxsplit s' with
           | p :: ps => String c p :: ps
           | [] => [String c EmptyString]
           end
  end.

(** [l[-1]] on the non-empty list a split returns. *)
Definition last_item (l : list string) : string :=
  List.last l EmptyString.

(** [posixpath.basename] *)
Definition basename (p : string) : string :=
  let i := (rfind "/" p + 1)%Z in
  slice p (Some i) None.

(** [posixpath.splitext], that is [genericpath._splitext(p, '/', None, '.')]:
    the extension starts at the last dot of the last path component, unless
    that component has only dots before it. *)
Definition splitext (p : string) : string * string :=
  let sepIndex := rfind "/" p in
  let dotIndex := rfind "." p in
  if (sepIndex <? dotIndex)%Z
     && existsb
          (fun filenameIndex =>
             negb (String.eqb
                     (slice p (Some filenameIndex) (Some (filenameIndex + 1)%Z))
                     "."))
          (seqZ (sepIndex + 1) (dotIndex - (sepIndex + 1)))
  then (slice p None (Some dotIndex), slice p (Some dotIndex) None)
  else (p, slice p None (Some 0%Z)).

(** Python's [str.isspace] on the code points below 256. *)
Definition isspace (c : ascii) : bool :=
  let n := N_of_ascii c in
  ((9 <=? n) && (n <=? 13) || (28 <=? n) && (n <=? 32)
   || (n =? 133) || (n =? 160))%N.

Fixpoint lstrip (s : string) : string :=
  match s with
  | String c s' => if isspace c then lstrip s' else s
  | EmptyString => EmptyString
  end.

Fixpoint rstrip (s : string) : string :=
  match s with
  | EmptyString => EmptyString
  | String c s' =>
      match rstrip s' with
      | EmptyString => if isspace c then EmptyString else String c EmptyString
      | r => String c r
      end
  end.

(** [s.strip()] *)
Definition strip (s : string) : string := rstrip (lstrip s).

(** Truth value of a [str]: the empty string is falsy. *)
Definition truthy (s : string) : bool := negb (is_empty s).

(** [c in s] for a one-character [c] *)
Fixpoint contains (c : ascii) (s : string) : bool :=
  match s with
  | EmptyString => false
  | String a s' => Ascii.eqb a c || contains c s'
  end.

(** [sep.join(l)] *)
Fixpoint join (sep : string) (l : list string) : string :=
  match l with
  | [] => EmptyString
  | [x] => x
  | x :: l' => x +:+ sep +:+ join sep l'
  end.

End Py.

(** ** Exceptions, store and the state-and-error monad *)

Inductive exn :=
  | ClientError (code : string)   (** botocore's, with [e.response['Error']['Code']] *)
  | MirrorError (msg : string)
  | UnicodeDecodeError.

Inductive result (A : Type) :=
  | Ok (a : A)
  | Raise (e : exn).
Arguments Ok {A} a.
Arguments Raise {A} e.

(** An S3 object: its bytes and its user metadata. *)
Record s3object := mkObject {
  body : string;
  metadata : gmap string string;
}.

(** The writes a run issues to the store, oldest first. *)
Inductive write :=
  | UploadFile (bucket key filename content_type : string)
      (meta : gmap string string)
  | CopyFrom (bucket key src_bucket src_key : string)
      (meta : gmap string string)
  | PutObject (bucket key : string) (body content_type : string).

Record world := mkWorld {
  s3 : gmap (string * string) s3object;   (** objects by (bucket, key) *)
  writes : list write;
}.

(** What a run does not control: the answers of the store to bucket and object
    requests that fail for another reason than a missing object, the outcome of
    the [dirhasher] program on a file, and the bytes of the local files.  They
    do not change during a run. *)
Record completed_process := mkProcess {
  returncode : Z;
  stdout : option string;   (** [str(p.stdout, 'utf-8')]; [None] when the
                                bytes written are not valid UTF-8 *)
}.

Record environment := mkEnv {
  head_bucket_error : string → option string;
    (** [str(e)] of the [ClientError] that [head_bucket] raises, if any *)
  object_error : string * string → option string;
    (** the error code the store answers a HEAD or GET of an object with,
        when it answers with an error; a missing object is a ['404'] *)
  dirhasher : string → completed_process;
    (** the outcome of [dirhasher] on a local path (program [Local]) or on the
        bytes of the downloaded file (program [Remote]) *)
  local_file : string → string;
    (** the bytes of the local file at a path *)
}.

(** Computations over the store that may raise; the store keeps what was
    written before an exception. *)
Definition M (A : Type) : Type := world → result A * world.

Global Instance M_ret : MRet M := λ A a w, (Ok a, w).
Global Instance M_bind : MBind M := λ A B f m w,
  match m w with
  | (Ok a, w') => f a w'
  | (Raise e, w') => (Raise e, w')
  end.
Definition raise {A} (e : exn) : M A := λ w, (Raise e, w).

(** [try: m / except ClientError as e: handler(code)]; other exceptions pass. *)
Definition try_except_ClientError {A} (m : M A) (handler : string → M A) : M A :=
  λ w, match m w with
       | (Raise (ClientError code), w') => handler code w'
       | r => r
       end.

(** A loop with an accumulator: [for x in l: acc = body(acc, x)]. *)
Fixpoint foldM {A B} (body : B → A → M B) (acc : B) (l : list A) : M B :=
  match l with
  | [] => mret acc
  | x :: l' => acc' ← body acc x; foldM body acc' l'
  end.

Definition for_each {A} (l : list A) (body : A → M unit) : M unit :=
  foldM (λ _ x, body x) tt l.

(** [sorted] on strings, and on the keys of a dict. *)
Definition sorted (l : list string) : list string := merge_sort String.le l.
Definition sorted_keys {V} (d : gmap string V) : list string :=
  sorted (map_to_list d).*1.

(** Comparison of tuples of strings: the first differing position decides. *)
Fixpoint tuple_compare (t1 t2 : list string) : comparison :=
  match t1, t2 with
  | [], [] => Eq
  | [], _ :: _ => Lt
  | _ :: _, [] => Gt
  | x :: t1', y :: t2' =>
      match String.compare x y with
      | Eq => tuple_compare t1' t2'
      | c => c
      end
  end.

Definition tuple_le (t1 t2 : list string) : Prop := tuple_compare t1 t2 ≠ Gt.

Global Instance tuple_le_dec : RelDecision tuple_le.
Proof. intros t1 t2. unfold tuple_le. apply _. Defined.

(** ** [json.dumps(d, sort_keys=True, indent=2)] *)

#[warnings="-register-all"]
Inductive json :=
  | JString (s : string)
  | JArray (items : list json)
  | JObject (members : list (string * json)).

Module Json.

Definition nl : string := String "010"%char EmptyString.
Definition dquote : string := String "034"%char EmptyString.
Definition backslash : string := String "092"%char EmptyString.

Definition hex_digit (n : N) : ascii :=
  if (n <? 10)%N then ascii_of_N (48 + n) else ascii_of_N (87 + n).

(** [ensure_ascii=True]: the characters outside [' '..'~'], the quote and
    the backslash are escaped. *)
Definition escape_char (c : ascii) : string :=
  let n := N_of_ascii c in
  if (n =? 34)%N then backslash +:+ dquote
  else if (n =? 92)%N then backslash +:+ backslash
  else if (n =? 10)%N then backslash +:+ "n"
  else if (n =? 13)%N then backslash +:+ "r"
  else if (n =? 9)%N then backslash +:+ "t"
  else if (n =? 12)%N then backslash +:+ "f"
  else if (n =? 8)%N then backslash +:+ "b"
  else if ((32 <=? n) && (n <=? 126))%N then String c EmptyString
  else backslash +:+ "u00"
       +:+ String (hex_digit (n / 16)) (String (hex_digit (n mod 16)) EmptyString).

Fixpoint escape (s : string) : string :=
  match s with
  | EmptyString => EmptyString
  | String c s' => escape_char c +:+ escape s'
  end.

Definition quote (s : string) : string := dquote +:+ escape s +:+ dquote.

Fixpoint indent (level : nat) : string :=
  match level with
  | 0 => EmptyString
  | S n => "  " +:+ indent n
  end.

Definition block (opening closing : string) (level : nat) (items : list string)
  : string :=
  match items with
  | [] => opening +:+ closing
  | _ => opening +:+ nl +:+ indent (S level)
         +:+ Py.join ("," +:+ nl +:+ indent (S level)) items
         +:+ nl +:+ indent level +:+ closing
  end.

Fixpoint dumps_at (level : nat) (j : json) : string :=
  match j with
  | JString s => quote s
  | JArray items => block "[" "]" level (map (dumps_at (S level)) items)
  | JObject members =>
      block "{" "}" level
        (map (λ kv, quote kv.1 +:+ ": " +:+ dumps_at (S level) kv.2) members)
  end.

Definition dumps (j : json) : string := dumps_at 0 j.

(** The members of a dict, in the order [sort_keys=True] emits them. *)
Definition sorted_members {V} (to_json : V → json) (d : gmap string V)
  : list (string * json) :=
  omap (λ k, (λ v, (k, to_json v)) <$> d !! k) (sorted_keys d).

End Json.

(** ** The functions both programs define alike, and the store *)

Definition DIRHASH_METADATA : string := "dirhash".

Definition parse_bucket_and_prefix (v : string) : string * string :=
  match Py.split "/" (Some 1) v with
  | [p0; p1] => (p0, p1)
  | p0 :: _ => (p0, EmptyString)
  | [] => (EmptyString, EmptyString)
  end.

Definition lift {A} (r : result A) : M A := λ w, (r, w).

(** [obj.put(Body=body, ContentType=content_type)] *)
Definition put (obj : string * string) (body content_type : string) : M unit :=
  λ w, (Ok tt,
        mkWorld (<[obj := mkObject body ∅]> (s3 w))
                (writes w ++ [PutObject obj.1 obj.2 body content_type])).

(** [obj.copy_from(CopySource=src, Metadata=meta, MetadataDirective='REPLACE')] *)
Definition copy_from (obj src : string * string) (meta : gmap string string)
  : M unit :=
  λ w, match s3 w !! src with
       | Some o =>
           (Ok tt,
            mkWorld (<[obj := mkObject (body o) meta]> (s3 w))
                    (writes w ++ [CopyFrom obj.1 obj.2 src.1 src.2 meta]))
       | None => (Raise (ClientError "NoSuchKey"), w)
       end.

(** The keys of a bucket that start with a prefix. *)
Definition list_keys (bucket prefix : string) (objects : gmap (string * string) s3object)
  : list string :=
  omap (λ bk : string * string,
          if bool_decide (bk.1 = bucket) && String.prefix prefix bk.2
          then Some bk.2 else None)
       (map_to_list objects).*1.

(** [bucket.objects.filter(Prefix=prefix)] *)
Definition list_objects (bucket prefix : string) : M (list string) :=
  λ w, (Ok (list_keys bucket prefix (s3 w)), w).

(** What [dirhash] makes of a finished [dirhasher] process. *)
Definition dirhash_of (p : completed_process) : result string :=
  if negb (returncode p =? 0)%Z
  then Raise (MirrorError ("dirhasher failed with code: " +:+ pretty (returncode p)))
  else match stdout p with
       | Some out => Ok (Py.strip out)
       | None => Raise UnicodeDecodeError
       end.

Section store.
Context (E : environment).

(** [head_bucket] raises a [ClientError] [e], which is turned into a
    [MirrorError] whose message ends with [str(e)]. *)
Definition check_bucket_access (bucket_name : string) : M unit :=
  match head_bucket_error E bucket_name with
  | Some e =>
      raise (MirrorError ("Cannot access bucket " +:+ bucket_name +:+ ": " +:+ e))
  | None => mret tt
  end.

(** A HEAD or GET of an object: [obj.load()], [obj.download_file]. *)
Definition fetch (obj : string * string) : M s3object :=
  λ w, match object_error E obj with
       | Some code => (Raise (ClientError code), w)
       | None =>
           match s3 w !! obj with
           | Some o => (Ok o, w)
           | None => (Raise (ClientError "404"), w)
           end
       end.

Definition load (obj : string * string) : M s3object := fetch obj.

(** The result is the loaded object when it exists: the callers read
    [obj.metadata] from it, which [load] has cached. *)
Definition object_exists (obj : string * string) : M (option s3object) :=
  try_except_ClientError
    (o ← load obj; mret (Some o))
    (λ code, if String.eqb code "404" then mret None
             else raise (ClientError code)).

(** [obj.upload_file(Filename=filename, ExtraArgs=dict(ContentType=...,
    Metadata=meta))] *)
Definition upload_file (obj : string * string) (filename content_type : string)
    (meta : gmap string string) : M unit :=
  λ w, (Ok tt,
        mkWorld (<[obj := mkObject (local_file E filename) meta]> (s3 w))
                (writes w ++ [UploadFile obj.1 obj.2 filename content_type meta])).

End store.

(** [provider_versions[archive.provider][archive.version].add(archive)], on
    the [defaultdict] of [defaultdict]s of sets of both programs. *)
Section grouping.
Context {A : Type} `{Countable A} (provider version : A → string).

Definition add_archive (provider_versions : gmap string (gmap string (gset A)))
    (archive : A) : gmap string (gmap string (gset A)) :=
  let versions := default ∅ (provider_versions !! provider archive) in
  let archives := default ∅ (versions !! version archive) in
  <[provider archive := <[version archive := archives ∪ {[archive]}]> versions]>
    provider_versions.

(** Every provider grouped has a version, and every version an archive. *)
Definition tight (provider_versions : gmap string (gmap string (gset A))) : Prop :=
  ∀ p versions, provider_versions !! p = Some versions →
    (∃ v, is_Some (versions !! v)) ∧
    ∀ v archives, versions !! v = Some archives → ∃ a, a ∈ archives.

End grouping.

(** ** [mirror-provider-local.py] *)

Record entry := mkEntry {
  hashes : list string;
  url : string;
}.

Definition entry_json (e : entry) : json :=
  JObject [("hashes", JArray (JString <$> hashes e)); ("url", JString (url e))].

(** [{'archives': {os_arch: {'hashes': [...], 'url': ...}}}] *)
Definition version_json (version_data : gmap string entry) : json :=
  JObject [("archives", JObject (Json.sorted_members entry_json version_data))].

(** [{'versions': {version: {}}}] *)
Definition index_json (index_data : gmap string unit) : json :=
  JObject [("versions", JObject (Json.sorted_members (λ _, JObject []) index_data))].

Module Local.

Record Archive := mkArchive {
  path : string;
  file_name : string;
  provider : string;
  version : string;
  os : string;
  arch : string;
}.

Definition parse (archive_path : string) : option Archive :=
  let file_name := Py.basename archive_path in
  if negb (Py.endswith file_name ".zip") then None
  else
    let without_ext := fst (Py.splitext file_name) in
    let parts := Py.split "_" (Some 3) without_ext in
    match parts with
    | [p0; p1; p2; p3] =>
        if existsb Py.is_empty parts then None
        else Some (mkArchive archive_path file_name p0 p1 p2 p3)
    | _ => None
    end.

(** An [Archive] is a named tuple: it is compared, hashed and ordered as the
    tuple of its six fields. *)
Definition as_tuple (a : Archive) : list string :=
  [path a; file_name a; provider a; version a; os a; arch a].

Global Instance Archive_eq_dec : EqDecision Archive.
Proof. solve_decision. Defined.

Global Instance Archive_countable : Countable Archive :=
  inj_countable'
    (λ a, (path a, file_name a, provider a, version a, os a, arch a))
    (λ t, match t with (p, f, pr, v, o, ar) => mkArchive p f pr v o ar end)
    (λ a, match a with mkArchive _ _ _ _ _ _ => eq_refl end).

Definition archive_le (a b : Archive) : Prop := tuple_le (as_tuple a) (as_tuple b).

Global Instance archive_le_dec : RelDecision archive_le.
Proof. intros a b. unfold archive_le. apply _. Defined.

(** [sorted(archives)] on a set of archives *)
Definition sorted_archives (archives : gset Archive) : list Archive :=
  merge_sort archive_le (elements archives).

(** The first loop of [main]: gather info about the archives. *)
Definition gather (archive_paths : list string)
  : gmap string (gmap string (gset Archive)) :=
  foldl (λ provider_versions archive_path,
           match parse archive_path with
           | Some archive => add_archive provider version provider_versions archive
           | None => provider_versions
           end)
        ∅ archive_paths.

Definition os_arch (archive : Archive) : string :=
  os archive +:+ "_" +:+ arch archive.

Section program.
Context (E : environment).

Definition dirhash (path : string) : M string :=
  lift (dirhash_of (dirhasher E path)).

Definition copy_archive (archive_path : string) (mirror_obj : string * string)
  : M (string * bool) :=
  h1 ← dirhash archive_path;
  existing ← object_exists E mirror_obj;
  let copy_required :=
    match existing with
    | Some o => negb (bool_decide (metadata o !! DIRHASH_METADATA = Some h1))
    | None => true
    end in
  if negb copy_required then mret (h1, false)
  else
    upload_file E mirror_obj archive_path "application/zip"
      {[DIRHASH_METADATA := h1]} ;;
    mret (h1, true).

(** The loop over the archives of a version; it returns
    [version_data['archives']]. *)
Definition sync_archives (mirror_bucket_name out_prefix : string)
    (archives : gset Archive) : M (gmap string entry) :=
  foldM (λ version_data archive,
           let mirror_obj := (mirror_bucket_name, out_prefix +:+ file_name archive) in
           hc ← copy_archive (path archive) mirror_obj;
           mret (<[os_arch archive := mkEntry [hc.1] (file_name archive)]> version_data))
        ∅ (sorted_archives archives).

(** The loop over the versions of a provider; it returns
    [index_data['versions']]. *)
Definition sync_versions (mirror_bucket_name out_prefix : string)
    (versions : gmap string (gset Archive)) : M (gmap string unit) :=
  foldM (λ index_data version,
           let archives := versions !!! version in
           version_data ← sync_archives mirror_bucket_name out_prefix archives;
           put (mirror_bucket_name, out_prefix +:+ version +:+ ".json")
             (Json.dumps (version_json version_data)) "application/json" ;;
           mret (<[version := tt]> index_data))
        ∅ (sorted_keys versions).

(** The loop over the providers. *)
Definition sync_providers (mirror_bucket_name out_prefix : string)
    (provider_versions : gmap string (gmap string (gset Archive))) : M unit :=
  for_each (sorted_keys provider_versions)
    (λ provider,
       let versions := provider_versions !!! provider in
       index_data ← sync_versions mirror_bucket_name out_prefix versions;
       put (mirror_bucket_name, out_prefix +:+ "index.json")
         (Json.dumps (index_json index_data)) "application/json").

(** [sys.argv] of a script is never empty: [argv !!! 0] is [sys.argv[0]]. *)
Definition main (argv : list string) : M unit :=
  if length argv <? 3
  then raise (MirrorError ("usage: " +:+ argv !!! 0
                           +:+ " output-mirror-bucket/prefix provider-archive.zip..."))
  else
    let '(mirror_bucket_name, out_prefix) := parse_bucket_and_prefix (argv !!! 1) in
    let archive_paths := drop 2 argv in
    check_bucket_access E mirror_bucket_name ;;
    sync_providers mirror_bucket_name out_prefix (gather archive_paths).

End program.

End Local.

(** ** [mirror-provider.py] *)

Module Remote.

Record Archive := mkArchive {
  key : string;
  file_name : string;
  provider : string;
  version : string;
  os : string;
  arch : string;
}.

Definition parse (key : string) : option Archive :=
  let file_name := Py.last_item (Py.split "/" None key) in
  if negb (Py.endswith file_name ".zip") then None
  else
    let without_ext := Py.slice file_name None (Some (-4)%Z) in
    let parts := Py.split "_" (Some 3) without_ext in
    match parts with
    | [p0; p1; p2; p3] =>
        if existsb Py.is_empty parts then None
        else Some (mkArchive key file_name p0 p1 p2 p3)
    | _ => None
    end.

Definition as_tuple (a : Archive) : list string :=
  [key a; file_name a; provider a; version a; os a; arch a].

Global Instance Archive_eq_dec : EqDecision Archive.
Proof. solve_decision. Defined.

Global Instance Archive_countable : Countable Archive :=
  inj_countable'
    (λ a, (key a, file_name a, provider a, version a, os a, arch a))
    (λ t, match t with (k, f, pr, v, o, ar) => mkArchive k f pr v o ar end)
    (λ a, match a with mkArchive _ _ _ _ _ _ => eq_refl end).

Definition archive_le (a b : Archive) : Prop := tuple_le (as_tuple a) (as_tuple b).

Global Instance archive_le_dec : RelDecision archive_le.
Proof. intros a b. unfold archive_le. apply _. Defined.

Definition sorted_archives (archives : gset Archive) : list Archive :=
  merge_sort archive_le (elements archives).

(** The first loop of [main], over the keys the listing of the releases
    bucket yields. *)
Definition gather (keys : list string)
  : gmap string (gmap string (gset Archive)) :=
  foldl (λ provider_versions key,
           match parse key with
           | Some archive => add_archive provider version provider_versions archive
           | None => provider_versions
           end)
        ∅ keys.

Definition os_arch (archive : Archive) : string :=
  os archive +:+ "_" +:+ arch archive.

Section program.
Context (E : environment).

(** The object is downloaded to a temporary file, which [dirhasher] reads. *)
Definition dirhash (obj : string * string) : M string :=
  o ← fetch E obj;
  lift (dirhash_of (dirhasher E (body o))).

Definition copy_archive (rel_obj mirror_obj : string * string)
  : M (string * bool) :=
  existing ← object_exists E mirror_obj;
  let cached :=
    match existing with
    | Some o =>
        match metadata o !! DIRHASH_METADATA with
        | Some h => if Py.truthy h then Some h else None
        | None => None
        end
    | None => None
    end in
  match cached with
  | Some h => mret (h, false)
  | None =>
      h1 ← dirhash rel_obj;
      rel ← load E rel_obj;
      let metadata := <[DIRHASH_METADATA := h1]> (metadata rel) in
      copy_from mirror_obj rel_obj metadata ;;
      mret (h1, true)
  end.

Definition sync_archives (rel_bucket_name mirror_bucket_name out_prefix : string)
    (archives : gset Archive) : M (gmap string entry) :=
  foldM (λ version_data archive,
           let rel_obj := (rel_bucket_name, key archive) in
           let mirror_obj :=
             (mirror_bucket_name,
              out_prefix +:+ version archive +:+ "/" +:+ file_name archive) in
           hc ← copy_archive rel_obj mirror_obj;
           mret (<[os_arch archive :=
                     mkEntry [hc.1] (version archive +:+ "/" +:+ file_name archive)]>
                   version_data))
        ∅ (sorted_archives archives).

Definition sync_versions (rel_bucket_name mirror_bucket_name out_prefix : string)
    (versions : gmap string (gset Archive)) : M (gmap string unit) :=
  foldM (λ index_data version,
           let archives := versions !!! version in
           version_data ←
             sync_archives rel_bucket_name mirror_bucket_name out_prefix archives;
           put (mirror_bucket_name, out_prefix +:+ version +:+ ".json")
             (Json.dumps (version_json version_data)) "application/json" ;;
           mret (<[version := tt]> index_data))
        ∅ (sorted_keys versions).

Definition sync_providers (rel_bucket_name mirror_bucket_name out_prefix : string)
    (provider_versions : gmap string (gmap string (gset Archive))) : M unit :=
  for_each (sorted_keys provider_versions)
    (λ provider,
       let versions := provider_versions !!! provider in
       index_data ←
         sync_versions rel_bucket_name mirror_bucket_name out_prefix versions;
       put (mirror_bucket_name, out_prefix +:+ "index.json")
         (Json.dumps (index_json index_data)) "application/json").

(** Everything after the listing of the releases bucket. *)
Definition mirror (rel_bucket_name mirror_bucket_name out_prefix : string)
    (keys : list string) : M unit :=
  sync_providers rel_bucket_name mirror_bucket_name out_prefix (gather keys).

Definition main (argv : list string) : M unit :=
  if negb (length argv =? 3)
  then raise (MirrorError ("usage: " +:+ argv !!! 0
                           +:+ " input-releases-bucket/prefix output-mirror-bucket/prefix"))
  else
    let '(rel_bucket_name, rel_prefix) := parse_bucket_and_prefix (argv !!! 1) in
    let '(mirror_bucket_name, out_prefix) := parse_bucket_and_prefix (argv !!! 2) in
    check_bucket_access E rel_bucket_name ;;
    check_bucket_access E mirror_bucket_name ;;
    keys ← list_objects rel_bucket_name rel_prefix;
    mirror rel_bucket_name mirror_bucket_name out_prefix keys.

End program.

End Remote.

(** ** Notions used to state the properties *)

(** The file name [{p}_{v}_{o}_{a}.zip]. *)
Definition archive_name (p v o a : string) : string :=
  p +:+ "_" +:+ v +:+ "_" +:+ o +:+ "_" +:+ a +:+ ".zip".

(** The four parts are not empty, and the first three have no underscore. *)
Record well_formed (p v o a : string) : Prop := {
  wf_provider : p ≠ EmptyString;
  wf_version : v ≠ EmptyString;
  wf_os : o ≠ EmptyString;
  wf_arch : a ≠ EmptyString;
  wf_provider_sep : Py.contains "_" p = false;
  wf_version_sep : Py.contains "_" v = false;
  wf_os_sep : Py.contains "_" o = false;
}.

(** A file name, alone or under a directory prefix. *)
Definition in_dir (dir : option string) (f : string) : string :=
  match dir with
  | Some d => d +:+ "/" +:+ f
  | None => f
  end.

(** The document puts and the archive copies (uploads) among some writes. *)
Definition is_put (x : write) : bool :=
  match x with PutObject _ _ _ _ => true | _ => false end.
Definition puts (l : list write) : list write := List.filter is_put l.
Definition copies (l : list write) : list write :=
  List.filter (λ x, negb (is_put x)) l.

(** [post F m w Q]: the outcome of [m] from [w] satisfies [Q] when it is a
    result; an exception counts as [F].  With [F := False] the computation
    returns, with [F := True] it may raise. *)
Definition post {A} (F : Prop) (m : M A) (w : world) (Q : A → world → Prop) : Prop :=
  match m w with
  | (Ok a, w') => Q a w'
  | (Raise _, _) => F
  end.

(** The three nested loops of [main], over any kind of archive record and any
    copy step, and the documents they are to put, from the fingerprint [hash]
    of each archive. *)
Section loops.
Context {A : Type} `{Countable A}.
Context (sort : gset A → list A) (os_arch url_of : A → string).
Context (bucket out_prefix : string).

Section run.
Context (copy : A → M (string * bool)).

Definition loop_archives (archives : gset A) : M (gmap string entry) :=
  foldM (λ version_data archive,
           hc ← copy archive;
           mret (<[os_arch archive := mkEntry [hc.1] (url_of archive)]> version_data))
        ∅ (sort archives).

Definition loop_versions (versions : gmap string (gset A)) : M (gmap string unit) :=
  foldM (λ index_data version,
           version_data ← loop_archives (versions !!! version);
           put (bucket, out_prefix +:+ version +:+ ".json")
             (Json.dumps (version_json version_data)) "application/json" ;;
           mret (<[version := tt]> index_data))
        ∅ (sorted_keys versions).

Definition loop_providers (provider_versions : gmap string (gmap string (gset A)))
  : M unit :=
  for_each (sorted_keys provider_versions)
    (λ provider,
       index_data ← loop_versions (provider_versions !!! provider);
       put (bucket, out_prefix +:+ "index.json")
         (Json.dumps (index_json index_data)) "application/json").
End run.

Context (hash : A → string).

Definition version_data_of (archives : list A) : gmap string entry :=
  foldl (λ version_data archive,
           <[os_arch archive := mkEntry [hash archive] (url_of archive)]> version_data)
        ∅ archives.

Definition index_data_of (versions : list string) : gmap string unit :=
  foldl (λ index_data version, <[version := tt]> index_data) ∅ versions.

Definition version_document (version : string) (archives : gset A) : write :=
  PutObject bucket (out_prefix +:+ version +:+ ".json")
    (Json.dumps (version_json (version_data_of (sort archives))))
    "application/json".

Definition version_documents (versions : gmap string (gset A)) (l : list string)
  : list write :=
  (λ v, version_document v (versions !!! v)) <$> l.

Definition index_document (versions : list string) : write :=
  PutObject bucket (out_prefix +:+ "index.json")
    (Json.dumps (index_json (index_data_of versions))) "application/json".

Definition provider_documents (versions : gmap string (gset A)) : list write :=
  version_documents versions (sorted_keys versions)
  ++ [index_document (sorted_keys versions)].

Definition documents (provider_versions : gmap string (gmap string (gset A)))
    (l : list string) : list write :=
  concat ((λ p, provider_documents (provider_versions !!! p)) <$> l).

(** The archives grouped in [provider_versions]. *)
Definition grouped (provider_versions : gmap string (gmap string (gset A)))
    (a : A) : Prop :=
  ∃ p v, a ∈ (provider_versions !!! p) !!! v.

End loops.

(** What the documents of a run list, whatever the fingerprints are: a version
    document has one entry for each platform of the archives of the version
    that the run has grouped, with the url of such an archive and one
    fingerprint, and nothing else; the index lists the versions grouped. *)
Section documents_shape.
Context {A : Type} `{Countable A}.
Context (os_arch url_of : A → string) (bucket out_prefix : string).

Definition lists_archives (archives : gset A) (version_data : gmap string entry)
  : Prop :=
  (∀ k e, version_data !! k = Some e →
          ∃ a h, a ∈ archives ∧ os_arch a = k ∧ e = mkEntry [h] (url_of a)) ∧
  (∀ a, a ∈ archives → is_Some (version_data !! os_arch a)).

Definition is_version_document (versions : gmap string (gset A)) (v : string)
    (x : write) : Prop :=
  ∃ version_data,
    lists_archives (versions !!! v) version_data ∧
    x = PutObject bucket (out_prefix +:+ v +:+ ".json")
          (Json.dumps (version_json version_data)) "application/json".

Definition are_provider_documents (versions : gmap string (gset A))
    (l : list write) : Prop :=
  ∃ version_docs,
    Forall2 (is_version_document versions) (sorted_keys versions) version_docs ∧
    l = version_docs
        ++ [PutObject bucket (out_prefix +:+ "index.json")
              (Json.dumps (index_json (index_data_of (sorted_keys versions))))
              "application/json"].

Definition are_documents (provider_versions : gmap string (gmap string (gset A)))
    (l : list write) : Prop :=
  ∃ provider_docs,
    Forall2 (λ p docs, are_provider_documents (provider_versions !!! p) docs)
            (sorted_keys provider_versions) provider_docs ∧
    l = concat provider_docs.

End documents_shape.

(** Program [Local]: the fingerprint of an archive is the output of [dirhasher]
    on its path, and its mirror object is named by its file name. *)
Definition local_fingerprint (E : environment) (a : Local.Archive) : string :=
  match dirhash_of (dirhasher E (Local.path a)) with
  | Ok h => h
  | Raise _ => EmptyString
  end.

Definition local_mirror_obj (bucket out_prefix : string) (a : Local.Archive)
  : string * string :=
  (bucket, out_prefix +:+ Local.file_name a).

(** The fingerprint a store object carries as metadata, if any. *)
Definition stored_fingerprint (existing : option s3object) : option string :=
  o ← existing; metadata o !! DIRHASH_METADATA.

(** Program [Remote]: the fingerprint that [copy_archive] trusts, if any. *)
Definition cached_fingerprint (existing : option s3object) : option string :=
  h ← stored_fingerprint existing; if Py.truthy h then Some h else None.

Definition remote_mirror_obj (bucket out_prefix : string) (a : Remote.Archive)
  : string * string :=
  (bucket, out_prefix +:+ Remote.version a +:+ "/" +:+ Remote.file_name a).

Definition remote_url (a : Remote.Archive) : string :=
  Remote.version a +:+ "/" +:+ Remote.file_name a.

Definition remote_fingerprint (bucket out_prefix : string) (w : world)
    (a : Remote.Archive) : string :=
  default EmptyString
    (cached_fingerprint (s3 w !! remote_mirror_obj bucket out_prefix a)).

(** The requests that the local copy step of an archive makes do not fail:
    [dirhasher] returns a fingerprint, and the store answers the existence
    check of the mirror object, possibly with a ['404']. *)
Definition local_ok (E : environment) (bucket out_prefix : string)
    (a : Local.Archive) : Prop :=
  (∃ h, dirhash_of (dirhasher E (Local.path a)) = Ok h) ∧
  (∀ code, object_error E (local_mirror_obj bucket out_prefix a) = Some code →
           code = "404").

(** The mirror object of a local archive carries the fingerprint of the
    archive, and the copy step finds it. *)
Definition local_synced (E : environment) (bucket out_prefix : string)
    (a : Local.Archive) (w : world) : Prop :=
  (∃ h, dirhash_of (dirhasher E (Local.path a)) = Ok h) ∧
  object_error E (local_mirror_obj bucket out_prefix a) = None ∧
  stored_fingerprint (s3 w !! local_mirror_obj bucket out_prefix a)
  = Some (local_fingerprint E a).

(** The mirror object of a remote archive carries a fingerprint that the copy
    step trusts, and the copy step finds it. *)
Definition remote_synced (E : environment) (bucket out_prefix : string)
    (a : Remote.Archive) (w : world) : Prop :=
  object_error E (remote_mirror_obj bucket out_prefix a) = None ∧
  is_Some (cached_fingerprint (s3 w !! remote_mirror_obj bucket out_prefix a)).

(** ** The script around [main], and notions for whole runs *)

(** How the script ends: with [sys.exit(status)], after printing the message
    of a [MirrorError]; or with an exception that nothing catches, which the
    interpreter reports with a traceback and the exit status 1. *)
Inductive termination :=
  | SysExit (status : Z) (printed : option string)
  | Uncaught (e : exn).

(** [try: main(); sys.exit(0) / except MirrorError as e: print(e); sys.exit(1)],
    the same in both programs. *)
Definition script (main : list string → M unit) (argv : list string)
  : world → termination * world :=
  λ w, match main argv w with
       | (Ok tt, w') => (SysExit 0 None, w')
       | (Raise (MirrorError msg), w') => (SysExit 1 (Some msg), w')
       | (Raise e, w') => (Uncaught e, w')
       end.

Definition exit_status (t : termination) : Z :=
  match t with
  | SysExit status _ => status
  | Uncaught _ => 1%Z
  end.

(** The object that a write creates or replaces. *)
Definition target (x : write) : string * string :=
  match x with
  | UploadFile bucket key _ _ _ => (bucket, key)
  | CopyFrom bucket key _ _ _ => (bucket, key)
  | PutObject bucket key _ _ => (bucket, key)
  end.

(** The objects of a bucket whose key starts with a prefix. *)
Definition under (bucket out_prefix : string) (obj : string * string) : Prop :=
  obj.1 = bucket ∧ String.prefix out_prefix obj.2 = true.

(** From [w] to [w'], writes were only added, all of them under the prefix of
    the bucket; the other objects are as they were, and no object is gone. *)
Definition writes_within (bucket out_prefix : string) (w w' : world) : Prop :=
  (∃ new, writes w' = writes w ++ new ∧
          Forall (λ x, under bucket out_prefix (target x)) new) ∧
  (∀ obj, ¬ under bucket out_prefix obj → s3 w' !! obj = s3 w !! obj) ∧
  (∀ obj, is_Some (s3 w !! obj) → is_Some (s3 w' !! obj)).

(** [keeps P R Qe m]: from a store that satisfies [P], whatever the outcome of
    [m] is, the store it leaves is related by [R] to the store it started
    from, and an exception it raises satisfies [Qe]. *)
Definition keeps {A} (P : world → Prop) (R : world → world → Prop)
    (Qe : exn → Prop) (m : M A) : Prop :=
  ∀ w, P w → R w (m w).2 ∧ match (m w).1 with Ok _ => True | Raise e => Qe e end.

(** The source of a remote archive exists. *)
Definition source_exists (rel_bucket : string) (a : Remote.Archive) (w : world) : Prop :=
  is_Some (s3 w !! (rel_bucket, Remote.key a)).

(** The objects whose key ends in [.zip] keep a fingerprint metadata. *)
Definition keeps_archives (w w' : world) : Prop :=
  ∀ obj : string * string,
    (∃ stem, obj.2 = stem +:+ ".zip") →
    is_Some (stored_fingerprint (s3 w !! obj)) →
    is_Some (stored_fingerprint (s3 w' !! obj)).





(** A string of whitespace only. *)
Fixpoint all_space (s : string) : bool :=
  match s with
  | EmptyString => true
  | String c s' => Py.isspace c && all_space s'
  end.

(** The characters [' '] to ['~'] and the newline. *)
Definition ascii_char (c : ascii) : bool :=
  let n := N_of_ascii c in
  ((32 <=? n) && (n <=? 126) || (n =? 10))%N.

(** A text of such characters only. *)
Fixpoint ascii_text (s : string) : bool :=
  match s with
  | EmptyString => true
  | String c s' => ascii_char c && ascii_text s'
  end.

(** [h] is the text [out] without the whitespace at its two ends: [out] is
    whitespace, [h], and whitespace, and [h] neither starts nor ends with a
    whitespace character. *)
Definition trimmed (out h : string) : Prop :=
  ∃ l r, out = l +:+ h +:+ r ∧ all_space l = true ∧ all_space r = true ∧
         (∀ c t, h = String c t → Py.isspace c = false) ∧
         (∀ t c, h = t +:+ String c EmptyString → Py.isspace c = false).

(** ** Examples of environments and stores *)

(** A store without faults, and a [dirhasher] that exits with 0. *)
Definition example_env (output : string → string) : environment :=
  mkEnv (λ _, None) (λ _, None)
        (λ file, mkProcess 0 (Some (output file)))
        (λ path, "bytes of " +:+ path).

(** The fingerprint names the file, is the same for all files, or is empty. *)
Definition named_fingerprints : environment := example_env (λ file, "h1:" +:+ file).
Definition equal_fingerprints : environment := example_env (λ _, "h1:abc").
Definition empty_fingerprints : environment := example_env (λ _, EmptyString).

(** A store that denies the access to its objects, and a [dirhasher] that
    fails. *)
Definition access_denied : environment :=
  mkEnv (λ _, None) (λ _, Some "403")
        (λ file, mkProcess 0 (Some ("h1:" +:+ file)))
        (λ path, "bytes of " +:+ path).
Definition failing_dirhasher : environment :=
  mkEnv (λ _, None) (λ _, None)
        (λ file, mkProcess 2 (Some "h1:abc"))
        (λ path, "bytes of " +:+ path).

(** A [dirhasher] that exits with 0 and whose output is not valid UTF-8. *)
Definition undecodable_output : environment :=
  mkEnv (λ _, None) (λ _, None)
        (λ file, mkProcess 0 None)
        (λ path, "bytes of " +:+ path).

Definition empty_store : world := mkWorld ∅ [].

(** A releases bucket with one archive. *)
Definition one_release : world :=
  mkWorld {[ ("releases", "aws/pkg_1.0.0_linux_amd64.zip") := mkObject "zip" ∅ ]} [].

(** A mirror bucket that holds an archive with an old fingerprint, or with an
    empty one, and the releases bucket with the archive. *)
Definition stale_mirror (fingerprint : string) : world :=
  mkWorld {[ ("releases", "aws/pkg_1.0.0_linux_amd64.zip") := mkObject "zip" ∅;
             ("mirror", "registry/1.0.0/pkg_1.0.0_linux_amd64.zip") :=
               mkObject "old zip" {[ DIRHASH_METADATA := fingerprint ]} ]} [].

(** The index document of the scenario of two platforms of one version, as
    [json.dumps] prints it. *)
Definition index_1_0_0 : string :=
  "{" +:+ Json.nl
  +:+ "  " +:+ Json.dquote +:+ "versions" +:+ Json.dquote +:+ ": {" +:+ Json.nl
  +:+ "    " +:+ Json.dquote +:+ "1.0.0" +:+ Json.dquote +:+ ": {}" +:+ Json.nl
  +:+ "  }" +:+ Json.nl
  +:+ "}".

(** The version document of that scenario, for the fingerprints [hl] and [hd]
    of the two archives, as [json.dumps] prints it. *)
Definition version_1_0_0 (hl hd : string) : string :=
  "{" +:+ Json.nl
  +:+ "  " +:+ Json.dquote +:+ "archives" +:+ Json.dquote +:+ ": {" +:+ Json.nl
  +:+ "    " +:+ Json.dquote +:+ "darwin_amd64" +:+ Json.dquote +:+ ": {" +:+ Json.nl
  +:+ "      " +:+ Json.dquote +:+ "hashes" +:+ Json.dquote +:+ ": [" +:+ Json.nl
  +:+ "        " +:+ Json.quote hd +:+ Json.nl
  +:+ "      ]," +:+ Json.nl
  +:+ "      " +:+ Json.dquote +:+ "url" +:+ Json.dquote +:+ ": "
  +:+ Json.dquote +:+ "pkg_1.0.0_darwin_amd64.zip" +:+ Json.dquote +:+ Json.nl
  +:+ "    }," +:+ Json.nl
  +:+ "    " +:+ Json.dquote +:+ "linux_amd64" +:+ Json.dquote +:+ ": {" +:+ Json.nl
  +:+ "      " +:+ Json.dquote +:+ "hashes" +:+ Json.dquote +:+ ": [" +:+ Json.nl
  +:+ "        " +:+ Json.quote hl +:+ Json.nl
  +:+ "      ]," +:+ Json.nl
  +:+ "      " +:+ Json.dquote +:+ "url" +:+ Json.dquote +:+ ": "
  +:+ Json.dquote +:+ "pkg_1.0.0_linux_amd64.zip" +:+ Json.dquote +:+ Json.nl
  +:+ "    }" +:+ Json.nl
  +:+ "  }" +:+ Json.nl
  +:+ "}".

(** The version document of one archive [pkg_1.0.0_linux_amd64.zip] in the
    mirror of the remote program, for its fingerprint [h]. *)
Definition remote_version_1_0_0 (h : string) : string :=
  "{" +:+ Json.nl
  +:+ "  " +:+ Json.dquote +:+ "archives" +:+ Json.dquote +:+ ": {" +:+ Json.nl
  +:+ "    " +:+ Json.dquote +:+ "linux_amd64" +:+ Json.dquote +:+ ": {" +:+ Json.nl
  +:+ "      " +:+ Json.dquote +:+ "hashes" +:+ Json.dquote +:+ ": [" +:+ Json.nl
  +:+ "        " +:+ Json.quote h +:+ Json.nl
  +:+ "      ]," +:+ Json.nl
  +:+ "      " +:+ Json.dquote +:+ "url" +:+ Json.dquote +:+ ": "
  +:+ Json.dquote +:+ "1.0.0/pkg_1.0.0_linux_amd64.zip" +:+ Json.dquote +:+ Json.nl
  +:+ "    }" +:+ Json.nl
  +:+ "  }" +:+ Json.nl
  +:+ "}".

(** * Properties *)

#[local] Set Warnings "-clear-no-such-hyp".

(** ** Strings *)

Lemma str_app_nil_l (s : string) : EmptyString +:+ s = s.
Proof. reflexivity. Qed.

Lemma str_app_cons (a : ascii) (x y : string) : String a x +:+ y = String a (x +:+ y).
Proof. reflexivity. Qed.

Ltac str_simpl := repeat (progress (simpl; rewrite ?str_app_nil_l, ?str_app_cons)).

Section strings.
Implicit Types (s x y : string) (c a : ascii).

Lemma str_app_nil_r s : s +:+ EmptyString = s.
Proof. induction s as [|a s IH]; str_simpl; [done | by rewrite IH]. Qed.

Lemma str_app_assoc x y s : (x +:+ y) +:+ s = x +:+ (y +:+ s).
Proof. induction x as [|a x IH]; str_simpl; [done | by rewrite IH]. Qed.

Lemma str_length_app x y :
  String.length (x +:+ y) = String.length x + String.length y.
Proof. induction x as [|a x IH]; str_simpl; [done | by rewrite IH]. Qed.

Lemma str_drop_app x y : Py.drop (String.length x) (x +:+ y) = y.
Proof. induction x as [|a x IH]; str_simpl; [by destruct y | done]. Qed.

Lemma str_take_app x y : Py.take (String.length x) (x +:+ y) = x.
Proof. induction x as [|a x IH]; str_simpl; [by destruct y | by rewrite IH]. Qed.

Lemma str_drop_0 s : Py.drop 0 s = s.
Proof. by destruct s. Qed.

Lemma str_take_length s : Py.take (String.length s) s = s.
Proof. induction s as [|a s IH]; simpl; [done | by rewrite IH]. Qed.

Lemma str_take_drop s n : Py.take n s +:+ Py.drop n s = s.
Proof.
  revert s; induction n as [|n IH]; intros [|a s]; str_simpl; try done.
  by rewrite IH.
Qed.

Lemma str_length_drop s n : String.length (Py.drop n s) = String.length s - n.
Proof. revert s; induction n as [|n IH]; intros [|a s]; simpl; auto. Qed.

Lemma contains_app c x y :
  Py.contains c (x +:+ y) = Py.contains c x || Py.contains c y.
Proof.
  induction x as [|a x IH]; str_simpl; [done|].
  rewrite IH. by destruct (Ascii.eqb a c).
Qed.

Lemma is_empty_true s : Py.is_empty s = true ↔ s = EmptyString.
Proof. by destruct s. Qed.

Lemma is_empty_false s : Py.is_empty s = false ↔ s ≠ EmptyString.
Proof. by destruct s. Qed.

End strings.

(** ** [str.split] *)

Section split.
Implicit Types (s x y : string) (c a sep : ascii) (m : option nat).

Lemma split_nonempty sep m s : Py.split sep m s ≠ [].
Proof.
  destruct s as [|a s]; simpl; [done|].
  destruct (_ && _); [done|]. by destruct (Py.split sep m s).
Qed.

Lemma split_zero sep s : Py.split sep (Some 0) s = [s].
Proof. induction s as [|a s IH]; simpl; [done | by rewrite IH]. Qed.

(** A string without the separator is not split. *)
Lemma split_no_sep sep m s : Py.contains sep s = false → Py.split sep m s = [s].
Proof.
  induction s as [|a s IH]; simpl; [done|].
  intros [Ha Hs]%orb_false_iff. rewrite Ha, andb_false_r, IH; done.
Qed.

(** The first separator splits, when splits remain. *)
Lemma split_first sep n x y :
  Py.contains sep x = false →
  Py.split sep (Some (S n)) (x +:+ String sep y) = x :: Py.split sep (Some n) y.
Proof.
  induction x as [|a x IH]; str_simpl.
  - intros _. by rewrite Ascii.eqb_refl.
  - intros [Ha Hx]%orb_false_iff. rewrite Ha, IH; done.
Qed.

Lemma split_all_app sep x y :
  Py.split sep None (x +:+ String sep y)
  = Py.split sep None x ++ Py.split sep None y.
Proof.
  induction x as [|a x IH]; str_simpl.
  - by rewrite Ascii.eqb_refl.
  - rewrite IH. destruct (Ascii.eqb a sep); simpl; [done|].
    pose proof (split_nonempty sep None x).
    by destruct (Py.split sep None x).
Qed.

(** Joining the parts with the separator gives the string back. *)
Lemma join_split sep m s :
  Py.join (String sep EmptyString) (Py.split sep m s) = s.
Proof.
  revert m; induction s as [|a s IH]; intros m; simpl; [done|].
  destruct (_ && Ascii.eqb a sep) eqn:Hsplit.
  - apply andb_true_iff in Hsplit as [_ ->%Ascii.eqb_eq].
    specialize (IH (Nat.pred <$> m)).
    pose proof (split_nonempty sep (Nat.pred <$> m) s).
    destruct (Py.split sep (Nat.pred <$> m) s) as [|p ps]; [done|].
    simpl in *. by rewrite IH.
  - specialize (IH m). pose proof (split_nonempty sep m s).
    destruct (Py.split sep m s) as [|p ps]; [done|].
    destruct ps; simpl in *; by rewrite <- IH.
Qed.

(** Every part but the last is free of the separator. *)
Lemma split_init_no_sep sep m s ps q :
  Py.split sep m s = ps ++ [q] → Forall (λ p, Py.contains sep p = false) ps.
Proof.
  revert m ps q; induction s as [|a s IH]; intros m ps q; simpl.
  - destruct ps as [|? [|??]]; by intros [=].
  - destruct (_ && Ascii.eqb a sep) eqn:Hsplit.
    + destruct ps as [|p ps]; simpl; intros [= Hp Hps].
      * by destruct (split_nonempty sep (Nat.pred <$> m) s).
      * subst p. constructor; [done|]. by eapply IH.
    + destruct (Py.split sep m s) as [|p0 ps0] eqn:Hs.
      { by destruct (split_nonempty sep m s). }
      destruct ps as [|p ps]; simpl; intros [= Hp Hps]; [done|].
      subst ps0 p. specialize (IH m (p0 :: ps) q Hs).
      apply Forall_cons in IH as [Hp0 Hps]. constructor; [|done].
      simpl. rewrite Hp0, orb_false_r.
      apply andb_false_iff in Hsplit as [Hm|]; [|done].
      (* no splits left: there is only one part *)
      destruct m as [[|n]|]; try done.
      rewrite split_zero in Hs. by destruct ps.
Qed.

(** Without a bound on the splits, the last part is free of it too. *)
Lemma split_all_no_sep sep s :
  Forall (λ p, Py.contains sep p = false) (Py.split sep None s).
Proof.
  induction s as [|a s IH]; simpl; [by repeat constructor|].
  destruct (Ascii.eqb a sep) eqn:Ha; simpl; [by constructor|].
  pose proof (split_nonempty sep None s).
  destruct (Py.split sep None s) as [|p ps]; [done|].
  apply Forall_cons in IH as [Hp Hps]. constructor; [|done].
  simpl. by rewrite Ha, Hp.
Qed.

End split.

(** ** [rfind], slices and the path functions *)

Section paths.
Implicit Types (s x y f w p : string) (c a : ascii).

Lemma rfind_bounds c s : (-1 ≤ Py.rfind c s < Z.of_nat (String.length s))%Z.
Proof.
  induction s as [|a s IH]; simpl; [lia|].
  destruct (Z.leb_spec 0 (Py.rfind c s)); [lia|].
  destruct (Ascii.eqb a c); lia.
Qed.

Lemma rfind_no_char c s : Py.contains c s = false → Py.rfind c s = (-1)%Z.
Proof.
  induction s as [|a s IH]; simpl; [done|].
  intros [Ha Hs]%orb_false_iff. by rewrite (IH Hs), Ha.
Qed.

Lemma rfind_app c x y :
  Py.rfind c (x +:+ y)
  = if (0 <=? Py.rfind c y)%Z
    then (Z.of_nat (String.length x) + Py.rfind c y)%Z
    else Py.rfind c x.
Proof.
  induction x as [|a x IH]; str_simpl.
  - destruct (Z.leb_spec 0 (Py.rfind c y)); [lia|].
    pose proof (rfind_bounds c y). lia.
  - rewrite IH. destruct (Z.leb_spec 0 (Py.rfind c y)); [|done].
    destruct (Z.leb_spec 0 (Z.of_nat (String.length x) + Py.rfind c y)); lia.
Qed.

(** The last occurrence of a character splits a string that has it. *)
Lemma last_char_decompose c s :
  Py.contains c s = true →
  ∃ x f, s = x +:+ String c f ∧ Py.contains c f = false.
Proof.
  induction s as [|a s IH]; simpl; [done|].
  destruct (Py.contains c s) eqn:Hs.
  - intros _. destruct IH as (x & f & -> & Hf); [done|].
    by exists (String a x), f.
  - rewrite orb_false_r. intros ->%Ascii.eqb_eq. by exists EmptyString, s.
Qed.

(** A slice from a non-negative index to the end drops a prefix. *)
Lemma slice_from s (i : Z) :
  (0 ≤ i)%Z → Py.slice s (Some i) None = Py.drop (Z.to_nat i) s.
Proof.
  intros Hi. unfold Py.slice, Py.adjust_index; simpl.
  destruct (Z.ltb_spec i 0); [lia|].
  set (n := String.length s).
  destruct (decide (i ≤ Z.of_nat n)%Z) as [Hle|Hgt].
  - rewrite Z.min_l by done.
    replace (Z.to_nat (Z.of_nat n - i)) with (String.length (Py.drop (Z.to_nat i) s)).
    + apply str_take_length.
    + rewrite str_length_drop. fold n. lia.
  - rewrite Z.min_r by lia. rewrite Z.sub_diag, Nat2Z.id. simpl.
    assert (Hd : ∀ k t, String.length t ≤ k → Py.drop k t = EmptyString).
    { induction k as [|k IHk]; intros [|b t]; simpl; try done; try lia.
      intros. apply IHk. lia. }
    rewrite Hd by (fold n; lia). done.
Qed.

(** A slice from the start to a non-negative index within the string. *)
Lemma slice_upto x y :
  Py.slice (x +:+ y) None (Some (Z.of_nat (String.length x))) = x.
Proof.
  unfold Py.slice, Py.adjust_index; simpl.
  destruct (Z.ltb_spec (Z.of_nat (String.length x)) 0); [lia|].
  rewrite str_length_app, Z.min_l by lia.
  rewrite Z.sub_0_r, Nat2Z.id, ?str_drop_0. apply str_take_app.
Qed.

(** [s[:-n]] removes a suffix of length [n]. *)
Lemma slice_minus x y :
  y ≠ EmptyString →
  Py.slice (x +:+ y) None (Some (- Z.of_nat (String.length y))%Z) = x.
Proof.
  intros Hy. unfold Py.slice, Py.adjust_index; simpl.
  assert (0 < String.length y) by (destruct y; [done | simpl; lia]).
  destruct (Z.ltb_spec (- Z.of_nat (String.length y)) 0); [|lia].
  rewrite str_length_app, Z.max_r by lia.
  replace (Z.to_nat _) with (String.length x) by lia.
  rewrite ?str_drop_0. apply str_take_app.
Qed.

(** The character at an index, as the one-character slice. *)
Lemma slice_char x c y :
  let i := Z.of_nat (String.length x) in
  Py.slice (x +:+ String c y) (Some i) (Some (i + 1)%Z) = String c EmptyString.
Proof.
  intros i. unfold Py.slice, Py.adjust_index; simpl.
  rewrite str_length_app; simpl.
  destruct (Z.ltb_spec i 0); [lia|].
  destruct (Z.ltb_spec (i + 1) 0); [lia|].
  rewrite !Z.min_l by lia.
  replace (Z.to_nat (i + 1 - i)) with 1 by lia.
  unfold i. rewrite Nat2Z.id, str_drop_app. done.
Qed.

Lemma slice_zip w : Py.slice (w +:+ ".zip") None (Some (-4)%Z) = w.
Proof. by apply (slice_minus w ".zip"). Qed.

Lemma endswith_iff s suffix :
  Py.endswith s suffix = true ↔ ∃ x, s = x +:+ suffix.
Proof.
  unfold Py.endswith. rewrite andb_true_iff, Nat.leb_le, String.eqb_eq. split.
  - intros [Hlen Hdrop].
    exists (Py.take (String.length s - String.length suffix) s).
    symmetry. etrans; [|apply (str_take_drop s (String.length s - String.length suffix))].
    by rewrite Hdrop.
  - intros [x ->]. rewrite str_length_app. split; [lia|].
    replace (_ + _ - _) with (String.length x) by lia.
    apply str_drop_app.
Qed.

(** [basename] is the last part of the split on ['/']. *)
Lemma basename_split p :
  Py.basename p = Py.last_item (Py.split "/" None p).
Proof.
  unfold Py.basename.
  pose proof (rfind_bounds "/" p).
  rewrite slice_from by lia.
  destruct (Py.contains "/" p) eqn:Hp.
  - apply last_char_decompose in Hp as (x & f & -> & Hf).
    rewrite rfind_app; simpl. rewrite (rfind_no_char _ _ Hf); simpl.
    rewrite split_all_app, (split_no_sep _ _ _ Hf).
    unfold Py.last_item. rewrite List.last_last.
    replace (Z.to_nat _) with (String.length (x +:+ "/")).
    + by rewrite <- str_drop_app with (x := x +:+ "/"), str_app_assoc.
    + rewrite str_length_app; simpl; lia.
  - rewrite (rfind_no_char _ _ Hp), (split_no_sep _ _ _ Hp). simpl. apply str_drop_0.
Qed.

(** The last part of the split on ['/']: it has no ['/'], and the key is a
    directory prefix followed by it. *)
Lemma last_item_split p :
  let f := Py.last_item (Py.split "/" None p) in
  Py.contains "/" f = false ∧
  (p = f ∨ ∃ d, p = d +:+ "/" +:+ f).
Proof.
  simpl. destruct (Py.contains "/" p) eqn:Hp.
  - apply last_char_decompose in Hp as (x & f & -> & Hf).
    rewrite split_all_app, (split_no_sep _ _ _ Hf).
    unfold Py.last_item. rewrite List.last_last. split; [done|]. right. by exists x.
  - rewrite (split_no_sep _ _ _ Hp). simpl. by split; [|left].
Qed.

Lemma last_item_split_dir d f :
  Py.contains "/" f = false →
  Py.last_item (Py.split "/" None (d +:+ "/" +:+ f)) = f.
Proof.
  intros Hf. change (d +:+ "/" +:+ f) with (d +:+ String "/" f).
  rewrite split_all_app, (split_no_sep _ _ _ Hf).
  unfold Py.last_item. apply List.last_last.
Qed.

(** [splitext] on a file name [w.zip]: the root is [w], unless [w] has only
    dots, and then it has no underscore. *)
Lemma splitext_zip w :
  Py.contains "/" w = false →
  let f := w +:+ ".zip" in
  (Py.splitext f).1 = w ∨
  ((Py.splitext f).1 = f ∧ Py.contains "_" w = false).
Proof.
  intros Hw f. unfold Py.splitext.
  assert (Hsep : Py.rfind "/" f = (-1)%Z).
  { apply rfind_no_char. unfold f. by rewrite contains_app, Hw. }
  assert (Hdot : Py.rfind "." f = Z.of_nat (String.length w)).
  { unfold f. rewrite rfind_app. simpl. lia. }
  rewrite Hsep, Hdot.
  destruct (_ && _) eqn:Hcond; simpl.
  - left. apply slice_upto.
  - right. split; [done|].
    apply andb_false_iff in Hcond as [Hlt|Hex]; [apply Z.ltb_ge in Hlt; lia|].
    destruct (Py.contains "_" w) eqn:Hu; [|done].
    apply last_char_decompose in Hu as (x & y & -> & _).
    rewrite <- Hex. symmetry. apply existsb_exists.
    exists (Z.of_nat (String.length x)). split.
    + apply list_elem_of_In, elem_of_seqZ. rewrite str_length_app; simpl. lia.
    + unfold f. rewrite str_app_assoc, str_app_cons.
      by rewrite (slice_char x "_" (y +:+ ".zip")).
Qed.

End paths.

(** ** The parsers *)

Section parsers.
Implicit Types (key f p v o a w : string).

Lemma archive_name_stem p v o a :
  archive_name p v o a = (p +:+ "_" +:+ v +:+ "_" +:+ o +:+ "_" +:+ a) +:+ ".zip".
Proof. unfold archive_name. by rewrite !str_app_assoc. Qed.

Lemma split_stem p v o a :
  well_formed p v o a →
  Py.split "_" (Some 3) (p +:+ "_" +:+ v +:+ "_" +:+ o +:+ "_" +:+ a) = [p; v; o; a].
Proof.
  intros [].
  change (p +:+ "_" +:+ ?s) with (p +:+ String "_" s).
  rewrite split_first by done.
  change (v +:+ "_" +:+ ?s) with (v +:+ String "_" s).
  rewrite split_first by done.
  change (o +:+ "_" +:+ ?s) with (o +:+ String "_" s).
  rewrite split_first by done.
  by rewrite split_zero.
Qed.

Lemma no_empty_part p v o a :
  well_formed p v o a → existsb Py.is_empty [p; v; o; a] = false.
Proof. intros []. by destruct p, v, o, a. Qed.

Lemma split_stem_inv w p v o a :
  Py.split "_" (Some 3) w = [p; v; o; a] →
  existsb Py.is_empty [p; v; o; a] = false →
  w = p +:+ "_" +:+ v +:+ "_" +:+ o +:+ "_" +:+ a ∧ well_formed p v o a.
Proof.
  intros Hsplit Hempty. split.
  - by rewrite <- (join_split "_" (Some 3) w), Hsplit.
  - apply (split_init_no_sep _ _ _ [p; v; o] a) in Hsplit.
    apply Forall_cons in Hsplit as [? Hsplit].
    apply Forall_cons in Hsplit as [? Hsplit].
    apply Forall_cons in Hsplit as [? _].
    simpl in Hempty. rewrite !orb_false_iff in Hempty.
    destruct Hempty as (?%is_empty_false & ?%is_empty_false & ?%is_empty_false
                        & ?%is_empty_false & _).
    by constructor.
Qed.

(** The remote parser, by the file name of the key. *)
Lemma remote_parse_some key p v o a :
  well_formed p v o a →
  Py.last_item (Py.split "/" None key) = archive_name p v o a →
  Remote.parse key = Some (Remote.mkArchive key (archive_name p v o a) p v o a).
Proof.
  intros Hwf Hf. unfold Remote.parse. rewrite Hf.
  rewrite (proj2 (endswith_iff _ _)) by (eexists; apply archive_name_stem).
  simpl.
  assert (Py.slice (archive_name p v o a) None (Some (-4)%Z)
          = p +:+ "_" +:+ v +:+ "_" +:+ o +:+ "_" +:+ a) as ->.
  { rewrite archive_name_stem. apply slice_zip. }
  rewrite !split_stem by done.
  by rewrite no_empty_part.
Qed.

Lemma remote_parse_inv key r :
  Remote.parse key = Some r →
  well_formed (Remote.provider r) (Remote.version r) (Remote.os r) (Remote.arch r) ∧
  Remote.key r = key ∧
  Remote.file_name r = Py.last_item (Py.split "/" None key) ∧
  Remote.file_name r
  = archive_name (Remote.provider r) (Remote.version r) (Remote.os r) (Remote.arch r).
Proof.
  unfold Remote.parse.
  set (f := Py.last_item (Py.split "/" None key)).
  destruct (Py.endswith f ".zip") eqn:Hzip; simpl; [|done].
  apply endswith_iff in Hzip as [w Hw]. rewrite Hw.
  rewrite !slice_zip.
  destruct (Py.split "_" (Some 3) w) as [|p [|v [|o [|a [|??]]]]] eqn:Hsplit; try done.
  destruct (existsb _ _) eqn:Hempty; [done|]. intros [= <-]. simpl.
  destruct (split_stem_inv _ _ _ _ _ Hsplit Hempty) as [-> Hwf].
  by rewrite archive_name_stem.
Qed.

(** The local parser computes what the remote one does. *)
Lemma local_parse_remote s :
  Local.parse s
  = (λ r, Local.mkArchive s (Remote.file_name r) (Remote.provider r)
            (Remote.version r) (Remote.os r) (Remote.arch r))
    <$> Remote.parse s.
Proof.
  unfold Local.parse, Remote.parse. rewrite basename_split.
  set (f := Py.last_item (Py.split "/" None s)).
  destruct (Py.endswith f ".zip") eqn:Hzip; simpl; [|done].
  apply endswith_iff in Hzip as [w Hw].
  destruct (last_item_split s) as [Hslash _]. fold f in Hslash.
  rewrite Hw in Hslash |- *. rewrite contains_app in Hslash.
  apply orb_false_iff in Hslash as [Hslash _].
  rewrite !slice_zip.
  destruct (splitext_zip w Hslash) as [-> | [-> Hu]].
  - destruct (Py.split "_" (Some 3) w) as [|p [|v [|o [|a [|??]]]]]; try done.
    by destruct (existsb _ _).
  - rewrite !split_no_sep; [done..|].
    rewrite contains_app, Hu. done.
Qed.

Lemma local_parse_some s p v o a :
  well_formed p v o a →
  Py.last_item (Py.split "/" None s) = archive_name p v o a →
  Local.parse s = Some (Local.mkArchive s (archive_name p v o a) p v o a).
Proof.
  intros Hwf Hf. by rewrite local_parse_remote, (remote_parse_some _ p v o a).
Qed.

Lemma local_parse_inv s r :
  Local.parse s = Some r →
  well_formed (Local.provider r) (Local.version r) (Local.os r) (Local.arch r) ∧
  Local.path r = s ∧
  Local.file_name r = Py.last_item (Py.split "/" None s) ∧
  Local.file_name r
  = archive_name (Local.provider r) (Local.version r) (Local.os r) (Local.arch r).
Proof.
  rewrite local_parse_remote.
  destruct (Remote.parse s) as [r'|] eqn:Hr; simpl; [|done].
  intros [= <-]. simpl. by destruct (remote_parse_inv _ _ Hr) as (? & ? & ? & ?).
Qed.

End parsers.

(** ** The claims on the parsers *)

(** C10: on every input string, the parser of the local program (with
    [os.path.basename] and [os.path.splitext]) and the parser of the remote
    program (split on ['/'], last four characters removed) agree: both
    return nothing, or both return records with the same file name, provider,
    version, os and arch (and the input itself as path or key). *)
Theorem parsers_agree (s : string) :
  match Local.parse s, Remote.parse s with
  | None, None => True
  | Some l, Some r =>
      Local.path l = s ∧ Remote.key r = s ∧
      Local.file_name l = Remote.file_name r ∧
      Local.provider l = Remote.provider r ∧
      Local.version l = Remote.version r ∧
      Local.os l = Remote.os r ∧
      Local.arch l = Remote.arch r
  | _, _ => False
  end.
Proof.
  rewrite local_parse_remote.
  destruct (Remote.parse s) as [r|] eqn:Hr; simpl; [|done].
  by destruct (remote_parse_inv _ _ Hr) as (_ & -> & _).
Qed.

(** C4, as the code has it: for every file name [{p}_{v}_{o}_{a}.zip] without
    ['/'] whose four parts are not empty and whose first three parts have no
    underscore (the last one may: [x86_64]), alone or under a directory prefix,
    both parsers return exactly [(p, v, o, a)] as provider, version, os and
    arch; on every input that is not of this shape both return nothing.  The
    parsers are total functions: they never raise. *)
Theorem parse_archive_name :
  (∀ dir p v o a,
     well_formed p v o a →
     Py.contains "/" (archive_name p v o a) = false →
     let f := archive_name p v o a in
     Local.parse (in_dir dir f) = Some (Local.mkArchive (in_dir dir f) f p v o a) ∧
     Remote.parse (in_dir dir f) = Some (Remote.mkArchive (in_dir dir f) f p v o a)) ∧
  (∀ s,
     ¬ (∃ dir p v o a,
          well_formed p v o a ∧
          Py.contains "/" (archive_name p v o a) = false ∧
          s = in_dir dir (archive_name p v o a)) →
     Local.parse s = None ∧ Remote.parse s = None).
Proof.
  split.
  - intros dir p v o a Hwf Hslash f.
    assert (Hlast : Py.last_item (Py.split "/" None (in_dir dir f)) = f).
    { destruct dir as [d|]; simpl.
      - by apply last_item_split_dir.
      - by rewrite split_no_sep. }
    split; [by apply local_parse_some | by apply remote_parse_some].
  - intros s Hshape.
    assert (Hr : Remote.parse s = None).
    { destruct (Remote.parse s) as [r|] eqn:Hr; [|done].
      destruct Hshape.
      destruct (remote_parse_inv _ _ Hr) as (Hwf & _ & Hlast & Hname).
      destruct (last_item_split s) as [Hslash Hdir].
      rewrite <- Hlast, Hname in Hslash, Hdir.
      destruct Hdir as [Hs | [d Hs]].
      - by exists None, (Remote.provider r), (Remote.version r), (Remote.os r),
          (Remote.arch r).
      - by exists (Some d), (Remote.provider r), (Remote.version r), (Remote.os r),
          (Remote.arch r). }
    split; [|done]. by rewrite local_parse_remote, Hr.
Qed.

Lemma parse_archive_name_witness :
  Local.parse "dist/terraform-provider-aws_3.55.0_linux_x86_64.zip"
  = Some (Local.mkArchive "dist/terraform-provider-aws_3.55.0_linux_x86_64.zip"
            "terraform-provider-aws_3.55.0_linux_x86_64.zip"
            "terraform-provider-aws" "3.55.0" "linux" "x86_64") ∧
  Remote.parse "pkg-1.0.0.zip" = None.
Proof.
  destruct parse_archive_name as [Hshape Hother]. split.
  - refine (proj1 (Hshape (Some "dist") "terraform-provider-aws" "3.55.0" "linux"
                     "x86_64" _ _)); [by constructor | reflexivity].
  - refine (proj2 (Hother "pkg-1.0.0.zip" _)).
    intros (dir & p & v & o & a & Hwf & Hslash & Hs).
    pose proof (proj2 (Hshape dir p v o a Hwf Hslash)) as Hparse.
    simpl in Hparse. rewrite <- Hs in Hparse. by vm_compute in Hparse.
Defined.

(** C4 as stated fails: a part before the last one that has an underscore is
    not recovered, and a name with more than four parts between underscores,
    such as the [x86_64] archives of the programs' own examples, is parsed:
    [a_b_c_d_e.zip] is not [{p}_{v}_{o}_{a}.zip] for any four parts without
    underscore, and is parsed as [(a, b, c, d_e)]. *)
Lemma parse_counterexample :
  archive_name "a_b" "c" "d" "e" = "a_b_c_d_e.zip" ∧
  Local.parse "a_b_c_d_e.zip"
  = Some (Local.mkArchive "a_b_c_d_e.zip" "a_b_c_d_e.zip" "a" "b" "c" "d_e") ∧
  Remote.parse "a_b_c_d_e.zip"
  = Some (Remote.mkArchive "a_b_c_d_e.zip" "a_b_c_d_e.zip" "a" "b" "c" "d_e") ∧
  ¬ (∀ p v o a,
       p ≠ EmptyString → v ≠ EmptyString → o ≠ EmptyString → a ≠ EmptyString →
       ∃ r, Local.parse (archive_name p v o a) = Some r ∧
            Local.provider r = p ∧ Local.version r = v ∧
            Local.os r = o ∧ Local.arch r = a) ∧
  ¬ (∀ p v o a,
       p ≠ EmptyString → v ≠ EmptyString → o ≠ EmptyString → a ≠ EmptyString →
       ∃ r, Remote.parse (archive_name p v o a) = Some r ∧
            Remote.provider r = p ∧ Remote.version r = v ∧
            Remote.os r = o ∧ Remote.arch r = a) ∧
  ¬ (∃ p v o a,
       well_formed p v o a ∧ Py.contains "_" a = false ∧
       archive_name p v o a = "a_b_c_d_e.zip").
Proof.
  split; [reflexivity|]. split; [reflexivity|]. split; [reflexivity|]. split_and!.
  - intros Hall. destruct (Hall "a_b" "c" "d" "e") as (r & Hr & Hp & _); try done.
    vm_compute in Hr. by injection Hr as <-.
  - intros Hall. destruct (Hall "a_b" "c" "d" "e") as (r & Hr & Hp & _); try done.
    vm_compute in Hr. by injection Hr as <-.
  - intros (p & v & o & a & Hwf & Ha & Hname).
    pose proof (remote_parse_some "a_b_c_d_e.zip" p v o a Hwf) as Hparse.
    rewrite Hname in Hparse. specialize (Hparse eq_refl).
    vm_compute in Hparse. injection Hparse as <- <- <- <-. discriminate.
Qed.

(** ** Reasoning on computations *)

Section post_rules.
Context (F : Prop).

Lemma post_ret {A} (a : A) w (Q : A → world → Prop) : Q a w → post F (mret a) w Q.
Proof. done. Qed.

Lemma post_bind {A B} (m : M A) (f : A → M B) w (Q : B → world → Prop) :
  post F m w (λ a w', post F (f a) w' Q) → post F (m ≫= f) w Q.
Proof.
  unfold post, mbind, M_bind. by destruct (m w) as [[a|e] w'].
Qed.

Lemma post_mono {A} (m : M A) w (Q Q' : A → world → Prop) :
  post F m w Q → (∀ a w', Q a w' → Q' a w') → post F m w Q'.
Proof. unfold post. destruct (m w) as [[a|e] w']; auto. Qed.

Lemma post_put obj body content_type w (Q : unit → world → Prop) :
  Q tt (put obj body content_type w).2 → post F (put obj body content_type) w Q.
Proof. done. Qed.

(** The rule of the loop: an invariant on the elements done so far. *)
Lemma post_foldM {A B} (body : B → A → M B) (Inv : list A → B → world → Prop)
    l acc w :
  Inv [] acc w →
  (∀ done x rest acc w,
     l = done ++ x :: rest → Inv done acc w →
     post F (body acc x) w (λ acc' w', Inv (done ++ [x]) acc' w')) →
  post F (foldM body acc l) w (Inv l).
Proof.
  intros Hinit Hstep.
  cut (∀ rest done acc w, l = done ++ rest → Inv done acc w →
                          post F (foldM body acc rest) w (Inv l)).
  { intros Hgen. by apply (Hgen l []). }
  induction rest as [|x rest IH]; intros done acc' w' Hl Hinv; simpl.
  - rewrite app_nil_r in Hl. by subst.
  - apply post_bind. eapply post_mono; [by eapply Hstep|].
    intros acc'' w'' Hinv'. apply (IH (done ++ [x])); [|done].
    by rewrite <- app_assoc.
Qed.

End post_rules.

Lemma post_partial {A} (m : M A) w (Q : A → world → Prop) :
  post True m w Q ↔ ∀ a w', m w = (Ok a, w') → Q a w'.
Proof.
  unfold post. destruct (m w) as [[a|e] w']; split; try done.
  - by intros HQ ?? [= <- <-].
  - auto.
Qed.

Lemma post_total {A} (m : M A) w (Q : A → world → Prop) :
  post False m w Q ↔ ∃ a w', m w = (Ok a, w') ∧ Q a w'.
Proof.
  unfold post. destruct (m w) as [[a|e] w']; split; try done.
  - eauto.
  - by intros (? & ? & [= <- <-] & ?).
  - by intros (? & ? & [=] & ?).
Qed.

(** ** Sorting, and the keys of a dict *)

Lemma elem_of_sorted l (x : string) : x ∈ sorted l ↔ x ∈ l.
Proof. unfold sorted. by rewrite merge_sort_Permutation. Qed.

Lemma elem_of_sorted_keys {V} (d : gmap string V) k :
  k ∈ sorted_keys d ↔ is_Some (d !! k).
Proof.
  unfold sorted_keys. rewrite elem_of_sorted, list_elem_of_fmap. split.
  - intros [[k' v] [-> Hkv%elem_of_map_to_list]]. by exists v.
  - intros [v Hv]. exists (k, v). by rewrite elem_of_map_to_list.
Qed.

Lemma puts_app l1 l2 : puts (l1 ++ l2) = puts l1 ++ puts l2.
Proof. apply List.filter_app. Qed.

Lemma copies_app l1 l2 : copies (l1 ++ l2) = copies l1 ++ copies l2.
Proof. apply List.filter_app. Qed.

Lemma puts_all_puts l : (∀ x, x ∈ l → is_put x = true) → puts l = l.
Proof.
  induction l as [|x l IH]; intros Hl; [done|]. unfold puts in *. simpl.
  rewrite (Hl x) by set_solver. f_equal. apply IH. intros y Hy. apply Hl. set_solver.
Qed.

Lemma copies_no_puts l : puts l = [] → copies l = l.
Proof.
  induction l as [|x l IH]; [done|]. unfold puts, copies in *. simpl.
  destruct (is_put x); [done|]. simpl. intros Hl. by rewrite IH.
Qed.

(** ** The loops of [main] *)

Section loops_agree.
Context {A : Type} `{Countable A}.
Context (sort : gset A → list A) (os_arch url_of : A → string).
Context (bucket out_prefix : string).
Implicit Types (h : A → string).

(** The documents depend on the fingerprints of their archives only. *)
Lemma version_data_of_ext h1 h2 l :
  (∀ a, a ∈ l → h1 a = h2 a) →
  version_data_of os_arch url_of h1 l = version_data_of os_arch url_of h2 l.
Proof.
  unfold version_data_of. generalize (∅ : gmap string entry).
  induction l as [|x l IH]; intros acc Hl; simpl; [done|].
  rewrite (Hl x) by set_solver. apply IH. intros a Ha. apply Hl. set_solver.
Qed.

Lemma version_data_of_snoc h l x :
  version_data_of os_arch url_of h (l ++ [x])
  = <[os_arch x := mkEntry [h x] (url_of x)]> (version_data_of os_arch url_of h l).
Proof. unfold version_data_of. by rewrite foldl_app. Qed.

Lemma index_data_of_snoc l v :
  index_data_of (l ++ [v]) = <[v := tt]> (index_data_of l).
Proof. unfold index_data_of. by rewrite foldl_app. Qed.

Lemma version_documents_ext h1 h2 (versions : gmap string (gset A)) l :
  (∀ a, a ∈ l → ∀ x, x ∈ sort (versions !!! a) → h1 x = h2 x) →
  version_documents sort os_arch url_of bucket out_prefix h1 versions l
  = version_documents sort os_arch url_of bucket out_prefix h2 versions l.
Proof.
  intros Hl. unfold version_documents. apply list_fmap_ext.
  intros i v Hv%list_elem_of_lookup_2. unfold version_document.
  by rewrite (version_data_of_ext h1 h2) by eauto.
Qed.

Lemma provider_documents_ext h1 h2 (versions : gmap string (gset A)) :
  (∀ v, v ∈ sorted_keys versions → ∀ x, x ∈ sort (versions !!! v) → h1 x = h2 x) →
  provider_documents sort os_arch url_of bucket out_prefix h1 versions
  = provider_documents sort os_arch url_of bucket out_prefix h2 versions.
Proof.
  intros Hv. unfold provider_documents. by rewrite (version_documents_ext h1 h2).
Qed.

Lemma documents_ext h1 h2 (pv : gmap string (gmap string (gset A))) l :
  (∀ p, p ∈ l → ∀ v, v ∈ sorted_keys (pv !!! p) →
        ∀ x, x ∈ sort ((pv !!! p) !!! v) → h1 x = h2 x) →
  documents sort os_arch url_of bucket out_prefix h1 pv l
  = documents sort os_arch url_of bucket out_prefix h2 pv l.
Proof.
  intros Hl. unfold documents. f_equal. apply list_fmap_ext.
  intros i p Hp%list_elem_of_lookup_2. apply provider_documents_ext. eauto.
Qed.

Lemma documents_snoc h (pv : gmap string (gmap string (gset A))) l p :
  documents sort os_arch url_of bucket out_prefix h pv (l ++ [p])
  = documents sort os_arch url_of bucket out_prefix h pv l
    ++ provider_documents sort os_arch url_of bucket out_prefix h (pv !!! p).
Proof.
  unfold documents. rewrite fmap_app, concat_app. simpl. by rewrite app_nil_r.
Qed.

Lemma puts_version_documents h (versions : gmap string (gset A)) l :
  puts (version_documents sort os_arch url_of bucket out_prefix h versions l)
  = version_documents sort os_arch url_of bucket out_prefix h versions l.
Proof.
  apply puts_all_puts. unfold version_documents.
  by intros x (v & -> & _)%list_elem_of_fmap.
Qed.

Lemma puts_provider_documents h (versions : gmap string (gset A)) :
  puts (provider_documents sort os_arch url_of bucket out_prefix h versions)
  = provider_documents sort os_arch url_of bucket out_prefix h versions.
Proof.
  unfold provider_documents. by rewrite puts_app, puts_version_documents.
Qed.

End loops_agree.

Lemma elem_of_snoc_l {A} (l : list A) x a : a ∈ l → a ∈ l ++ [x].
Proof. intros. apply elem_of_app. by left. Qed.

Lemma elem_of_snoc_r {A} (l : list A) x : x ∈ l ++ [x].
Proof. apply elem_of_app. right. by apply list_elem_of_singleton. Qed.

Lemma elem_of_snoc_mid {A} (done rest : list A) x a :
  a ∈ done ++ [x] → a ∈ done ++ x :: rest.
Proof.
  intros [?| ->%list_elem_of_singleton]%elem_of_app; apply elem_of_app;
    [by left | right; by left].
Qed.

(** The loops, under a specification of the copy step.  The step is run on the
    archives in [scope] from worlds that satisfy [pre]; it returns the
    fingerprint [hash w' a] of the archive and leaves it [synced]; worlds only
    move along [ext], which preserves [synced], [skips] and the fingerprints of
    synced archives; an archive that [skips] in a world issues no write. *)
Section loops_spec.
Context {A : Type} `{Countable A}.
Context (sort : gset A → list A) (os_arch url_of : A → string).
Context (bucket out_prefix : string).
Context (copy : A → M (string * bool)).
Context (F : Prop) (pre : world → Prop) (scope : A → Prop).
Context (hash : world → A → string) (synced skips : A → world → Prop).
Context (ext : world → world → Prop).

Hypothesis sort_elements : ∀ s a, a ∈ sort s ↔ a ∈ s.
Hypothesis ext_refl : ∀ w, ext w w.
Hypothesis ext_trans : ∀ w1 w2 w3, ext w1 w2 → ext w2 w3 → ext w1 w3.
Hypothesis pre_ext : ∀ w w', pre w → ext w w' → pre w'.
Hypothesis synced_ext :
  ∀ a w w', scope a → synced a w → ext w w' → synced a w' ∧ hash w' a = hash w a.
Hypothesis skips_ext : ∀ a w w', scope a → skips a w → ext w w' → skips a w'.
Hypothesis copy_spec :
  ∀ a w, scope a → pre w →
    post F (copy a) w (λ hc w',
      hc.1 = hash w' a ∧ synced a w' ∧ ext w w' ∧
      ∃ new, writes w' = writes w ++ new ∧ puts new = [] ∧ (skips a w → new = [])).
Hypothesis put_ext :
  ∀ name body content_type w,
    ext w (put (bucket, out_prefix +:+ name +:+ ".json") body content_type w).2.

Local Abbreviation vdata := (version_data_of os_arch url_of).
Local Abbreviation vdocs :=
  (version_documents sort os_arch url_of bucket out_prefix).
Local Abbreviation docs := (documents sort os_arch url_of bucket out_prefix).

Lemma loop_archives_spec (s : gset A) w :
  (∀ a, a ∈ s → scope a) → pre w →
  post F (loop_archives sort os_arch url_of copy s) w (λ vd w',
    vd = vdata (hash w') (sort s) ∧ pre w' ∧ ext w w' ∧
    (∀ a, a ∈ s → synced a w') ∧
    ∃ new, writes w' = writes w ++ new ∧ puts new = [] ∧
           ((∀ a, a ∈ s → skips a w) → new = [])).
Proof.
  intros Hscope Hpre. unfold loop_archives.
  eapply post_mono.
  { apply (post_foldM F _ (λ done vd w',
      vd = vdata (hash w') done ∧ pre w' ∧ ext w w' ∧
      (∀ a, a ∈ done → synced a w') ∧
      ∃ new, writes w' = writes w ++ new ∧ puts new = [] ∧
             ((∀ a, a ∈ s → skips a w) → new = []))).
    - split_and!; [done..| |]; [by intros a ?%elem_of_nil|].
      exists []. by rewrite app_nil_r.
    - intros done x rest vd w1 Hl (-> & Hpre1 & Hext1 & Hsync & new1 & Hw1 & Hp1 & Hs1).
      assert (Hin : ∀ a, a ∈ done ++ [x] → a ∈ s).
      { intros a Ha. apply sort_elements. rewrite Hl. by apply elem_of_snoc_mid. }
      apply post_bind. eapply post_mono; [apply copy_spec; [|done]|].
      { apply Hscope, Hin, elem_of_snoc_r. }
      intros hc w2 (Hhc & Hx & Hext2 & new2 & Hw2 & Hp2 & Hs2). apply post_ret.
      split_and!.
      + rewrite version_data_of_snoc, Hhc. f_equal.
        apply version_data_of_ext. intros a Ha.
        symmetry. eapply synced_ext; [|by apply Hsync|done].
        by apply Hscope, Hin, elem_of_snoc_l.
      + by eapply pre_ext.
      + by eapply ext_trans.
      + intros a [Ha| ->%list_elem_of_singleton]%elem_of_app; [|done].
        eapply synced_ext; [|by apply Hsync|done].
        by apply Hscope, Hin, elem_of_snoc_l.
      + exists (new1 ++ new2). rewrite Hw2, Hw1, puts_app, Hp1, Hp2, app_assoc.
        split_and!; [done..|]. intros Hskip. rewrite (Hs1 Hskip), Hs2; [done|].
        assert (x ∈ s) by apply Hin, elem_of_snoc_r.
        eapply skips_ext; eauto. }
  intros vd w' (-> & ? & ? & Hsync & Hnew). split_and!; try done.
  intros a Ha. by apply Hsync, sort_elements.
Qed.

Lemma loop_versions_spec (versions : gmap string (gset A)) w :
  (∀ v a, a ∈ versions !!! v → scope a) → pre w →
  post F (loop_versions sort os_arch url_of bucket out_prefix copy versions) w
    (λ index_data w',
      index_data = index_data_of (sorted_keys versions) ∧ pre w' ∧ ext w w' ∧
      (∀ v a, v ∈ sorted_keys versions → a ∈ versions !!! v → synced a w') ∧
      ∃ new, writes w' = writes w ++ new ∧
             puts new = vdocs (hash w') versions (sorted_keys versions) ∧
             ((∀ a, scope a → skips a w) → copies new = [])).
Proof.
  intros Hscope Hpre. unfold loop_versions.
  apply (post_foldM F _ (λ done index_data w',
    index_data = index_data_of done ∧ pre w' ∧ ext w w' ∧
    (∀ v a, v ∈ done → a ∈ versions !!! v → synced a w') ∧
    ∃ new, writes w' = writes w ++ new ∧
           puts new = vdocs (hash w') versions done ∧
           ((∀ a, scope a → skips a w) → copies new = []))).
  - split_and!; [done..| |]; [by intros v a ?%elem_of_nil|].
    exists []. by rewrite app_nil_r.
  - intros done v rest idx w1 Hl (-> & Hpre1 & Hext1 & Hsync & new1 & Hw1 & Hp1 & Hs1).
    apply post_bind.
    eapply post_mono; [apply loop_archives_spec; [by eauto|done]|].
    intros vd w2 (-> & Hpre2 & Hext2 & Hsync2 & new2 & Hw2 & Hp2 & Hs2).
    apply post_bind, post_put, post_ret.
    set (w3 := (put _ _ _ w2).2).
    assert (Hext3 : ext w2 w3) by apply put_ext.
    assert (Hext13 : ext w1 w3) by by eapply ext_trans.
    split_and!.
    + by rewrite index_data_of_snoc.
    + by eapply pre_ext.
    + by eapply ext_trans.
    + intros v' a [Hv| ->%list_elem_of_singleton]%elem_of_app Ha.
      * eapply synced_ext; [by eauto|by eapply Hsync|done].
      * eapply synced_ext; [by eauto|by eapply Hsync2|done].
    + eexists (new1 ++ new2 ++ [_]). split_and!.
      * simpl. by rewrite Hw2, Hw1, <- !app_assoc.
      * rewrite !puts_app, Hp1, Hp2. simpl.
        unfold version_documents.
        rewrite fmap_app. simpl. f_equal.
        -- apply (version_documents_ext sort os_arch url_of bucket out_prefix).
           intros v' Hv' a Ha%sort_elements. symmetry.
           eapply synced_ext; [by eauto|by eapply Hsync|done].
        -- unfold version_document. do 4 f_equal.
           apply version_data_of_ext. intros a Ha%sort_elements.
           symmetry. eapply synced_ext; [by eauto|by apply Hsync2|done].
      * intros Hskip. rewrite !copies_app, (Hs1 Hskip). simpl.
        rewrite Hs2; [done|]. intros a Ha. eapply skips_ext; eauto.
Qed.

Lemma grouped_keys (pv : gmap string (gmap string (gset A))) p v a :
  a ∈ (pv !!! p) !!! v →
  p ∈ sorted_keys pv ∧ v ∈ sorted_keys (pv !!! p).
Proof.
  rewrite !elem_of_sorted_keys, !lookup_total_alt.
  destruct (pv !! p) as [versions|]; simpl.
  - destruct (versions !! v); simpl; [by eauto|]. by intros ?%elem_of_empty.
  - rewrite lookup_empty. simpl. by intros ?%elem_of_empty.
Qed.

Lemma loop_providers_spec (pv : gmap string (gmap string (gset A))) w :
  (∀ a, grouped pv a → scope a) → pre w →
  post F (loop_providers sort os_arch url_of bucket out_prefix copy pv) w
    (λ _ w',
      pre w' ∧ ext w w' ∧ (∀ a, grouped pv a → synced a w') ∧
      ∃ new, writes w' = writes w ++ new ∧
             puts new = docs (hash w') pv (sorted_keys pv) ∧
             ((∀ a, scope a → skips a w) → copies new = [])).
Proof.
  intros Hscope Hpre. unfold loop_providers, for_each.
  eapply post_mono.
  { apply (post_foldM F _ (λ done (_ : unit) w',
      pre w' ∧ ext w w' ∧
      (∀ p v a, p ∈ done → a ∈ (pv !!! p) !!! v → synced a w') ∧
      ∃ new, writes w' = writes w ++ new ∧
             puts new = docs (hash w') pv done ∧
             ((∀ a, scope a → skips a w) → copies new = []))).
    - split_and!; [done..| |]; [by intros p v a ?%elem_of_nil|].
      exists []. by rewrite app_nil_r.
    - intros done p rest [] w1 Hl (Hpre1 & Hext1 & Hsync & new1 & Hw1 & Hp1 & Hs1).
      assert (Hsc : ∀ p v a, a ∈ (pv !!! p) !!! v → scope a).
      { intros p' v a Ha. apply Hscope. by exists p', v. }
      apply post_bind.
      eapply post_mono; [apply loop_versions_spec; [by eauto|done]|].
      intros idx w2 (-> & Hpre2 & Hext2 & Hsync2 & new2 & Hw2 & Hp2 & Hs2).
      apply post_put.
      set (w3 := (put _ _ _ w2).2).
      assert (Hext3 : ext w2 w3) by apply (put_ext "index").
      assert (Hext13 : ext w1 w3) by by eapply ext_trans.
      split_and!.
      + by eapply pre_ext.
      + by eapply ext_trans.
      + intros p' v a [Hp'| ->%list_elem_of_singleton]%elem_of_app Ha.
        * eapply synced_ext; [by eauto|by eapply Hsync|done].
        * eapply (synced_ext a w2 w3); [by eauto| |done].
          eapply Hsync2; [|done]. exact (proj2 (grouped_keys _ _ _ _ Ha)).
      + eexists (new1 ++ new2 ++ [_]). split_and!.
        * simpl. by rewrite Hw2, Hw1, <- !app_assoc.
        * rewrite !puts_app, Hp1, Hp2. simpl.
          rewrite documents_snoc. f_equal.
          -- apply documents_ext. intros p' Hp' v _ a Ha%sort_elements.
             symmetry. eapply synced_ext; [by eauto|by eapply Hsync|done].
          -- unfold provider_documents. f_equal.
             apply version_documents_ext. intros v Hv a Ha%sort_elements.
             symmetry. eapply synced_ext; [by eauto|by eapply Hsync2|done].
        * intros Hskip. rewrite !copies_app, (Hs1 Hskip). simpl.
          rewrite Hs2; [done|]. intros a Ha. eapply skips_ext; eauto. }
  intros [] w' (? & ? & Hsync & Hnew). split_and!; try done.
  intros a (p & v & Ha). eapply Hsync; [|done].
  exact (proj1 (grouped_keys _ _ _ _ Ha)).
Qed.

End loops_spec.

(** ** The existence check, the fingerprint and the copy step *)

Section copy_step.
Context (E : environment).
Implicit Types (w : world) (obj : string * string).

Lemma object_exists_eq obj w :
  object_exists E obj w
  = match object_error E obj with
    | Some code =>
        if String.eqb code "404" then (Ok None, w)
        else (Raise (ClientError code), w)
    | None => (Ok (s3 w !! obj), w)
    end.
Proof.
  unfold object_exists, try_except_ClientError, load, fetch, mbind, M_bind.
  destruct (object_error E obj) as [code|].
  - by destruct (String.eqb code "404").
  - by destruct (s3 w !! obj).
Qed.

Lemma object_exists_world obj w r w' : object_exists E obj w = (r, w') → w' = w.
Proof.
  rewrite object_exists_eq.
  destruct (object_error E obj) as [code|]; [destruct (String.eqb code "404")|];
    by intros [= _ <-].
Qed.

(** The local copy step, by the outcome of its two requests. *)
Lemma local_copy_archive_eq path obj w :
  Local.copy_archive E path obj w
  = match dirhash_of (dirhasher E path) with
    | Raise e => (Raise e, w)
    | Ok h1 =>
        match object_exists E obj w with
        | (Raise e, w') => (Raise e, w')
        | (Ok existing, w') =>
            if bool_decide (stored_fingerprint existing = Some h1)
            then (Ok (h1, false), w')
            else (Ok (h1, true),
                  mkWorld
                    (<[obj := mkObject (local_file E path) {[DIRHASH_METADATA := h1]}]>
                       (s3 w'))
                    (writes w' ++ [UploadFile obj.1 obj.2 path "application/zip"
                                     {[DIRHASH_METADATA := h1]}]))
        end
    end.
Proof.
  unfold Local.copy_archive, Local.dirhash, lift, mbind, M_bind.
  destruct (dirhash_of _) as [h1|e]; [|done].
  destruct (object_exists E obj w) as [[existing|e] w']; [|done].
  destruct existing as [o|]; simpl; [|done].
  by destruct (bool_decide _).
Qed.

(** The remote copy step, likewise. *)
Lemma remote_copy_archive_eq rel_obj obj w :
  Remote.copy_archive E rel_obj obj w
  = match object_exists E obj w with
    | (Raise e, w') => (Raise e, w')
    | (Ok existing, w') =>
        match cached_fingerprint existing with
        | Some h => (Ok (h, false), w')
        | None =>
            match fetch E rel_obj w' with
            | (Raise e, w'') => (Raise e, w'')
            | (Ok src, w'') =>
                match dirhash_of (dirhasher E (body src)) with
                | Raise e => (Raise e, w'')
                | Ok h1 =>
                    (Ok (h1, true),
                     mkWorld
                       (<[obj := mkObject (body src)
                                   (<[DIRHASH_METADATA := h1]> (metadata src))]>
                          (s3 w''))
                       (writes w'' ++ [CopyFrom obj.1 obj.2 rel_obj.1 rel_obj.2
                                         (<[DIRHASH_METADATA := h1]> (metadata src))]))
                end
            end
        end
    end.
Proof.
  unfold Remote.copy_archive, mbind, M_bind.
  destruct (object_exists E obj w) as [[existing|e] w']; [|done].
  assert (Hcached :
    match existing with
    | Some o =>
        match metadata o !! DIRHASH_METADATA with
        | Some h => if Py.truthy h then Some h else None
        | None => None
        end
    | None => None
    end = cached_fingerprint existing).
  { destruct existing as [o|]; [|done]. unfold cached_fingerprint. simpl.
    by destruct (metadata o !! DIRHASH_METADATA). }
  rewrite Hcached. destruct (cached_fingerprint existing) as [h|]; [done|].
  unfold Remote.dirhash, load, lift, mbind, M_bind.
  destruct (fetch E rel_obj w') as [[src|e] w''] eqn:Hfetch; [|done].
  assert (w'' = w') as ->.
  { unfold fetch in Hfetch. destruct (object_error E rel_obj); [by injection Hfetch|].
    destruct (s3 w' !! rel_obj); by injection Hfetch. }
  destruct (dirhash_of _) as [h1|e]; [|done].
  rewrite Hfetch. unfold copy_from.
  assert (s3 w' !! rel_obj = Some src) as ->; [|done].
  unfold fetch in Hfetch. destruct (object_error E rel_obj); [done|].
  destruct (s3 w' !! rel_obj) as [o|]; [|done]. by injection Hfetch as ->.
Qed.

End copy_step.

(** ** Grouping *)

Section grouping_facts.
Context {A : Type} `{Countable A} (provider version : A → string).
Context (parse : string → option A).
Implicit Types (pv : gmap string (gmap string (gset A))) (a x : A).

Local Abbreviation add := (add_archive provider version).
Local Abbreviation gather_from :=
  (foldl (λ pv key, match parse key with
                    | Some archive => add pv archive
                    | None => pv
                    end)).

Lemma lookup_total_versions pv p : pv !!! p = default ∅ (pv !! p).
Proof. by rewrite lookup_total_alt. Qed.

Lemma lookup_total_archives (versions : gmap string (gset A)) v :
  versions !!! v = default ∅ (versions !! v).
Proof. by rewrite lookup_total_alt. Qed.

Lemma elem_of_add_archive pv x a p v :
  a ∈ (add pv x !!! p) !!! v
  ↔ a ∈ (pv !!! p) !!! v ∨ (a = x ∧ p = provider x ∧ v = version x).
Proof.
  unfold add_archive.
  rewrite <- !lookup_total_versions, <- !lookup_total_archives.
  destruct (decide (p = provider x)) as [->|Hp].
  - rewrite lookup_total_insert_eq.
    destruct (decide (v = version x)) as [->|Hv].
    + rewrite lookup_total_insert_eq, elem_of_union, elem_of_singleton. naive_solver.
    + rewrite lookup_total_insert_ne by done. naive_solver.
  - rewrite lookup_total_insert_ne by done. naive_solver.
Qed.

Lemma elem_of_gather_from l pv a p v :
  a ∈ (gather_from pv l !!! p) !!! v
  ↔ a ∈ (pv !!! p) !!! v
    ∨ ∃ key, key ∈ l ∧ parse key = Some a ∧ p = provider a ∧ v = version a.
Proof.
  revert pv. induction l as [|key l IH]; intros pv; simpl.
  - split; [by left|]. intros [?|(? & ?%elem_of_nil & _)]; done.
  - rewrite IH. destruct (parse key) as [x|] eqn:Hkey.
    + rewrite elem_of_add_archive. split.
      * intros [[?|(-> & -> & ->)]|(k & ? & ?)]; [by left|right..].
        -- exists key. split_and!; [left|done..].
        -- exists k. split; [by right|done].
      * intros [?|(k & [->|?]%elem_of_cons & Hk & -> & ->)]; [by left; left| |].
        -- rewrite Hkey in Hk. injection Hk as ->. left. by right.
        -- right. by exists k.
    + split.
      * intros [?|(k & ? & ?)]; [by left|]. right. exists k. split; [by right|done].
      * intros [?|(k & [->|?]%elem_of_cons & Hk & ?)]; [by left|congruence|].
        right. by exists k.
Qed.

Lemma add_archive_comm pv x y : add (add pv x) y = add (add pv y) x.
Proof.
  unfold add_archive.
  destruct (decide (provider x = provider y)) as [Hp|Hp].
  - rewrite <- Hp, !lookup_insert_eq, !insert_insert_eq. simpl. f_equal.
    destruct (decide (version x = version y)) as [Hv|Hv].
    + rewrite <- Hv, !lookup_insert_eq, !insert_insert_eq. simpl. f_equal.
      set_solver.
    + rewrite !lookup_insert_ne by done. by apply insert_insert_ne.
  - rewrite !lookup_insert_ne by done. by apply insert_insert_ne.
Qed.

Lemma add_archive_idemp pv x : add (add pv x) x = add pv x.
Proof.
  unfold add_archive.
  rewrite !lookup_insert_eq, !insert_insert_eq. simpl.
  rewrite !lookup_insert_eq, !insert_insert_eq. simpl. do 2 f_equal. set_solver.
Qed.

Local Abbreviation step :=
  (λ pv key, match parse key with
             | Some archive => add pv archive
             | None => pv
             end).

Lemma gather_step_comm pv k1 k2 : step (step pv k1) k2 = step (step pv k2) k1.
Proof.
  simpl. destruct (parse k1), (parse k2); try done. apply add_archive_comm.
Qed.

Lemma gather_step_idemp pv k : step (step pv k) k = step pv k.
Proof. simpl. destruct (parse k); [apply add_archive_idemp|done]. Qed.

Lemma gather_from_step pv l k :
  gather_from (step pv k) l = step (gather_from pv l) k.
Proof.
  revert pv. induction l as [|k' l IH]; intros pv; [done|].
  cbn [foldl]. rewrite <- IH. f_equal. apply gather_step_comm.
Qed.

(** A key that occurs again is absorbed. *)
Lemma gather_from_absorb pv l k :
  k ∈ l → gather_from (step pv k) l = gather_from pv l.
Proof.
  revert pv. induction l as [|k' l IH]; intros pv; [by intros ?%elem_of_nil|].
  intros [->|Hk]%elem_of_cons; cbn [foldl].
  - by rewrite gather_step_idemp.
  - rewrite gather_step_comm. by apply IH.
Qed.

Lemma gather_from_remove_dups pv l :
  gather_from pv (remove_dups l) = gather_from pv l.
Proof.
  revert pv. induction l as [|k l IH]; intros pv; [done|]. simpl.
  destruct (decide_rel elem_of k l) as [Hk|Hk]; cbn [foldl].
  - rewrite IH. symmetry. by apply gather_from_absorb.
  - apply IH.
Qed.

Lemma gather_from_permutation pv l1 l2 :
  l1 ≡ₚ l2 → gather_from pv l1 = gather_from pv l2.
Proof.
  intros Hl. revert pv. induction Hl as [|k l1 l2 _ IH|k1 k2 l|l1 l2 l3 _ IH1 _ IH2];
    intros pv; cbn [foldl].
  - done.
  - apply IH.
  - f_equal. apply gather_step_comm.
  - by rewrite IH1.
Qed.

(** The grouping depends on the set of the keys only, not on their order
    nor on their repetitions. *)
Lemma gather_from_same_elements pv l1 l2 :
  (∀ k, k ∈ l1 ↔ k ∈ l2) → gather_from pv l1 = gather_from pv l2.
Proof.
  intros Hl.
  rewrite <- (gather_from_remove_dups pv l1), <- (gather_from_remove_dups pv l2).
  apply gather_from_permutation, NoDup_Permutation; [apply NoDup_remove_dups..|].
  intros k. by rewrite !elem_of_remove_dups.
Qed.

End grouping_facts.

(** ** The local program *)

Lemma str_drop_app_ge (x y : string) n :
  Py.drop (String.length x + n) (x +:+ y) = Py.drop n y.
Proof. induction x as [|a x IH]; str_simpl; [done|apply IH]. Qed.

(** The key of an archive is not the key of a document. *)
Lemma zip_not_json (x y : string) : x +:+ ".zip" ≠ y +:+ ".json".
Proof.
  intros Heq.
  assert (Hzip : Py.endswith (y +:+ ".json") ".zip" = true).
  { apply endswith_iff. by exists x. }
  unfold Py.endswith in Hzip. apply andb_true_iff in Hzip as [_ Hzip].
  rewrite str_length_app in Hzip. simpl in Hzip.
  replace (String.length y + 5 - 4) with (String.length y + 1) in Hzip by lia.
  by rewrite str_drop_app_ge in Hzip.
Qed.

Lemma local_sorted_archives_elem (s : gset Local.Archive) a :
  a ∈ Local.sorted_archives s ↔ a ∈ s.
Proof. unfold Local.sorted_archives. by rewrite merge_sort_Permutation, elem_of_elements. Qed.

Lemma local_sync_providers_loops E bucket out_prefix pv :
  Local.sync_providers E bucket out_prefix pv
  = loop_providers Local.sorted_archives Local.os_arch Local.file_name
      bucket out_prefix
      (λ a, Local.copy_archive E (Local.path a) (local_mirror_obj bucket out_prefix a))
      pv.
Proof. reflexivity. Qed.

Lemma local_gather_parsed paths a :
  grouped (Local.gather paths) a ↔ ∃ p, p ∈ paths ∧ Local.parse p = Some a.
Proof.
  unfold grouped, Local.gather. split.
  - intros (p & v & Ha). apply elem_of_gather_from in Ha as [Ha|(k & ? & ? & _)].
    + rewrite lookup_total_versions, lookup_empty in Ha. simpl in Ha.
      rewrite lookup_total_archives, lookup_empty in Ha. by apply elem_of_empty in Ha.
    + by exists k.
  - intros (k & Hk & Ha). exists (Local.provider a), (Local.version a).
    apply elem_of_gather_from. right. by exists k.
Qed.

Lemma local_gather_zip paths a :
  grouped (Local.gather paths) a → ∃ stem, Local.file_name a = stem +:+ ".zip".
Proof.
  intros (p & _ & Hp)%local_gather_parsed.
  destruct (local_parse_inv _ _ Hp) as (_ & _ & _ & ->).
  eexists. apply archive_name_stem.
Qed.

Section local_run.
Context (E : environment) (bucket out_prefix : string).
Context (pv : gmap string (gmap string (gset Local.Archive))).
Context (F : Prop).

Local Abbreviation obj_of := (local_mirror_obj bucket out_prefix).
Local Abbreviation fp := (local_fingerprint E).
Local Abbreviation docs :=
  (documents Local.sorted_archives Local.os_arch Local.file_name bucket out_prefix).
Local Abbreviation ok := (local_ok E bucket out_prefix).
Local Abbreviation synced := (local_synced E bucket out_prefix).

Hypothesis requests_ok : F ∨ ∀ a, grouped pv a → ok a.

Lemma local_copy_spec a w :
  grouped pv a →
  post F (Local.copy_archive E (Local.path a) (obj_of a)) w (λ hc w',
    hc.1 = fp a ∧ ok a ∧
    ∃ new, writes w' = writes w ++ new ∧ puts new = [] ∧
      (synced a w → w' = w) ∧
      (¬ synced a w →
       s3 w' = <[obj_of a := mkObject (local_file E (Local.path a))
                               {[DIRHASH_METADATA := fp a]}]> (s3 w))).
Proof.
  intros Ha. unfold post. rewrite local_copy_archive_eq, object_exists_eq.
  unfold local_synced, local_fingerprint.
  destruct (dirhash_of (dirhasher E (Local.path a))) as [h1|e] eqn:Hh.
  2:{ destruct requests_ok as [?|Hok]; [done|].
      destruct (Hok a Ha) as [[h Hh'] _]. congruence. }
  destruct (object_error E (obj_of a)) as [code|] eqn:Herr.
  - destruct (String.eqb_spec code "404") as [->|Hcode].
    + rewrite bool_decide_eq_false_2 by done. simpl.
      split_and!; [done| |].
      { split; [by eexists|]. intros c. rewrite Herr. by intros [= <-]. }
      eexists [_]. split_and!; try done. by intros (_ & ? & _).
    + destruct requests_ok as [?|Hok]; [done|].
      destruct (Hok a Ha) as [_ Hcode']. by destruct Hcode, (Hcode' code).
  - assert (Hoka : ok a).
    { split; [by eexists|]. intros c. by rewrite Herr. }
    case_bool_decide as Hstored; simpl.
    + split_and!; [done..|]. exists []. rewrite app_nil_r.
      split_and!; try done. intros []. by split_and!; [eexists|..].
    + split_and!; [done..|]. eexists [_]. split_and!; try done.
      by intros (_ & _ & ?).
Qed.

(** The documents of a run of the loops, from any store. *)
Lemma local_loops_documents w :
  post F (Local.sync_providers E bucket out_prefix pv) w (λ _ w',
    (∀ a, grouped pv a → ok a) ∧
    ∃ new, writes w' = writes w ++ new ∧
           puts new = docs fp pv (sorted_keys pv)).
Proof.
  rewrite local_sync_providers_loops.
  eapply post_mono.
  { apply (loop_providers_spec Local.sorted_archives Local.os_arch Local.file_name
             bucket out_prefix _ F (λ _, True) (grouped pv) (λ _, fp)
             (λ a _, ok a) (λ _ _, False) (λ _ _, True)); try done.
    - apply local_sorted_archives_elem.
    - intros a w1 Ha _. eapply post_mono; [by apply local_copy_spec|].
      intros hc w2 (? & ? & new & ? & ? & _). split_and!; try done.
      by exists new. }
  intros [] w' (_ & _ & Hok & new & ? & ? & _). split; [done|]. by exists new.
Qed.

(** The store after a run of the loops, when the archives that share a file
    name have the same fingerprint. *)
Hypothesis truthful : ∀ obj, object_error E obj ≠ Some "404".
Hypothesis same_name_same_fingerprint :
  ∀ a b, grouped pv a → grouped pv b →
         Local.file_name a = Local.file_name b → fp a = fp b.
Hypothesis zip_names :
  ∀ a, grouped pv a → ∃ stem, Local.file_name a = stem +:+ ".zip".

Lemma local_loops_store w :
  post F (Local.sync_providers E bucket out_prefix pv) w (λ _ w',
    (∀ a, grouped pv a → synced a w') ∧
    ∃ new, writes w' = writes w ++ new ∧
           puts new = docs fp pv (sorted_keys pv) ∧
           ((∀ a, grouped pv a → synced a w) → copies new = [])).
Proof.
  rewrite local_sync_providers_loops.
  set (ext := λ w1 w2 : world, ∀ a, grouped pv a →
         stored_fingerprint (s3 w1 !! obj_of a) = Some (fp a) →
         stored_fingerprint (s3 w2 !! obj_of a) = Some (fp a)).
  eapply post_mono.
  { apply (loop_providers_spec Local.sorted_archives Local.os_arch Local.file_name
             bucket out_prefix _ F (λ _, True) (grouped pv) (λ _, fp)
             synced synced ext); try done.
    - apply local_sorted_archives_elem.
    - by intros w1 a Ha.
    - intros w1 w2 w3 H12 H23 a Ha Hs. by apply H23, H12.
    - intros a w1 w2 Ha (Hh & Herr & Hs) Hext. split; [|done].
      split_and!; [done..|]. by apply Hext.
    - intros a w1 w2 Ha (Hh & Herr & Hs) Hext. split_and!; [done..|]. by apply Hext.
    - intros a w1 Ha _. eapply post_mono; [by apply local_copy_spec|].
      intros hc w2 (Hhc & [Hh Hcode] & new & Hw & Hp & Hskip & Hcopy).
      assert (Herr' : object_error E (obj_of a) = None).
      { destruct (object_error E (obj_of a)) as [code|] eqn:Hc; [|done].
        rewrite (Hcode code eq_refl) in Hc. by destruct (truthful (obj_of a)). }
      destruct (decide (stored_fingerprint (s3 w1 !! obj_of a) = Some (fp a)))
        as [Hs|Hs].
      + assert (Hsa : synced a w1) by done.
        rewrite (Hskip Hsa) in *. split_and!; [done..|by intros ???|].
        exists new. split_and!; [done..|]. intros _.
        rewrite <- (app_nil_r (writes w1)) in Hw at 1. by apply app_inv_head in Hw.
      + assert (Hsa : ¬ synced a w1) by by intros (_ & _ & ?).
        specialize (Hcopy Hsa).
        split_and!; [done| | |].
        * split_and!; [done..|]. by rewrite Hcopy, lookup_insert_eq.
        * intros b Hb Hsb. rewrite Hcopy.
          destruct (decide (obj_of a = obj_of b)) as [Heq|Hne].
          -- rewrite <- Heq, lookup_insert_eq. simpl. rewrite lookup_singleton_eq.
             f_equal. apply same_name_same_fingerprint; [done..|].
             injection Heq as Heq. by apply (inj (String.app out_prefix)) in Heq.
          -- by rewrite lookup_insert_ne.
        * exists new. split_and!; [done..|]. by intros (_ & _ & ?).
    - intros name body ct w1 a Ha Hs. simpl.
      rewrite lookup_insert_ne; [done|].
      destruct (zip_names a Ha) as [stem Hstem]. unfold local_mirror_obj.
      rewrite Hstem. intros [= Heq%(inj (String.app out_prefix))].
      by eapply zip_not_json. }
  intros [] w' (_ & _ & Hsync & new & ? & ? & Hcopies).
  split; [done|]. exists new. split_and!; [done..|]. intros Hs. by apply Hcopies.
Qed.

End local_run.

(** ** The shape of the documents of a run *)

Section loops_shape.
Context {A : Type} `{Countable A}.
Context (sort : gset A → list A) (os_arch url_of : A → string).
Context (bucket out_prefix : string).
Context (copy : A → M (string * bool)).

Hypothesis sort_elements : ∀ s a, a ∈ sort s ↔ a ∈ s.
Hypothesis copy_no_put :
  ∀ a w, post True (copy a) w (λ _ w',
    ∃ new, writes w' = writes w ++ new ∧ puts new = []).

Lemma loop_archives_shape (s : gset A) w :
  post True (loop_archives sort os_arch url_of copy s) w (λ vd w',
    lists_archives os_arch url_of s vd ∧
    ∃ new, writes w' = writes w ++ new ∧ puts new = []).
Proof.
  unfold loop_archives. eapply post_mono.
  { apply (post_foldM True _ (λ done vd w',
      ((∀ k e, vd !! k = Some e →
               ∃ a h, a ∈ done ∧ os_arch a = k ∧ e = mkEntry [h] (url_of a)) ∧
       (∀ a, a ∈ done → is_Some (vd !! os_arch a))) ∧
      ∃ new, writes w' = writes w ++ new ∧ puts new = [])).
    - split_and!.
      + intros k e. by rewrite lookup_empty.
      + by intros a ?%elem_of_nil.
      + exists []. by rewrite app_nil_r.
    - intros done x rest vd w1 _ ([Hentries Hall] & new1 & Hw1 & Hp1).
      apply post_bind. eapply post_mono; [apply copy_no_put|].
      intros hc w2 (new2 & Hw2 & Hp2). apply post_ret. split_and!.
      + intros k e. destruct (decide (os_arch x = k)) as [<-|Hk].
        * rewrite lookup_insert_eq. intros [= <-].
          exists x, hc.1. split_and!; [apply elem_of_snoc_r|done..].
        * rewrite lookup_insert_ne by done. intros (a & h & ? & ? & ?)%Hentries.
          exists a, h. split_and!; [by apply elem_of_snoc_l|done..].
      + intros a [Ha| ->%list_elem_of_singleton]%elem_of_app.
        * destruct (decide (os_arch x = os_arch a)) as [->|Hk].
          -- rewrite lookup_insert_eq. by eexists.
          -- rewrite lookup_insert_ne by done. by apply Hall.
        * rewrite lookup_insert_eq. by eexists.
      + exists (new1 ++ new2). by rewrite Hw2, Hw1, puts_app, Hp1, Hp2, app_assoc. }
  intros vd w' ([Hentries Hall] & Hnew). split; [|done]. split.
  - intros k e (a & h & ?%sort_elements & ?)%Hentries. by exists a, h.
  - intros a Ha. by apply Hall, sort_elements.
Qed.

Lemma loop_versions_shape (versions : gmap string (gset A)) w :
  post True (loop_versions sort os_arch url_of bucket out_prefix copy versions) w
    (λ index_data w',
      index_data = index_data_of (sorted_keys versions) ∧
      ∃ new, writes w' = writes w ++ new ∧
             Forall2 (is_version_document os_arch url_of bucket out_prefix versions)
                     (sorted_keys versions) (puts new)).
Proof.
  unfold loop_versions.
  apply (post_foldM True _ (λ done index_data w',
    index_data = index_data_of done ∧
    ∃ new, writes w' = writes w ++ new ∧
           Forall2 (is_version_document os_arch url_of bucket out_prefix versions)
                   done (puts new))).
  - split; [done|]. exists []. rewrite app_nil_r. split; [done|]. constructor.
  - intros done v rest idx w1 _ (-> & new1 & Hw1 & Hdocs).
    apply post_bind. eapply post_mono; [apply loop_archives_shape|].
    intros vd w2 (Hvd & new2 & Hw2 & Hp2).
    apply post_bind, post_put, post_ret. split.
    + by rewrite index_data_of_snoc.
    + eexists (new1 ++ new2 ++ [_]). split.
      * simpl. by rewrite Hw2, Hw1, <- !app_assoc.
      * rewrite !puts_app, Hp2. simpl. apply Forall2_app; [done|].
        repeat constructor. by exists vd.
Qed.

Lemma loop_providers_shape (pv : gmap string (gmap string (gset A))) w :
  post True (loop_providers sort os_arch url_of bucket out_prefix copy pv) w
    (λ _ w',
      ∃ new, writes w' = writes w ++ new ∧
             are_documents os_arch url_of bucket out_prefix pv (puts new)).
Proof.
  unfold loop_providers, for_each. eapply post_mono.
  { apply (post_foldM True _ (λ done (_ : unit) w',
      ∃ new provider_docs, writes w' = writes w ++ new ∧
        Forall2 (λ p docs, are_provider_documents os_arch url_of bucket out_prefix
                             (pv !!! p) docs) done provider_docs ∧
        puts new = concat provider_docs)).
    - exists [], []. rewrite app_nil_r. split_and!; [done| |done]. constructor.
    - intros done p rest [] w1 _ (new1 & docs1 & Hw1 & Hdocs & Hp1).
      apply post_bind. eapply post_mono; [apply loop_versions_shape|].
      intros idx w2 (-> & new2 & Hw2 & Hvdocs). apply post_put.
      eexists (new1 ++ new2 ++ [_]), (docs1 ++ [puts new2 ++ [_]]). split_and!.
      + simpl. by rewrite Hw2, Hw1, <- !app_assoc.
      + apply Forall2_app; [done|]. repeat constructor. by eexists.
      + rewrite !puts_app, Hp1, concat_app. simpl. by rewrite app_nil_r. }
  intros [] w' (new & docs & ? & ? & ?). exists new. split; [done|]. by exists docs.
Qed.

End loops_shape.

(** ** The remote program *)

Lemma remote_sorted_archives_elem (s : gset Remote.Archive) a :
  a ∈ Remote.sorted_archives s ↔ a ∈ s.
Proof. unfold Remote.sorted_archives. by rewrite merge_sort_Permutation, elem_of_elements. Qed.

Lemma remote_sync_providers_loops E rel_bucket bucket out_prefix pv :
  Remote.sync_providers E rel_bucket bucket out_prefix pv
  = loop_providers Remote.sorted_archives Remote.os_arch remote_url
      bucket out_prefix
      (λ a, Remote.copy_archive E (rel_bucket, Remote.key a)
              (remote_mirror_obj bucket out_prefix a))
      pv.
Proof. reflexivity. Qed.

Lemma remote_gather_parsed keys a :
  grouped (Remote.gather keys) a ↔ ∃ k, k ∈ keys ∧ Remote.parse k = Some a.
Proof.
  unfold grouped, Remote.gather. split.
  - intros (p & v & Ha). apply elem_of_gather_from in Ha as [Ha|(k & ? & ? & _)].
    + rewrite lookup_total_versions, lookup_empty in Ha. simpl in Ha.
      rewrite lookup_total_archives, lookup_empty in Ha. by apply elem_of_empty in Ha.
    + by exists k.
  - intros (k & Hk & Ha). exists (Remote.provider a), (Remote.version a).
    apply elem_of_gather_from. right. by exists k.
Qed.

Lemma remote_gather_zip keys a :
  grouped (Remote.gather keys) a → ∃ stem, Remote.file_name a = stem +:+ ".zip".
Proof.
  intros (k & _ & Hk)%remote_gather_parsed.
  destruct (remote_parse_inv _ _ Hk) as (_ & _ & _ & ->).
  eexists. apply archive_name_stem.
Qed.

Lemma remote_copy_no_put E rel_obj obj w :
  post True (Remote.copy_archive E rel_obj obj) w (λ _ w',
    ∃ new, writes w' = writes w ++ new ∧ puts new = []).
Proof.
  unfold post. rewrite remote_copy_archive_eq.
  destruct (object_exists E obj w) as [[existing|e] w'] eqn:Hex; [|done].
  apply object_exists_world in Hex as ->.
  destruct (cached_fingerprint existing).
  { exists []. by rewrite app_nil_r. }
  destruct (fetch E rel_obj w) as [[src|e] w''] eqn:Hfetch; [|done].
  assert (w'' = w) as ->.
  { unfold fetch in Hfetch. destruct (object_error E rel_obj); [by injection Hfetch|].
    destruct (s3 w !! rel_obj); by injection Hfetch. }
  destruct (dirhash_of _); [|done]. by eexists [_].
Qed.

Lemma local_copy_no_put E path obj w :
  post True (Local.copy_archive E path obj) w (λ _ w',
    ∃ new, writes w' = writes w ++ new ∧ puts new = []).
Proof.
  unfold post. rewrite local_copy_archive_eq.
  destruct (dirhash_of _); [|done].
  destruct (object_exists E obj w) as [[existing|e] w'] eqn:Hex; [|done].
  apply object_exists_world in Hex as ->.
  case_bool_decide; [|by eexists [_]]. exists []. by rewrite app_nil_r.
Qed.

Section remote_run.
Context (E : environment) (rel_bucket bucket out_prefix : string).
Context (pv : gmap string (gmap string (gset Remote.Archive))).
Context (F : Prop).

Local Abbreviation obj_of := (remote_mirror_obj bucket out_prefix).
Local Abbreviation fp := (remote_fingerprint bucket out_prefix).
Local Abbreviation docs :=
  (documents Remote.sorted_archives Remote.os_arch remote_url bucket out_prefix).
Local Abbreviation synced := (remote_synced E bucket out_prefix).

Hypothesis truthful : ∀ obj, object_error E obj ≠ Some "404".
Hypothesis fingerprints_not_empty :
  ∀ content h, dirhash_of (dirhasher E content) = Ok h → h ≠ EmptyString.
Hypothesis zip_names :
  ∀ a, grouped pv a → ∃ stem, Remote.file_name a = stem +:+ ".zip".

Lemma remote_copy_spec a w :
  F ∨ synced a w →
  post F (Remote.copy_archive E (rel_bucket, Remote.key a) (obj_of a)) w (λ hc w',
    hc.1 = fp w' a ∧ synced a w' ∧
    ∃ new, writes w' = writes w ++ new ∧ puts new = [] ∧
      (synced a w → w' = w) ∧
      (¬ synced a w → ∃ o, s3 w' = <[obj_of a := o]> (s3 w))).
Proof.
  intros Hpre. unfold post. rewrite remote_copy_archive_eq, object_exists_eq.
  unfold remote_synced, remote_fingerprint in *.
  destruct (object_error E (obj_of a)) as [code|] eqn:Herr.
  { destruct (String.eqb_spec code "404") as [->|Hcode].
    - by destruct (truthful (obj_of a)).
    - by destruct Hpre as [?|[? _]]. }
  destruct (cached_fingerprint (s3 w !! obj_of a)) as [h|] eqn:Hcached.
  { simpl. rewrite Hcached. split_and!; [done..|].
    exists []. rewrite app_nil_r. split_and!; try done. by intros []. }
  assert (Hnot : ¬ (@None string = None ∧ is_Some (@None string))).
  { intros [_ [? ?]]. done. }
  destruct (fetch _ _ w) as [[src|e] w'] eqn:Hfetch.
  2:{ destruct Hpre as [?|?]; done. }
  assert (w' = w) as ->.
  { unfold fetch in Hfetch.
    destruct (object_error E (rel_bucket, Remote.key a)); [by injection Hfetch|].
    destruct (s3 w !! (rel_bucket, Remote.key a)); by injection Hfetch. }
  destruct (dirhash_of (dirhasher E (body src))) as [h1|e] eqn:Hh.
  2:{ destruct Hpre as [?|?]; done. }
  simpl. rewrite lookup_insert_eq. unfold cached_fingerprint. simpl.
  rewrite lookup_insert_eq. simpl.
  assert (Py.truthy h1 = true) as ->.
  { apply fingerprints_not_empty in Hh. by destruct h1. }
  simpl. split_and!; [done..|by eexists|].
  eexists [_]. split_and!; try done. by eexists.
Qed.

(** The store and the documents after a run of the loops. *)
Lemma remote_loops_store w :
  F ∨ (∀ a, grouped pv a → synced a w) →
  post F (Remote.sync_providers E rel_bucket bucket out_prefix pv) w (λ _ w',
    (∀ a, grouped pv a → synced a w') ∧
    (∀ a, grouped pv a → synced a w → fp w' a = fp w a) ∧
    ∃ new, writes w' = writes w ++ new ∧
           puts new = docs (fp w') pv (sorted_keys pv) ∧
           ((∀ a, grouped pv a → synced a w) → copies new = [])).
Proof.
  intros Hpre. rewrite remote_sync_providers_loops.
  set (ext := λ w1 w2 : world, ∀ a h, grouped pv a →
         cached_fingerprint (s3 w1 !! obj_of a) = Some h →
         cached_fingerprint (s3 w2 !! obj_of a) = Some h).
  assert (Hsynced_ext : ∀ a w1 w2, grouped pv a → synced a w1 → ext w1 w2 →
                                   synced a w2 ∧ fp w2 a = fp w1 a).
  { intros a w1 w2 Ha [Herr [h Hh]] Hext. unfold remote_fingerprint.
    rewrite Hh, (Hext a h Ha Hh). split; [|done]. split; [done|].
    rewrite (Hext a h Ha Hh). by eexists. }
  eapply post_mono.
  { apply (loop_providers_spec Remote.sorted_archives Remote.os_arch remote_url
             bucket out_prefix _ F
             (λ w1, F ∨ ∀ a, grouped pv a → synced a w1)
             (grouped pv) fp synced synced ext); try done.
    - apply remote_sorted_archives_elem.
    - by intros w1 a h Ha.
    - intros w1 w2 w3 H12 H23 a h Ha Hs. by apply H23, H12.
    - intros w1 w2 [?|Hs] Hext; [by left|]. right. intros a Ha.
      by destruct (Hsynced_ext a w1 w2) as [? _]; auto.
    - intros a w1 w2 Ha Hs Hext. by destruct (Hsynced_ext a w1 w2) as [? _].
    - intros a w1 Ha Hpre1. eapply post_mono; [apply remote_copy_spec|].
      { destruct Hpre1 as [?|Hs]; [by left|]. right. by apply Hs. }
      intros hc w2 (Hhc & Hsync & new & Hw & Hp & Hskip & Hcopy).
      split_and!; [done..| |].
      + destruct (decide (is_Some (cached_fingerprint (s3 w1 !! obj_of a))))
          as [Hc|Hc].
        * destruct Hsync as [Herr _]. rewrite (Hskip (conj Herr Hc)).
          by intros ????.
        * destruct Hcopy as [o Ho]; [by intros [_ ?]|].
          intros b h Hb Hcb. rewrite Ho.
          destruct (decide (obj_of a = obj_of b)) as [Heq|Hne].
          -- destruct Hc. rewrite Heq, Hcb. by eexists.
          -- by rewrite lookup_insert_ne.
      + exists new. split_and!; [done..|]. intros Hs.
        rewrite (Hskip Hs), <- (app_nil_r (writes w1)) in Hw at 1.
        by apply app_inv_head in Hw.
    - intros name body ct w1 a h Ha Hs. simpl.
      rewrite lookup_insert_ne; [done|].
      destruct (zip_names a Ha) as [stem Hstem]. unfold remote_mirror_obj.
      rewrite Hstem. intros [= Heq%(inj (String.app out_prefix))].
      rewrite <- !str_app_assoc in Heq. by eapply zip_not_json. }
  intros [] w' (_ & Hext & Hsync & new & ? & ? & Hcopies).
  split_and!; [done| |].
  - intros a Ha Hs. by eapply Hsynced_ext.
  - exists new. split_and!; [done..|]. intros Hs. by apply Hcopies.
Qed.

End remote_run.

(** ** [main] *)

Lemma local_main_eq E argv w :
  Local.main E argv w
  = let bp := parse_bucket_and_prefix (argv !!! 1) in
    if length argv <? 3
    then (Raise (MirrorError
                   ("usage: " +:+ argv !!! 0
                    +:+ " output-mirror-bucket/prefix provider-archive.zip...")), w)
    else match head_bucket_error E bp.1 with
         | Some e =>
             (Raise (MirrorError ("Cannot access bucket " +:+ bp.1 +:+ ": " +:+ e)), w)
         | None => Local.sync_providers E bp.1 bp.2 (Local.gather (drop 2 argv)) w
         end.
Proof.
  unfold Local.main. simpl. destruct (length argv <? 3); [done|].
  destruct (parse_bucket_and_prefix (argv !!! 1)) as [b pre]. simpl.
  unfold check_bucket_access, mbind, M_bind.
  by destruct (head_bucket_error E b).
Qed.

Lemma local_main_ok E argv w w' :
  Local.main E argv w = (Ok tt, w') →
  let bp := parse_bucket_and_prefix (argv !!! 1) in
  Local.sync_providers E bp.1 bp.2 (Local.gather (drop 2 argv)) w = (Ok tt, w') ∧
  ∀ w0, Local.main E argv w0
        = Local.sync_providers E bp.1 bp.2 (Local.gather (drop 2 argv)) w0.
Proof.
  rewrite local_main_eq. simpl. intros Hrun. split.
  - destruct (length argv <? 3); [done|]. by destruct (head_bucket_error E _).
  - intros w0. rewrite local_main_eq. simpl.
    destruct (length argv <? 3); [done|]. by destruct (head_bucket_error E _).
Qed.

Lemma remote_main_eq E argv w :
  Remote.main E argv w
  = let rel := parse_bucket_and_prefix (argv !!! 1) in
    let mir := parse_bucket_and_prefix (argv !!! 2) in
    if negb (length argv =? 3)
    then (Raise (MirrorError
                   ("usage: " +:+ argv !!! 0
                    +:+ " input-releases-bucket/prefix output-mirror-bucket/prefix")), w)
    else match head_bucket_error E rel.1 with
         | Some e =>
             (Raise (MirrorError ("Cannot access bucket " +:+ rel.1 +:+ ": " +:+ e)), w)
         | None =>
             match head_bucket_error E mir.1 with
             | Some e =>
                 (Raise (MirrorError ("Cannot access bucket " +:+ mir.1 +:+ ": " +:+ e)),
                  w)
             | None =>
                 Remote.mirror E rel.1 mir.1 mir.2 (list_keys rel.1 rel.2 (s3 w)) w
             end
         end.
Proof.
  unfold Remote.main. simpl. destruct (negb (length argv =? 3)); [done|].
  destruct (parse_bucket_and_prefix (argv !!! 1)) as [rb rp].
  destruct (parse_bucket_and_prefix (argv !!! 2)) as [b pre]. simpl.
  unfold check_bucket_access, mbind, M_bind.
  destruct (head_bucket_error E rb); [done|].
  by destruct (head_bucket_error E b).
Qed.

Lemma remote_main_ok E argv w w' :
  Remote.main E argv w = (Ok tt, w') →
  let rel := parse_bucket_and_prefix (argv !!! 1) in
  let mir := parse_bucket_and_prefix (argv !!! 2) in
  Remote.mirror E rel.1 mir.1 mir.2 (list_keys rel.1 rel.2 (s3 w)) w = (Ok tt, w') ∧
  ∀ w0, Remote.main E argv w0
        = Remote.mirror E rel.1 mir.1 mir.2 (list_keys rel.1 rel.2 (s3 w0)) w0.
Proof.
  rewrite remote_main_eq. simpl. intros Hrun. split.
  - destruct (negb _); [done|]. destruct (head_bucket_error E _); [done|].
    by destruct (head_bucket_error E _).
  - intros w0. rewrite remote_main_eq. simpl.
    destruct (negb _); [done|]. destruct (head_bucket_error E _); [done|].
    by destruct (head_bucket_error E _).
Qed.

(** ** Running the synchronization twice *)

(** C1, as the code has it.  A second run over the same unchanged inputs,
    started from the store that a first, completed run has left, completes,
    puts version and index documents that are byte for byte those of the first
    run, and copies or uploads no archive, provided the store answers ['404']
    for missing objects only, and
    - in the local program, the input archives that share a file name have the
      same fingerprint;
    - in the remote program, [dirhasher] never prints an empty fingerprint, and
      the listing of the releases bucket is the same for both runs. *)
Theorem sync_twice :
  (∀ E argv w0 w1,
     (∀ obj, object_error E obj ≠ Some "404") →
     (∀ p1 p2 a1 a2,
        p1 ∈ drop 2 argv → p2 ∈ drop 2 argv →
        Local.parse p1 = Some a1 → Local.parse p2 = Some a2 →
        Local.file_name a1 = Local.file_name a2 →
        local_fingerprint E a1 = local_fingerprint E a2) →
     Local.main E argv w0 = (Ok tt, w1) →
     ∃ w2 new1 new2,
       writes w1 = writes w0 ++ new1 ∧
       Local.main E argv w1 = (Ok tt, w2) ∧
       writes w2 = writes w1 ++ new2 ∧
       puts new2 = puts new1 ∧ copies new2 = []) ∧
  (∀ E argv w0 w1,
     (∀ obj, object_error E obj ≠ Some "404") →
     (∀ content h, dirhash_of (dirhasher E content) = Ok h → h ≠ EmptyString) →
     (let rel := parse_bucket_and_prefix (argv !!! 1) in
      list_keys rel.1 rel.2 (s3 w1) = list_keys rel.1 rel.2 (s3 w0)) →
     Remote.main E argv w0 = (Ok tt, w1) →
     ∃ w2 new1 new2,
       writes w1 = writes w0 ++ new1 ∧
       Remote.main E argv w1 = (Ok tt, w2) ∧
       writes w2 = writes w1 ++ new2 ∧
       puts new2 = puts new1 ∧ copies new2 = []).
Proof.
  split.
  - intros E argv w0 w1 Htruthful Hsame Hrun.
    destruct (local_main_ok _ _ _ _ Hrun) as [Hsync Hmain]. simpl in *.
    set (bp := parse_bucket_and_prefix (argv !!! 1)) in *.
    set (pv := Local.gather (drop 2 argv)) in *.
    assert (Hsame' : ∀ a b, grouped pv a → grouped pv b →
               Local.file_name a = Local.file_name b →
               local_fingerprint E a = local_fingerprint E b).
    { intros a b (pa & ? & ?)%local_gather_parsed (pb & ? & ?)%local_gather_parsed.
      by apply (Hsame pa pb). }
    pose proof (local_loops_store E bp.1 bp.2 pv True (or_introl I) Htruthful Hsame'
                  (local_gather_zip _) w0) as Hrun1.
    rewrite post_partial in Hrun1.
    destruct (Hrun1 _ _ Hsync) as (Hsynced & new1 & Hw1 & Hp1 & _).
    assert (Hok : ∀ a, grouped pv a → local_ok E bp.1 bp.2 a).
    { intros a Ha. destruct (Hsynced a Ha) as (Hh & Herr & _).
      split; [done|]. intros code. by rewrite Herr. }
    pose proof (local_loops_store E bp.1 bp.2 pv False (or_intror Hok) Htruthful Hsame'
                  (local_gather_zip _) w1) as Hrun2.
    rewrite post_total in Hrun2.
    destruct Hrun2 as ([] & w2 & Hsync2 & _ & new2 & Hw2 & Hp2 & Hc2).
    exists w2, new1, new2. rewrite Hmain. split_and!; try done.
    + by rewrite Hp1, Hp2.
    + by apply Hc2.
  - intros E argv w0 w1 Htruthful Hnonempty Hlisting Hrun.
    destruct (remote_main_ok _ _ _ _ Hrun) as [Hsync Hmain]. simpl in *.
    set (rel := parse_bucket_and_prefix (argv !!! 1)) in *.
    set (mir := parse_bucket_and_prefix (argv !!! 2)) in *.
    set (pv := Remote.gather (list_keys rel.1 rel.2 (s3 w0))) in *.
    pose proof (remote_loops_store E rel.1 mir.1 mir.2 pv True Htruthful Hnonempty
                  (remote_gather_zip _) w0 (or_introl I)) as Hrun1.
    rewrite post_partial in Hrun1.
    destruct (Hrun1 _ _ Hsync) as (Hsynced & _ & new1 & Hw1 & Hp1 & _).
    pose proof (remote_loops_store E rel.1 mir.1 mir.2 pv False Htruthful Hnonempty
                  (remote_gather_zip _) w1 (or_intror Hsynced)) as Hrun2.
    rewrite post_total in Hrun2.
    destruct Hrun2 as ([] & w2 & Hsync2 & _ & Hfp & new2 & Hw2 & Hp2 & Hc2).
    exists w2, new1, new2. rewrite Hmain, Hlisting. split_and!; try done.
    + rewrite Hp1, Hp2. apply documents_ext.
      intros p Hp v Hv a Ha%remote_sorted_archives_elem.
      apply Hfp; [|apply Hsynced]; by exists p, v.
    + by apply Hc2.
Qed.

Lemma new_writes_eq (w1 w2 : world) new :
  writes w2 = writes w1 ++ new → new = drop (length (writes w1)) (writes w2).
Proof. intros ->. by rewrite drop_app_length. Qed.

Lemma run_world {A} (m : M A) w r w' : m w = (r, w') → w' = (m w).2.
Proof. by intros ->. Qed.

Lemma sync_twice_witness :
  (let argv := ["prog"; "mirror/registry/"; "dist/pkg_1.0.0_linux_amd64.zip"] in
   let w1 := (Local.main equal_fingerprints argv empty_store).2 in
   ∃ w2 new1 new2,
     writes w1 = writes empty_store ++ new1 ∧
     Local.main equal_fingerprints argv w1 = (Ok tt, w2) ∧
     writes w2 = writes w1 ++ new2 ∧
     puts new2 = puts new1 ∧ copies new2 = []) ∧
  (let argv := ["prog"; "releases/aws/"; "mirror/registry/"] in
   let w1 := (Remote.main equal_fingerprints argv one_release).2 in
   ∃ w2 new1 new2,
     writes w1 = writes one_release ++ new1 ∧
     Remote.main equal_fingerprints argv w1 = (Ok tt, w2) ∧
     writes w2 = writes w1 ++ new2 ∧
     puts new2 = puts new1 ∧ copies new2 = []).
Proof.
  split.
  - apply (proj1 sync_twice).
    + intros obj. simpl. discriminate.
    + intros p1 p2 a1 a2 _ _ _ _ _. reflexivity.
    + vm_compute. reflexivity.
  - apply (proj2 sync_twice).
    + intros obj. simpl. discriminate.
    + intros content h. vm_compute. intros H. injection H as <-. discriminate.
    + vm_compute. reflexivity.
    + vm_compute. reflexivity.
Defined.

(** C1 as stated fails in both programs.  In the local one, two inputs with the
    same file name and different fingerprints are uploaded again by every
    run: each finds the fingerprint of the other on the mirror object.  In the
    remote one, an archive whose fingerprint is the empty string is copied
    again by every run: the empty fingerprint on the mirror object is not
    trusted. *)
Lemma sync_twice_counterexample :
  ¬ (∀ E argv w0 w1,
       Local.main E argv w0 = (Ok tt, w1) →
       ∃ w2 new1 new2,
         writes w1 = writes w0 ++ new1 ∧
         Local.main E argv w1 = (Ok tt, w2) ∧
         writes w2 = writes w1 ++ new2 ∧
         puts new2 = puts new1 ∧ copies new2 = []) ∧
  ¬ (∀ E argv w0 w1,
       Remote.main E argv w0 = (Ok tt, w1) →
       ∃ w2 new1 new2,
         writes w1 = writes w0 ++ new1 ∧
         Remote.main E argv w1 = (Ok tt, w2) ∧
         writes w2 = writes w1 ++ new2 ∧
         puts new2 = puts new1 ∧ copies new2 = []).
Proof.
  split.
  - intros Hclaim.
    set (argv := ["prog"; "mirror/registry/"; "a/pkg_1.0.0_linux_amd64.zip";
                  "b/pkg_1.0.0_linux_amd64.zip"]).
    set (w1 := (Local.main named_fingerprints argv empty_store).2).
    destruct (Hclaim named_fingerprints argv empty_store w1)
      as (w2 & new1 & new2 & _ & Hrun2 & Hw2 & _ & Hcopies).
    { vm_compute. reflexivity. }
    apply new_writes_eq in Hw2. apply run_world in Hrun2. subst new2 w2.
    vm_compute in Hcopies. discriminate.
  - intros Hclaim.
    set (argv := ["prog"; "releases/aws/"; "mirror/registry/"]).
    set (w1 := (Remote.main empty_fingerprints argv one_release).2).
    destruct (Hclaim empty_fingerprints argv one_release w1)
      as (w2 & new1 & new2 & _ & Hrun2 & Hw2 & _ & Hcopies).
    { vm_compute. reflexivity. }
    apply new_writes_eq in Hw2. apply run_world in Hrun2. subst new2 w2.
    vm_compute in Hcopies. discriminate.
Qed.

(** ** The claims on the copy step *)

(** C2, as the code has it.  In the remote program, when the mirror object
    exists and carries a fingerprint that is not the empty string,
    [copy_archive] returns that fingerprint with [copied = false] and leaves
    the store as it is, whatever the source and [dirhasher] are; when the
    mirror object is missing, carries no fingerprint or carries the empty
    string, and the source is fetched and fingerprinted, it copies the source
    to the mirror object, with the fresh fingerprint set in the replaced
    metadata, and returns the fresh fingerprint with [copied = true]. *)
Theorem remote_copy_archive_trusts_cache E rel_obj mirror_obj w existing :
  object_exists E mirror_obj w = (Ok existing, w) →
  (∀ h, stored_fingerprint existing = Some h → h ≠ EmptyString →
        Remote.copy_archive E rel_obj mirror_obj w = (Ok (h, false), w)) ∧
  (stored_fingerprint existing = None ∨
   stored_fingerprint existing = Some EmptyString →
   ∀ src h1,
     fetch E rel_obj w = (Ok src, w) →
     dirhash_of (dirhasher E (body src)) = Ok h1 →
     let meta := <[DIRHASH_METADATA := h1]> (metadata src) in
     Remote.copy_archive E rel_obj mirror_obj w
     = (Ok (h1, true),
        mkWorld (<[mirror_obj := mkObject (body src) meta]> (s3 w))
                (writes w ++ [CopyFrom mirror_obj.1 mirror_obj.2
                                rel_obj.1 rel_obj.2 meta]))).
Proof.
  intros Hexists. rewrite remote_copy_archive_eq, Hexists. split.
  - intros h Hh Hne. unfold cached_fingerprint. rewrite Hh. simpl.
    by destruct h.
  - intros Hstored src h1 Hfetch Hh1. simpl.
    assert (cached_fingerprint existing = None) as ->.
    { unfold cached_fingerprint. by destruct Hstored as [-> | ->]. }
    by rewrite Hfetch, Hh1.
Qed.

Lemma remote_copy_archive_trusts_cache_witness :
  let w := stale_mirror "h1:old" in
  let rel_obj := ("releases", "aws/pkg_1.0.0_linux_amd64.zip") in
  let mirror_obj := ("mirror", "registry/1.0.0/pkg_1.0.0_linux_amd64.zip") in
  Remote.copy_archive named_fingerprints rel_obj mirror_obj w
  = (Ok ("h1:old", false), w).
Proof.
  intros w rel_obj mirror_obj.
  refine (proj1 (remote_copy_archive_trusts_cache named_fingerprints rel_obj
                   mirror_obj w (s3 w !! mirror_obj) _) "h1:old" _ _).
  - vm_compute. reflexivity.
  - vm_compute. reflexivity.
  - discriminate.
Defined.

(** C2 as stated fails on a mirror object that exists and carries the empty
    string as fingerprint: the source is fingerprinted and copied. *)
Lemma remote_copy_archive_counterexample :
  let w := stale_mirror EmptyString in
  let rel_obj := ("releases", "aws/pkg_1.0.0_linux_amd64.zip") in
  let mirror_obj := ("mirror", "registry/1.0.0/pkg_1.0.0_linux_amd64.zip") in
  (∃ o, object_exists named_fingerprints mirror_obj w = (Ok (Some o), w) ∧
        metadata o !! DIRHASH_METADATA = Some EmptyString) ∧
  (Remote.copy_archive named_fingerprints rel_obj mirror_obj w).1
  = Ok ("h1:zip", true) ∧
  writes (Remote.copy_archive named_fingerprints rel_obj mirror_obj w).2
  = [CopyFrom "mirror" "registry/1.0.0/pkg_1.0.0_linux_amd64.zip"
       "releases" "aws/pkg_1.0.0_linux_amd64.zip" {[ DIRHASH_METADATA := "h1:zip" ]}].
Proof.
  split_and!.
  - eexists. split; vm_compute; reflexivity.
  - vm_compute. reflexivity.
  - vm_compute. reflexivity.
Qed.



(** ** The order of the inputs *)

Lemma same_elements_nil {A} (l1 l2 : list A) :
  (∀ x, x ∈ l1 ↔ x ∈ l2) → l1 = [] → l2 = [].
Proof.
  intros Hl ->. destruct l2 as [|x l2]; [done|].
  assert (Hx : x ∈ @nil A) by (apply Hl; by left).
  by apply elem_of_nil in Hx.
Qed.

(** C5: two runs from the same store whose inputs are the same set of archive
    paths (local program) or of listed keys (remote program), in any order and
    with any repetition, have the same outcome: the same result and the same
    final store and sequence of writes, hence the same documents, byte for
    byte, and the same copies and puts. *)
Theorem input_order_irrelevant :
  (∀ E prog dest paths1 paths2 w,
     (∀ p, p ∈ paths1 ↔ p ∈ paths2) →
     Local.main E (prog :: dest :: paths1) w = Local.main E (prog :: dest :: paths2) w) ∧
  (∀ E rel_bucket bucket out_prefix keys1 keys2 w,
     (∀ k, k ∈ keys1 ↔ k ∈ keys2) →
     Remote.mirror E rel_bucket bucket out_prefix keys1 w
     = Remote.mirror E rel_bucket bucket out_prefix keys2 w).
Proof.
  split.
  - intros E prog dest paths1 paths2 w Hsame. rewrite !local_main_eq. cbv zeta.
    assert (Hgather : Local.gather paths1 = Local.gather paths2).
    { by apply gather_from_same_elements. }
    change (drop 2 (prog :: dest :: paths1)) with paths1.
    change (drop 2 (prog :: dest :: paths2)) with paths2.
    rewrite Hgather.
    assert (Hlen : (length (prog :: dest :: paths1) <? 3)
                   = (length (prog :: dest :: paths2) <? 3)).
    { destruct paths1 as [|p1 paths1], paths2 as [|p2 paths2]; try done.
      - by discriminate (same_elements_nil _ _ Hsame).
      - assert (Hsame' : ∀ x, x ∈ @nil string ↔ x ∈ p1 :: paths1)
          by (intros x; by rewrite Hsame).
        by discriminate (same_elements_nil _ _ Hsame'). }
    by rewrite Hlen.
  - intros E rel_bucket bucket out_prefix keys1 keys2 w Hsame. unfold Remote.mirror.
    f_equal. by apply gather_from_same_elements.
Qed.

Lemma input_order_irrelevant_witness :
  Local.main named_fingerprints
    ["prog"; "mirror/registry/"; "pkg_1.0.0_linux_amd64.zip"; "pkg_1.0.0_darwin_amd64.zip"]
    empty_store
  = Local.main named_fingerprints
      ["prog"; "mirror/registry/"; "pkg_1.0.0_darwin_amd64.zip"; "pkg_1.0.0_linux_amd64.zip"]
      empty_store ∧
  Remote.mirror named_fingerprints "releases" "mirror" "registry/"
    ["aws/pkg_1.0.0_linux_amd64.zip"; "aws/pkg_1.0.0_darwin_amd64.zip"] one_release
  = Remote.mirror named_fingerprints "releases" "mirror" "registry/"
      ["aws/pkg_1.0.0_darwin_amd64.zip"; "aws/pkg_1.0.0_linux_amd64.zip";
       "aws/pkg_1.0.0_darwin_amd64.zip"] one_release.
Proof.
  split.
  - apply (proj1 input_order_irrelevant). intros p.
    rewrite !elem_of_cons, !elem_of_nil. tauto.
  - apply (proj2 input_order_irrelevant). intros k.
    rewrite !elem_of_cons, !elem_of_nil. tauto.
Defined.

(** ** The documents are rebuilt from the inputs of the run *)

Section grouping_keys.
Context {A : Type} `{Countable A} (provider version : A → string).
Context (parse : string → option A).
Implicit Types (pv : gmap string (gmap string (gset A))).

Lemma add_archive_tight pv x : tight pv → tight (add_archive provider version pv x).
Proof.
  intros Hpv p versions. unfold add_archive.
  destruct (decide (p = provider x)) as [->|Hp].
  - rewrite lookup_insert_eq. intros [= <-]. split.
    + exists (version x). rewrite lookup_insert_eq. by eexists.
    + intros v archives. destruct (decide (v = version x)) as [->|Hv].
      * rewrite lookup_insert_eq. intros [= <-]. exists x.
        apply elem_of_union. right. by apply elem_of_singleton.
      * rewrite lookup_insert_ne by done.
        destruct (pv !! provider x) as [vs|] eqn:Hvs; simpl.
        -- by apply (Hpv _ _ Hvs).
        -- intros Hnone. by rewrite lookup_empty in Hnone.
  - rewrite lookup_insert_ne by done. apply Hpv.
Qed.

Lemma gather_from_tight pv l :
  tight pv →
  tight (foldl (λ pv key, match parse key with
                          | Some archive => add_archive provider version pv archive
                          | None => pv
                          end) pv l).
Proof.
  revert pv. induction l as [|k l IH]; intros pv Hpv; [done|]. simpl.
  apply IH. destruct (parse k); [by apply add_archive_tight|done].
Qed.

Lemma tight_keys pv p v :
  tight pv → p ∈ sorted_keys pv → v ∈ sorted_keys (pv !!! p) →
  ∃ a, a ∈ (pv !!! p) !!! v.
Proof.
  intros Hpv [versions Hp]%elem_of_sorted_keys.
  rewrite lookup_total_versions, Hp. simpl.
  intros [archives Hv]%elem_of_sorted_keys.
  rewrite lookup_total_archives, Hv. simpl.
  by apply (Hpv _ _ Hp) in Hv.
Qed.

End grouping_keys.

Lemma index_data_of_lookup l v : index_data_of l !! v = Some tt ↔ v ∈ l.
Proof.
  induction l as [|x l IH] using rev_ind.
  - unfold index_data_of. simpl. rewrite lookup_empty, elem_of_nil. by split.
  - rewrite index_data_of_snoc, elem_of_app, list_elem_of_singleton.
    destruct (decide (x = v)) as [->|Hx].
    + rewrite lookup_insert_eq. by split; [right|].
    + rewrite lookup_insert_ne, IH by done. split; [by left|]. by intros [?|?].
Qed.

(** C6, as the code has it.  Every run that completes puts, whatever the store
    holds, one version document for each version and then one index document
    for each provider of the archives that this run has parsed from its
    inputs; the archives entry of a version document lists exactly the
    platforms of those archives, each with the url of such an archive and one
    fingerprint, and the index lists exactly their versions: an archive or a
    version that an earlier document has and the inputs of this run have not
    is not in the new document.  The fingerprints are those that the copy step
    has returned in this run.  In the local program they are the fresh
    fingerprints of the inputs, so that the documents are a function of the
    inputs and of their fingerprints only.  In the remote program they are not
    a function of the inputs: when the store answers ['404'] for missing
    objects only and [dirhasher] never prints an empty fingerprint, the
    fingerprint listed for an archive is the [dirhash] metadata of its mirror
    object as the run leaves it, and for a mirror object that the run has
    found with such a metadata it is that earlier value, whatever the source
    is. *)
Theorem documents_rebuilt :
  (∀ E argv w w',
     Local.main E argv w = (Ok tt, w') →
     let bp := parse_bucket_and_prefix (argv !!! 1) in
     let pv := Local.gather (drop 2 argv) in
     (∀ p v a, a ∈ (pv !!! p) !!! v ↔
               (∃ path, path ∈ drop 2 argv ∧ Local.parse path = Some a) ∧
               p = Local.provider a ∧ v = Local.version a) ∧
     (∀ p v, p ∈ sorted_keys pv → v ∈ sorted_keys (pv !!! p) →
             ∃ a, a ∈ (pv !!! p) !!! v) ∧
     ∃ new, writes w' = writes w ++ new ∧
       are_documents Local.os_arch Local.file_name bp.1 bp.2 pv (puts new) ∧
       puts new = documents Local.sorted_archives Local.os_arch Local.file_name
                    bp.1 bp.2 (local_fingerprint E) pv (sorted_keys pv)) ∧
  (∀ E argv w w',
     Remote.main E argv w = (Ok tt, w') →
     let rel := parse_bucket_and_prefix (argv !!! 1) in
     let mir := parse_bucket_and_prefix (argv !!! 2) in
     let keys := list_keys rel.1 rel.2 (s3 w) in
     let pv := Remote.gather keys in
     (∀ p v a, a ∈ (pv !!! p) !!! v ↔
               (∃ key, key ∈ keys ∧ Remote.parse key = Some a) ∧
               p = Remote.provider a ∧ v = Remote.version a) ∧
     (∀ p v, p ∈ sorted_keys pv → v ∈ sorted_keys (pv !!! p) →
             ∃ a, a ∈ (pv !!! p) !!! v) ∧
     ∃ new, writes w' = writes w ++ new ∧
       are_documents Remote.os_arch remote_url mir.1 mir.2 pv (puts new) ∧
       ((∀ obj, object_error E obj ≠ Some "404") →
        (∀ content h, dirhash_of (dirhasher E content) = Ok h → h ≠ EmptyString) →
        puts new = documents Remote.sorted_archives Remote.os_arch remote_url
                     mir.1 mir.2 (remote_fingerprint mir.1 mir.2 w') pv
                     (sorted_keys pv) ∧
        ∀ a, grouped pv a → remote_synced E mir.1 mir.2 a w →
             remote_fingerprint mir.1 mir.2 w' a = remote_fingerprint mir.1 mir.2 w a)).
Proof.
  split.
  - intros E argv w w' Hrun bp pv.
    destruct (local_main_ok _ _ _ _ Hrun) as [Hsync _]. fold bp pv in Hsync.
    split_and!.
    + intros p v a. unfold pv, Local.gather. rewrite elem_of_gather_from.
      rewrite lookup_total_versions, lookup_empty. simpl.
      rewrite lookup_total_archives, lookup_empty. simpl.
      rewrite elem_of_empty. naive_solver.
    + intros p v. apply tight_keys. apply gather_from_tight.
      intros p' vs. by rewrite lookup_empty.
    + pose proof (local_loops_documents E bp.1 bp.2 pv True (or_introl I) w) as Hdocs.
      rewrite post_partial in Hdocs.
      destruct (Hdocs _ _ Hsync) as (_ & new & Hw & Hp).
      pose proof (loop_providers_shape Local.sorted_archives Local.os_arch
                    Local.file_name bp.1 bp.2
                    (λ a, Local.copy_archive E (Local.path a)
                            (local_mirror_obj bp.1 bp.2 a))
                    local_sorted_archives_elem
                    (λ a w0, local_copy_no_put E _ _ w0) pv w) as Hshape.
      rewrite post_partial in Hshape.
      destruct (Hshape _ _ Hsync) as (new' & Hw' & Hshape').
      assert (new' = new) as -> by (rewrite Hw in Hw'; by apply app_inv_head in Hw').
      by exists new.
  - intros E argv w w' Hrun rel mir keys pv.
    destruct (remote_main_ok _ _ _ _ Hrun) as [Hsync _]. fold rel mir keys in Hsync.
    split_and!.
    + intros p v a. unfold pv, Remote.gather. rewrite elem_of_gather_from.
      rewrite lookup_total_versions, lookup_empty. simpl.
      rewrite lookup_total_archives, lookup_empty. simpl.
      rewrite elem_of_empty. naive_solver.
    + intros p v. apply tight_keys. apply gather_from_tight.
      intros p' vs. by rewrite lookup_empty.
    + pose proof (loop_providers_shape Remote.sorted_archives Remote.os_arch
                    remote_url mir.1 mir.2
                    (λ a, Remote.copy_archive E (rel.1, Remote.key a)
                            (remote_mirror_obj mir.1 mir.2 a))
                    remote_sorted_archives_elem
                    (λ a w0, remote_copy_no_put E _ _ w0) pv w) as Hshape.
      rewrite post_partial in Hshape.
      destruct (Hshape tt w' Hsync) as (new & Hw & Hdocs).
      exists new. split_and!; [done..|]. intros Htruthful Hnonempty.
      pose proof (remote_loops_store E rel.1 mir.1 mir.2 pv True Htruthful Hnonempty
                    (remote_gather_zip _) w (or_introl I)) as Hstore.
      rewrite post_partial in Hstore.
      destruct (Hstore tt w' Hsync) as (_ & Hfp & new' & Hw' & Hp & _).
      assert (new' = new) as -> by (rewrite Hw in Hw'; by apply app_inv_head in Hw').
      split; [done|]. intros a Ha Hs. by apply Hfp.
Qed.

Lemma documents_rebuilt_witness :
  (∃ new,
     writes (Local.main named_fingerprints
               ["prog"; "mirror/registry/"; "pkg_1.0.0_linux_amd64.zip"]
               (stale_mirror "h1:old")).2
     = writes (stale_mirror "h1:old") ++ new ∧
     puts new
     = documents Local.sorted_archives Local.os_arch Local.file_name
         "mirror" "registry/" (local_fingerprint named_fingerprints)
         (Local.gather ["pkg_1.0.0_linux_amd64.zip"])
         (sorted_keys (Local.gather ["pkg_1.0.0_linux_amd64.zip"]))) ∧
  (let w' := (Remote.main equal_fingerprints
                ["prog"; "releases/aws/"; "mirror/registry/"] (stale_mirror "h1:old")).2 in
   let pv := Remote.gather (list_keys "releases" "aws/" (s3 (stale_mirror "h1:old"))) in
   ∃ new,
     writes w' = writes (stale_mirror "h1:old") ++ new ∧
     puts new
     = documents Remote.sorted_archives Remote.os_arch remote_url "mirror" "registry/"
         (remote_fingerprint "mirror" "registry/" w') pv (sorted_keys pv)).
Proof.
  split.
  - destruct (proj1 documents_rebuilt named_fingerprints
                ["prog"; "mirror/registry/"; "pkg_1.0.0_linux_amd64.zip"]
                (stale_mirror "h1:old")
                (Local.main named_fingerprints
                   ["prog"; "mirror/registry/"; "pkg_1.0.0_linux_amd64.zip"]
                   (stale_mirror "h1:old")).2)
      as (_ & _ & new & Hw & _ & Hp).
    + vm_compute. reflexivity.
    + exists new. split; [exact Hw | exact Hp].
  - intros w' pv.
    destruct (proj2 documents_rebuilt equal_fingerprints
                ["prog"; "releases/aws/"; "mirror/registry/"] (stale_mirror "h1:old") w')
      as (_ & _ & new & Hw & _ & Hpinned).
    + vm_compute. reflexivity.
    + exists new. split; [exact Hw|]. apply Hpinned.
      * intros obj. simpl. discriminate.
      * intros content h. vm_compute. intros Hh. injection Hh as <-. discriminate.
Defined.

(** C6 as stated fails in the remote program: its documents are not a function
    of the inputs only.  For the same listing of the releases bucket and the
    same source object, the version document lists the fingerprint of the
    source when the mirror is empty, and the fingerprint that the mirror object
    carries when there is one, whatever that is. *)
Lemma documents_rebuilt_counterexample :
  let argv := ["prog"; "releases/aws/"; "mirror/registry/"] in
  let documents_of := λ w, puts (writes (Remote.main named_fingerprints argv w).2) in
  let documents_with := λ h,
    [PutObject "mirror" "registry/1.0.0.json" (remote_version_1_0_0 h) "application/json";
     PutObject "mirror" "registry/index.json" index_1_0_0 "application/json"] in
  list_keys "releases" "aws/" (s3 (stale_mirror "h1:old"))
  = list_keys "releases" "aws/" (s3 one_release) ∧
  list_keys "releases" "aws/" (s3 (stale_mirror "h1:new"))
  = list_keys "releases" "aws/" (s3 one_release) ∧
  s3 (stale_mirror "h1:old") !! ("releases", "aws/pkg_1.0.0_linux_amd64.zip")
  = s3 one_release !! ("releases", "aws/pkg_1.0.0_linux_amd64.zip") ∧
  s3 (stale_mirror "h1:new") !! ("releases", "aws/pkg_1.0.0_linux_amd64.zip")
  = s3 one_release !! ("releases", "aws/pkg_1.0.0_linux_amd64.zip") ∧
  documents_of one_release = documents_with "h1:zip" ∧
  documents_of (stale_mirror "h1:old") = documents_with "h1:old" ∧
  documents_of (stale_mirror "h1:new") = documents_with "h1:new" ∧
  documents_of (stale_mirror "h1:old") ≠ documents_of one_release ∧
  documents_of (stale_mirror "h1:old") ≠ documents_of (stale_mirror "h1:new").
Proof.
  split_and!; try (vm_compute; reflexivity); vm_compute; discriminate.
Qed.

(** ** The scenario of two platforms *)

Lemma version_1_0_0_json hl hd :
  version_json {[ "linux_amd64" := mkEntry [hl] "pkg_1.0.0_linux_amd64.zip";
                  "darwin_amd64" := mkEntry [hd] "pkg_1.0.0_darwin_amd64.zip" ]}
  = JObject [("archives",
      JObject [("darwin_amd64",
                JObject [("hashes", JArray [JString hd]);
                         ("url", JString "pkg_1.0.0_darwin_amd64.zip")]);
               ("linux_amd64",
                JObject [("hashes", JArray [JString hl]);
                         ("url", JString "pkg_1.0.0_linux_amd64.zip")])])].
Proof. vm_compute. reflexivity. Qed.

Lemma version_1_0_0_text hl hd :
  Json.dumps
    (JObject [("archives",
       JObject [("darwin_amd64",
                 JObject [("hashes", JArray [JString hd]);
                          ("url", JString "pkg_1.0.0_darwin_amd64.zip")]);
                ("linux_amd64",
                 JObject [("hashes", JArray [JString hl]);
                          ("url", JString "pkg_1.0.0_linux_amd64.zip")])])])
  = version_1_0_0 hl hd.
Proof.
  unfold version_1_0_0, Json.dumps. simpl.
  unfold Json.block, Json.quote. simpl.
  rewrite !str_app_assoc. str_simpl. reflexivity.
Qed.

(** C7: a run of the local program whose inputs are exactly
    [pkg_1.0.0_linux_amd64.zip] and [pkg_1.0.0_darwin_amd64.zip], whose
    requests do not fail, completes and puts exactly two documents.  The first
    is the version document [1.0.0.json], whose text is [version_1_0_0]: the
    JSON object with the one member [archives], an object with exactly the two
    keys [darwin_amd64] and [linux_amd64], each with the fingerprint of its
    archive as the one element of [hashes] and the file name of its archive as
    [url].  The second is the index document [index.json], whose text is
    [{"versions": {"1.0.0": {}}}]. *)
Theorem two_platforms_scenario E prog dest w hl hd :
  let bp := parse_bucket_and_prefix dest in
  head_bucket_error E bp.1 = None →
  dirhash_of (dirhasher E "pkg_1.0.0_linux_amd64.zip") = Ok hl →
  dirhash_of (dirhasher E "pkg_1.0.0_darwin_amd64.zip") = Ok hd →
  (∀ code, object_error E (bp.1, bp.2 +:+ "pkg_1.0.0_linux_amd64.zip") = Some code →
           code = "404") →
  (∀ code, object_error E (bp.1, bp.2 +:+ "pkg_1.0.0_darwin_amd64.zip") = Some code →
           code = "404") →
  ∃ w' new,
    Local.main E [prog; dest; "pkg_1.0.0_linux_amd64.zip"; "pkg_1.0.0_darwin_amd64.zip"] w
    = (Ok tt, w') ∧
    writes w' = writes w ++ new ∧
    puts new
    = [PutObject bp.1 (bp.2 +:+ "1.0.0.json") (version_1_0_0 hl hd) "application/json";
       PutObject bp.1 (bp.2 +:+ "index.json") index_1_0_0 "application/json"] ∧
    version_1_0_0 hl hd
    = Json.dumps
        (JObject [("archives",
           JObject [("darwin_amd64",
                     JObject [("hashes", JArray [JString hd]);
                              ("url", JString "pkg_1.0.0_darwin_amd64.zip")]);
                    ("linux_amd64",
                     JObject [("hashes", JArray [JString hl]);
                              ("url", JString "pkg_1.0.0_linux_amd64.zip")])])]) ∧
    index_1_0_0 = Json.dumps (JObject [("versions", JObject [("1.0.0", JObject [])])]).
Proof.
  intros bp Hbucket Hl Hd Herr_l Herr_d.
  set (linux := Local.mkArchive "pkg_1.0.0_linux_amd64.zip" "pkg_1.0.0_linux_amd64.zip"
                  "pkg" "1.0.0" "linux" "amd64").
  set (darwin := Local.mkArchive "pkg_1.0.0_darwin_amd64.zip" "pkg_1.0.0_darwin_amd64.zip"
                   "pkg" "1.0.0" "darwin" "amd64").
  set (pv := Local.gather ["pkg_1.0.0_linux_amd64.zip"; "pkg_1.0.0_darwin_amd64.zip"]).
  assert (Hpv : ∀ a, grouped pv a → a = linux ∨ a = darwin).
  { intros a (p & Hp & Ha)%local_gather_parsed.
    rewrite !elem_of_cons, elem_of_nil in Hp. destruct Hp as [->|[->|[]]].
    - left. vm_compute in Ha. by injection Ha.
    - right. vm_compute in Ha. by injection Ha. }
  assert (Hok : ∀ a, grouped pv a → local_ok E bp.1 bp.2 a).
  { intros a [->| ->]%Hpv; (split; [by eexists|done]). }
  pose proof (local_loops_documents E bp.1 bp.2 pv False (or_intror Hok) w) as Hrun.
  rewrite post_total in Hrun. destruct Hrun as ([] & w' & Hrun & _ & new & Hw & Hp).
  exists w', new. rewrite local_main_eq. cbv zeta.
  change (parse_bucket_and_prefix (_ !!! 1)) with bp.
  change (length _ <? 3) with false. cbv iota. rewrite Hbucket.
  change (drop 2 _) with ["pkg_1.0.0_linux_amd64.zip"; "pkg_1.0.0_darwin_amd64.zip"].
  split_and!; [done..| | |].
  - rewrite Hp.
    rewrite (documents_ext _ _ _ _ _ _
               (λ a, if String.eqb (Local.path a) "pkg_1.0.0_linux_amd64.zip"
                     then hl else hd)).
    + rewrite <- version_1_0_0_text, <- version_1_0_0_json.
      clearbody bp. destruct bp as [b pre]. simpl fst. simpl snd.
      clear. vm_compute. reflexivity.
    + intros p _ v _ a Ha%local_sorted_archives_elem.
      destruct (Hpv a) as [-> | ->]; [by exists p, v|..];
        unfold local_fingerprint; simpl; by rewrite ?Hl, ?Hd.
  - symmetry. apply version_1_0_0_text.
  - vm_compute. reflexivity.
Qed.

Lemma two_platforms_scenario_witness :
  ∃ w' new,
    Local.main named_fingerprints
      ["prog"; "mirror/registry/"; "pkg_1.0.0_linux_amd64.zip";
       "pkg_1.0.0_darwin_amd64.zip"] empty_store
    = (Ok tt, w') ∧
    writes w' = writes empty_store ++ new ∧
    puts new
    = [PutObject "mirror" "registry/1.0.0.json"
         (version_1_0_0 "h1:pkg_1.0.0_linux_amd64.zip" "h1:pkg_1.0.0_darwin_amd64.zip")
         "application/json";
       PutObject "mirror" "registry/index.json" index_1_0_0 "application/json"].
Proof.
  destruct (two_platforms_scenario named_fingerprints "prog" "mirror/registry/"
              empty_store "h1:pkg_1.0.0_linux_amd64.zip" "h1:pkg_1.0.0_darwin_amd64.zip")
    as (w' & new & Hrun & Hw & Hp & _).
  - reflexivity.
  - vm_compute. reflexivity.
  - vm_compute. reflexivity.
  - intros code. simpl. discriminate.
  - intros code. simpl. discriminate.
  - exists w', new. split; [exact Hrun|]. split; [exact Hw | exact Hp].
Defined.

(** ** [str.strip] *)

Lemma lstrip_decompose s :
  ∃ l, s = l +:+ Py.lstrip s ∧ all_space l = true.
Proof.
  induction s as [|c s (l & Hl & Hsp)]; simpl.
  - by exists EmptyString.
  - destruct (Py.isspace c) eqn:Hc.
    + exists (String c l). str_simpl. rewrite <- Hl. simpl. by rewrite Hc.
    + by exists EmptyString.
Qed.

Lemma lstrip_first s c t : Py.lstrip s = String c t → Py.isspace c = false.
Proof.
  induction s as [|a s IH]; simpl; [done|].
  destruct (Py.isspace a) eqn:Ha; [done|]. by intros [= <- _].
Qed.

Lemma rstrip_decompose s :
  ∃ r, s = Py.rstrip s +:+ r ∧ all_space r = true.
Proof.
  induction s as [|c s (r & Hr & Hsp)]; simpl.
  - by exists EmptyString.
  - destruct (Py.rstrip s) as [|b t] eqn:Hs.
    + destruct (Py.isspace c) eqn:Hc.
      * exists (String c r). str_simpl. rewrite str_app_nil_l in Hr. subst s.
        simpl. by rewrite Hc.
      * exists r. str_simpl. by rewrite Hr at 1.
    + exists r. str_simpl. by rewrite Hr at 1.
Qed.

Lemma str_snoc_inv (x y : string) (a b : ascii) :
  x +:+ String a EmptyString = y +:+ String b EmptyString → x = y ∧ a = b.
Proof.
  revert y. induction x as [|c x IH]; intros [|d y]; str_simpl.
  - by intros [= ->].
  - intros [= -> Hy]. by destruct y.
  - intros [= -> Hx]. by destruct x.
  - intros [= -> Hxy]. by destruct (IH _ Hxy) as [-> ->].
Qed.

Lemma rstrip_last s t c :
  Py.rstrip s = t +:+ String c EmptyString → Py.isspace c = false.
Proof.
  revert t. induction s as [|a s IH]; intros t; simpl.
  - by destruct t.
  - destruct (Py.rstrip s) as [|b r] eqn:Hs.
    + destruct (Py.isspace a) eqn:Ha; [by destruct t|].
      destruct t as [|d t]; str_simpl; [by intros [= <-]|].
      intros [= _ Ht]. by destruct t.
    + destruct t as [|d t]; str_simpl; [done|].
      intros [= _ Ht]. by apply (IH t).
Qed.

Lemma rstrip_first c s :
  Py.isspace c = false → ∃ t, Py.rstrip (String c s) = String c t.
Proof.
  intros Hc. simpl. destruct (Py.rstrip s); [|by eexists].
  rewrite Hc. by eexists.
Qed.

(** [s.strip()] is [s] without the whitespace at its two ends. *)
Lemma strip_trimmed s : trimmed s (Py.strip s).
Proof.
  destruct (lstrip_decompose s) as (l & Hl & Hlsp).
  destruct (rstrip_decompose (Py.lstrip s)) as (r & Hr & Hrsp).
  exists l, r. unfold Py.strip. split_and!; [by rewrite <- Hr|done..| |].
  - intros c t Hs. destruct (Py.lstrip s) as [|a x] eqn:Hx; [done|].
    pose proof (lstrip_first _ _ _ Hx) as Ha.
    destruct (rstrip_first a x Ha) as [t' Ht']. rewrite Ht' in Hs.
    by injection Hs as <- _.
  - intros t c. apply rstrip_last.
Qed.

Lemma dirhash_of_ok p h :
  dirhash_of p = Ok h →
  returncode p = 0%Z ∧ ∃ out, stdout p = Some out ∧ trimmed out h.
Proof.
  unfold dirhash_of. destruct (Z.eqb_spec (returncode p) 0) as [Hz|Hnz]; simpl; [|done].
  destruct (stdout p) as [out|]; [|done]. intros [= <-]. split; [done|].
  exists out. split; [done|]. apply strip_trimmed.
Qed.

(** ** Errors *)

(** C8, as the code has it.  In the existence check, a [ClientError] of [load]
    with code ['404'] is caught and the check answers that the object does not
    exist ([None] here); a [ClientError] with any other code is raised again;
    without error the check answers that the object exists.  [dirhash] raises
    a [MirrorError] when [dirhasher] exits with another code than 0.  When it
    exits with 0 and its output is valid UTF-8, [dirhash] returns that output
    without the whitespace at its two ends; when the output is not valid
    UTF-8, [dirhash] raises a [UnicodeDecodeError].  Each of these errors
    aborts the run: when [dirhasher] fails on an input archive or its output
    is not valid UTF-8, or the existence check of its mirror object gets
    another error than ['404'], [main] raises. *)
Theorem errors_of_the_checks :
  (∀ E obj w w',
     load E obj w = (Raise (ClientError "404"), w') →
     object_exists E obj w = (Ok None, w')) ∧
  (∀ E obj w w' code,
     load E obj w = (Raise (ClientError code), w') → code ≠ "404" →
     object_exists E obj w = (Raise (ClientError code), w')) ∧
  (∀ E obj w w' o,
     load E obj w = (Ok o, w') → object_exists E obj w = (Ok (Some o), w')) ∧
  (∀ E path w,
     returncode (dirhasher E path) ≠ 0%Z →
     Local.dirhash E path w
     = (Raise (MirrorError ("dirhasher failed with code: "
                            +:+ pretty (returncode (dirhasher E path)))), w)) ∧
  (∀ E path w out,
     returncode (dirhasher E path) = 0%Z → stdout (dirhasher E path) = Some out →
     ∃ h, Local.dirhash E path w = (Ok h, w) ∧ trimmed out h) ∧
  (∀ E path w,
     returncode (dirhasher E path) = 0%Z → stdout (dirhasher E path) = None →
     Local.dirhash E path w = (Raise UnicodeDecodeError, w)) ∧
  (∀ E argv w a,
     let bp := parse_bucket_and_prefix (argv !!! 1) in
     grouped (Local.gather (drop 2 argv)) a →
     returncode (dirhasher E (Local.path a)) ≠ 0%Z ∨
     stdout (dirhasher E (Local.path a)) = None ∨
     (∃ code, object_error E (local_mirror_obj bp.1 bp.2 a) = Some code ∧
              code ≠ "404") →
     ∃ e w', Local.main E argv w = (Raise e, w')).
Proof.
  split_and!.
  - intros E obj w w' Hload.
    unfold object_exists, try_except_ClientError, mbind, M_bind. by rewrite Hload.
  - intros E obj w w' code Hload Hcode.
    unfold object_exists, try_except_ClientError, mbind, M_bind. rewrite Hload.
    by destruct (String.eqb_spec code "404").
  - intros E obj w w' o Hload.
    unfold object_exists, try_except_ClientError, mbind, M_bind. by rewrite Hload.
  - intros E path w Hcode. unfold Local.dirhash, lift, dirhash_of.
    by destruct (Z.eqb_spec (returncode (dirhasher E path)) 0).
  - intros E path w out Hcode Hout. unfold Local.dirhash, lift, dirhash_of.
    rewrite Hcode, Hout. simpl. exists (Py.strip out). split; [done|].
    apply strip_trimmed.
  - intros E path w Hcode Hout. unfold Local.dirhash, lift, dirhash_of.
    by rewrite Hcode, Hout.
  - intros E argv w a bp Ha Hfail.
    destruct (Local.main E argv w) as [[[]|e] w'] eqn:Hrun; [|by eauto].
    destruct (local_main_ok _ _ _ _ Hrun) as [Hsync _]. fold bp in Hsync.
    pose proof (local_loops_documents E bp.1 bp.2 (Local.gather (drop 2 argv)) True
                  (or_introl I) w) as Hok.
    rewrite post_partial in Hok.
    destruct (Hok _ _ Hsync) as [Hall _].
    destruct (Hall a Ha) as [[h Hh] Herr].
    destruct Hfail as [Hcode|[Hout|(code & Hcode & Hne)]].
    + unfold dirhash_of in Hh.
      by destruct (Z.eqb_spec (returncode (dirhasher E (Local.path a))) 0).
    + unfold dirhash_of in Hh. rewrite Hout in Hh.
      by destruct (negb _).
    + by destruct Hne, (Herr code).
Qed.

Lemma errors_of_the_checks_witness :
  object_exists named_fingerprints ("mirror", "registry/pkg_1.0.0_linux_amd64.zip")
    empty_store
  = (Ok None, empty_store) ∧
  object_exists access_denied ("mirror", "registry/pkg_1.0.0_linux_amd64.zip")
    empty_store
  = (Raise (ClientError "403"), empty_store) ∧
  Local.dirhash failing_dirhasher "pkg_1.0.0_linux_amd64.zip" empty_store
  = (Raise (MirrorError "dirhasher failed with code: 2"), empty_store) ∧
  (∃ h, Local.dirhash (example_env (λ _, "  h1:abc" +:+ Json.nl))
          "pkg_1.0.0_linux_amd64.zip" empty_store = (Ok h, empty_store) ∧
        trimmed ("  h1:abc" +:+ Json.nl) h) ∧
  (∃ e w', Local.main failing_dirhasher
             ["prog"; "mirror/registry/"; "pkg_1.0.0_linux_amd64.zip"] empty_store
           = (Raise e, w')).
Proof.
  destruct errors_of_the_checks as (H404 & Hother & _ & Hfail & Htrim & _ & Habort).
  split_and!.
  - apply H404. reflexivity.
  - apply Hother; [reflexivity | discriminate].
  - apply (Hfail failing_dirhasher). discriminate.
  - apply (Htrim (example_env (λ _, "  h1:abc" +:+ Json.nl))); reflexivity.
  - apply (Habort failing_dirhasher _ empty_store
             (Local.mkArchive "pkg_1.0.0_linux_amd64.zip" "pkg_1.0.0_linux_amd64.zip"
                "pkg" "1.0.0" "linux" "amd64")).
    + exists "pkg", "1.0.0". vm_compute. reflexivity.
    + left. discriminate.
Defined.

(** C8 as stated fails when [dirhasher] exits with 0 and its output is not
    valid UTF-8: [dirhash] returns no fingerprint, it raises a
    [UnicodeDecodeError], which is no [MirrorError], so that the script does
    not catch it. *)
Lemma errors_of_the_checks_counterexample :
  returncode (dirhasher undecodable_output "pkg_1.0.0_linux_amd64.zip") = 0%Z ∧
  Local.dirhash undecodable_output "pkg_1.0.0_linux_amd64.zip" empty_store
  = (Raise UnicodeDecodeError, empty_store) ∧
  (script (Local.main undecodable_output)
     ["prog"; "mirror/registry/"; "pkg_1.0.0_linux_amd64.zip"] empty_store).1
  = Uncaught UnicodeDecodeError ∧
  ¬ (∀ E path w, returncode (dirhasher E path) = 0%Z →
                 ∃ h, Local.dirhash E path w = (Ok h, w)).
Proof.
  split_and!; [reflexivity..| |].
  - vm_compute. reflexivity.
  - intros Hclaim.
    destruct (Hclaim undecodable_output "pkg_1.0.0_linux_amd64.zip" empty_store)
      as [h Hh]; [reflexivity|]. discriminate Hh.
Qed.

(** ** The order of [sorted] on archives *)

Lemma string_compare_refl (s : string) : String.compare s s = Eq.
Proof.
  pose proof (String.compare_antisym s s) as H.
  destruct (String.compare s s); done.
Qed.

Lemma string_compare_lt_trans (s1 s2 s3 : string) :
  String.compare s1 s2 = Lt → String.compare s2 s3 = Lt → String.compare s1 s3 = Lt.
Proof.
  intros H12 H23.
  assert (Hle : String.le s1 s3).
  { trans s2; unfold String.le, String.leb; by rewrite ?H12, ?H23. }
  unfold String.le, String.leb in Hle.
  destruct (String.compare s1 s3) eqn:H13; [|done..].
  apply String.compare_eq_iff in H13 as ->.
  rewrite String.compare_antisym, H23 in H12. done.
Qed.

Lemma tuple_compare_eq t1 t2 : tuple_compare t1 t2 = Eq → t1 = t2.
Proof.
  revert t2. induction t1 as [|x t1 IH]; intros [|y t2]; simpl; try done.
  destruct (String.compare x y) eqn:Hxy; try done.
  apply String.compare_eq_iff in Hxy as ->. intros ?%IH. by subst.
Qed.

Lemma tuple_compare_refl t : tuple_compare t t = Eq.
Proof. induction t as [|x t IH]; simpl; [done|]. by rewrite string_compare_refl. Qed.

Lemma tuple_compare_antisym t1 t2 :
  tuple_compare t1 t2 = CompOpp (tuple_compare t2 t1).
Proof.
  revert t2. induction t1 as [|x t1 IH]; intros [|y t2]; simpl; try done.
  rewrite (String.compare_antisym x y).
  destruct (String.compare y x); simpl; [apply IH|done..].
Qed.

Lemma tuple_compare_lt_trans t1 t2 t3 :
  tuple_compare t1 t2 = Lt → tuple_compare t2 t3 = Lt → tuple_compare t1 t3 = Lt.
Proof.
  revert t2 t3. induction t1 as [|x t1 IH]; intros [|y t2] [|z t3]; simpl; try done.
  destruct (String.compare x y) eqn:Hxy; try done.
  - apply String.compare_eq_iff in Hxy as ->.
    destruct (String.compare y z); try done. apply IH.
  - intros _. destruct (String.compare y z) eqn:Hyz; try done.
    + apply String.compare_eq_iff in Hyz as ->. by rewrite Hxy.
    + by rewrite (string_compare_lt_trans x y z).
Qed.

Global Instance tuple_le_total : Total tuple_le.
Proof.
  intros t1 t2. unfold tuple_le. rewrite (tuple_compare_antisym t2 t1).
  destruct (tuple_compare t1 t2); simpl; auto.
Qed.

Global Instance tuple_le_trans : Transitive tuple_le.
Proof.
  intros t1 t2 t3. unfold tuple_le.
  destruct (tuple_compare t1 t2) eqn:H12; [|..|done].
  - by apply tuple_compare_eq in H12 as ->.
  - destruct (tuple_compare t2 t3) eqn:H23; [|..|done].
    + apply tuple_compare_eq in H23 as ->. by rewrite H12.
    + by rewrite (tuple_compare_lt_trans t1 t2 t3).
Qed.

Lemma tuple_le_antisym t1 t2 : tuple_le t1 t2 → tuple_le t2 t1 → t1 = t2.
Proof.
  unfold tuple_le. rewrite (tuple_compare_antisym t2 t1).
  destruct (tuple_compare t1 t2) eqn:H12; simpl; try done.
  intros _ _. by apply tuple_compare_eq.
Qed.

Global Instance local_archive_le_total : Total Local.archive_le.
Proof. intros a b. apply tuple_le_total. Qed.

Global Instance local_archive_le_trans : Transitive Local.archive_le.
Proof. intros a b c. apply tuple_le_trans. Qed.

Lemma local_archive_le_antisym a b :
  Local.archive_le a b → Local.archive_le b a → a = b.
Proof.
  intros Hab Hba. pose proof (tuple_le_antisym _ _ Hab Hba) as Heq.
  destruct a, b. by injection Heq as -> -> -> -> -> ->.
Qed.

(** The paths decide, when they differ. *)
Lemma local_archive_le_path a b :
  String.compare (Local.path a) (Local.path b) = Lt →
  Local.archive_le a b ∧ ¬ Local.archive_le b a.
Proof.
  intros Hlt. unfold Local.archive_le, tuple_le. simpl.
  rewrite Hlt, (String.compare_antisym (Local.path b)), Hlt. simpl. split; [done|].
  by intros [].
Qed.

(** ** Archives of one platform in one version *)

Section last_wins.
Context {A : Type} (os_arch url_of : A → string) (h : A → string).

Lemma version_data_of_other k l :
  (∀ b, b ∈ l → os_arch b ≠ k) →
  ∀ acc : gmap string entry,
    foldl (λ vd a, <[os_arch a := mkEntry [h a] (url_of a)]> vd) acc l !! k = acc !! k.
Proof.
  induction l as [|x l IH]; intros Hl acc; [done|]. simpl.
  rewrite IH.
  - apply lookup_insert_ne, Hl. by left.
  - intros b Hb. apply Hl. by right.
Qed.

(** The archive of a platform that comes last gives the entry. *)
Lemma version_data_of_last l1 a l2 :
  (∀ b, b ∈ l2 → os_arch b ≠ os_arch a) →
  version_data_of os_arch url_of h (l1 ++ a :: l2) !! os_arch a
  = Some (mkEntry [h a] (url_of a)).
Proof.
  intros Hl2. unfold version_data_of. rewrite foldl_app. simpl.
  rewrite version_data_of_other by done. apply lookup_insert_eq.
Qed.

End last_wins.

Lemma local_greatest_wins (h : Local.Archive → string) (s : gset Local.Archive) a :
  a ∈ s →
  (∀ b, b ∈ s → Local.os_arch b = Local.os_arch a → Local.archive_le b a) →
  version_data_of Local.os_arch Local.file_name h (Local.sorted_archives s)
    !! Local.os_arch a
  = Some (mkEntry [h a] (Local.file_name a)).
Proof.
  intros Ha Hmax.
  assert (Hsorted : StronglySorted Local.archive_le (Local.sorted_archives s)).
  { apply StronglySorted_merge_sort; apply _. }
  assert (Hnodup : NoDup (Local.sorted_archives s)).
  { unfold Local.sorted_archives. rewrite merge_sort_Permutation. apply NoDup_elements. }
  apply local_sorted_archives_elem, list_elem_of_split in Ha as (l1 & l2 & Hl).
  assert (Hin : ∀ b, b ∈ l2 → b ∈ s).
  { intros b Hb. apply local_sorted_archives_elem. rewrite Hl.
    apply elem_of_app. right. by right. }
  rewrite Hl in Hsorted, Hnodup |- *.
  apply version_data_of_last. intros b Hb Heq.
  apply StronglySorted_app in Hsorted as (_ & _ & Hsorted).
  apply StronglySorted_cons in Hsorted as [Hle _].
  rewrite Forall_forall in Hle.
  assert (a = b) as <-.
  { apply local_archive_le_antisym; [by apply Hle | by apply Hmax; [apply Hin|]]. }
  apply NoDup_app in Hnodup as (_ & _ & Hnodup).
  by apply NoDup_cons in Hnodup as [? _].
Qed.

Lemma elem_of_documents {A : Type} `{Countable A} (sort : gset A → list A)
    (os_arch url_of : A → string) bucket out_prefix h
    (pv : gmap string (gmap string (gset A))) p v :
  p ∈ sorted_keys pv → v ∈ sorted_keys (pv !!! p) →
  version_document sort os_arch url_of bucket out_prefix h v ((pv !!! p) !!! v)
  ∈ documents sort os_arch url_of bucket out_prefix h pv (sorted_keys pv).
Proof.
  intros Hp Hv. unfold documents. apply list_elem_of_In, in_concat.
  exists (provider_documents sort os_arch url_of bucket out_prefix h (pv !!! p)). split.
  - apply list_elem_of_In, list_elem_of_fmap. by exists p.
  - apply list_elem_of_In. unfold provider_documents, version_documents.
    apply elem_of_app. left. apply list_elem_of_fmap. by exists v.
Qed.

(** C9, as the code has it.  Inputs at different paths are different members
    of the grouping, also when they parse to the same provider, version,
    platform and architecture, since an [Archive] includes its path; all of
    them are copied to the one mirror object of their file name, in the order
    of [sorted], that is by path.  The version document that the run puts has
    one entry for a platform, and it is the entry of the archive that is the
    greatest in this order among the archives of the platform: the one with
    the greatest path, wherever it occurs in the input. *)
Theorem duplicate_tuple_greatest_path_wins E argv w w' :
  Local.main E argv w = (Ok tt, w') →
  let bp := parse_bucket_and_prefix (argv !!! 1) in
  let pv := Local.gather (drop 2 argv) in
  (∀ p1 p2 a1 a2,
     p1 ∈ drop 2 argv → p2 ∈ drop 2 argv →
     Local.parse p1 = Some a1 → Local.parse p2 = Some a2 → p1 ≠ p2 →
     a1 ≠ a2 ∧
     a1 ∈ (pv !!! Local.provider a1) !!! Local.version a1 ∧
     a2 ∈ (pv !!! Local.provider a2) !!! Local.version a2) ∧
  (∃ new, writes w' = writes w ++ new ∧
     ∀ p v a, a ∈ (pv !!! p) !!! v →
       version_document Local.sorted_archives Local.os_arch Local.file_name
         bp.1 bp.2 (local_fingerprint E) v ((pv !!! p) !!! v) ∈ puts new) ∧
  (∀ p v a,
     a ∈ (pv !!! p) !!! v →
     (∀ b, b ∈ (pv !!! p) !!! v → Local.os_arch b = Local.os_arch a →
           Local.archive_le b a) →
     version_data_of Local.os_arch Local.file_name (local_fingerprint E)
       (Local.sorted_archives ((pv !!! p) !!! v)) !! Local.os_arch a
     = Some (mkEntry [local_fingerprint E a] (Local.file_name a))) ∧
  (∀ a b, String.compare (Local.path a) (Local.path b) = Lt →
          Local.archive_le a b ∧ ¬ Local.archive_le b a).
Proof.
  intros Hrun bp pv.
  destruct (local_main_ok _ _ _ _ Hrun) as [Hsync _]. fold bp pv in Hsync.
  split_and!.
  - intros p1 p2 a1 a2 Hp1 Hp2 Ha1 Ha2 Hne.
    destruct (local_parse_inv _ _ Ha1) as (_ & Hpath1 & _).
    destruct (local_parse_inv _ _ Ha2) as (_ & Hpath2 & _).
    split_and!.
    + intros ->. congruence.
    + apply elem_of_gather_from. right. by exists p1.
    + apply elem_of_gather_from. right. by exists p2.
  - pose proof (local_loops_documents E bp.1 bp.2 pv True (or_introl I) w) as Hdocs.
    rewrite post_partial in Hdocs.
    destruct (Hdocs _ _ Hsync) as (_ & new & Hw & Hp).
    exists new. split; [done|]. intros p v a Ha. rewrite Hp.
    destruct (grouped_keys pv p v a Ha). by apply elem_of_documents.
  - intros p v a Ha Hmax. by apply local_greatest_wins.
  - apply local_archive_le_path.
Qed.

Lemma duplicate_tuple_greatest_path_wins_witness :
  let argv := ["prog"; "mirror/registry/"; "b/pkg_1.0.0_linux_amd64.zip";
               "a/pkg_1.0.0_linux_amd64.zip"] in
  let a := Local.mkArchive "a/pkg_1.0.0_linux_amd64.zip" "pkg_1.0.0_linux_amd64.zip"
             "pkg" "1.0.0" "linux" "amd64" in
  let b := Local.mkArchive "b/pkg_1.0.0_linux_amd64.zip" "pkg_1.0.0_linux_amd64.zip"
             "pkg" "1.0.0" "linux" "amd64" in
  a ≠ b ∧
  version_data_of Local.os_arch Local.file_name (local_fingerprint named_fingerprints)
    (Local.sorted_archives ((Local.gather (drop 2 argv) !!! "pkg") !!! "1.0.0"))
    !! "linux_amd64"
  = Some (mkEntry ["h1:b/pkg_1.0.0_linux_amd64.zip"] "pkg_1.0.0_linux_amd64.zip").
Proof.
  intros argv a b.
  destruct (duplicate_tuple_greatest_path_wins named_fingerprints argv empty_store
              (Local.main named_fingerprints argv empty_store).2)
    as (Hmembers & _ & Hentry & _).
  - vm_compute. reflexivity.
  - split.
    + refine (proj1 (Hmembers "a/pkg_1.0.0_linux_amd64.zip" "b/pkg_1.0.0_linux_amd64.zip"
                       a b _ _ _ _ _)).
      * vm_compute. right. left.
      * vm_compute. left.
      * vm_compute. reflexivity.
      * vm_compute. reflexivity.
      * discriminate.
    + refine (Hentry "pkg" "1.0.0" b _ _).
      * vm_compute. reflexivity.
      * intros c Hc _.
        assert (Hcases : c = a ∨ c = b).
        { apply elem_of_gather_from in Hc as [Hc|(k & Hk & Hparse & _)].
          - rewrite lookup_total_versions, lookup_empty in Hc. simpl in Hc.
            rewrite lookup_total_archives, lookup_empty in Hc.
            by apply elem_of_empty in Hc.
          - simpl in Hk. rewrite !elem_of_cons, elem_of_nil in Hk.
            destruct Hk as [->|[->|[]]]; vm_compute in Hparse;
              injection Hparse as <-; auto. }
        destruct Hcases as [-> | ->]; vm_compute; discriminate.
Defined.

(** C9 as stated fails: for the inputs [b/pkg_1.0.0_linux_amd64.zip] and then
    [a/pkg_1.0.0_linux_amd64.zip], the grouping has two members, and the entry
    of the version document is the one of the first input, whose path is
    greater. *)
Lemma duplicate_tuple_counterexample :
  let argv := ["prog"; "mirror/registry/"; "b/pkg_1.0.0_linux_amd64.zip";
               "a/pkg_1.0.0_linux_amd64.zip"] in
  size ((Local.gather (drop 2 argv) !!! "pkg") !!! "1.0.0") = 2 ∧
  (Local.main named_fingerprints argv empty_store).1 = Ok tt ∧
  puts (writes (Local.main named_fingerprints argv empty_store).2)
  = [PutObject "mirror" "registry/1.0.0.json"
       (Json.dumps
          (version_json
             {[ "linux_amd64" :=
                  mkEntry ["h1:b/pkg_1.0.0_linux_amd64.zip"]
                    "pkg_1.0.0_linux_amd64.zip" ]}))
       "application/json";
     PutObject "mirror" "registry/index.json" index_1_0_0 "application/json"].
Proof.
  split_and!; vm_compute; reflexivity.
Qed.

(** * Further properties *)

(** ** The bucket and the prefix of an argument *)

(** The first occurrence of a character splits a string that has it. *)
Lemma first_char_decompose c s :
  Py.contains c s = true →
  ∃ x y, s = x +:+ String c y ∧ Py.contains c x = false.
Proof.
  induction s as [|a s IH]; simpl; [done|].
  destruct (Ascii.eqb a c) eqn:Ha; simpl.
  - apply Ascii.eqb_eq in Ha as ->. intros _. by exists EmptyString, s.
  - intros (x & y & -> & Hx)%IH. exists (String a x), y. split; [done|].
    simpl. by rewrite Ha.
Qed.

Lemma split_once sep x y :
  Py.contains sep x = false →
  Py.split sep (Some 1) (x +:+ String sep y) = [x; y].
Proof. intros Hx. by rewrite split_first, split_zero. Qed.

(** X1: [parse_bucket_and_prefix] cuts its argument at the first ['/']: the
    bucket has no ['/']; an argument with a ['/'] is the bucket, the ['/'] and
    the prefix, and an argument without one is the bucket, with the empty
    prefix. *)
Theorem parse_bucket_and_prefix_parts (v : string) :
  let bp := parse_bucket_and_prefix v in
  Py.contains "/" bp.1 = false ∧
  (if Py.contains "/" v then v = bp.1 +:+ "/" +:+ bp.2
   else bp.1 = v ∧ bp.2 = EmptyString).
Proof.
  unfold parse_bucket_and_prefix.
  destruct (Py.contains "/" v) eqn:Hv.
  - destruct (first_char_decompose _ _ Hv) as (x & y & -> & Hx).
    by rewrite split_once.
  - by rewrite split_no_sep.
Qed.

(** X2: a bucket name without ['/'] and a prefix, joined by ['/'], are
    recovered by [parse_bucket_and_prefix], whatever the prefix is (it may be
    empty and may have ['/']); the bucket name alone gives the empty
    prefix. *)
Theorem parse_bucket_and_prefix_inverse (bucket prefix : string) :
  Py.contains "/" bucket = false →
  parse_bucket_and_prefix (bucket +:+ "/" +:+ prefix) = (bucket, prefix) ∧
  parse_bucket_and_prefix bucket = (bucket, EmptyString).
Proof.
  intros Hb. unfold parse_bucket_and_prefix. split.
  - change (bucket +:+ "/" +:+ prefix) with (bucket +:+ String "/" prefix).
    by rewrite split_once.
  - by rewrite split_no_sep.
Qed.

Lemma parse_bucket_and_prefix_inverse_witness :
  parse_bucket_and_prefix "my-mirror-bucket/registry.terraform.io/hashicorp/aws/"
  = ("my-mirror-bucket", "registry.terraform.io/hashicorp/aws/") ∧
  parse_bucket_and_prefix "my-mirror-bucket" = ("my-mirror-bucket", EmptyString).
Proof.
  apply (parse_bucket_and_prefix_inverse "my-mirror-bucket"
           "registry.terraform.io/hashicorp/aws/").
  reflexivity.
Defined.

(** ** What a parsed archive is *)

Lemma archive_name_no_slash key r :
  Remote.parse key = Some r → Py.contains "/" (Remote.file_name r) = false.
Proof.
  intros (_ & _ & -> & _)%remote_parse_inv.
  by destruct (last_item_split key) as [? _].
Qed.

(** The parts of a well-formed name are read off the name. *)
Lemma archive_name_inj p1 v1 o1 a1 p2 v2 o2 a2 :
  well_formed p1 v1 o1 a1 → well_formed p2 v2 o2 a2 →
  archive_name p1 v1 o1 a1 = archive_name p2 v2 o2 a2 →
  p1 = p2 ∧ v1 = v2 ∧ o1 = o2 ∧ a1 = a2.
Proof.
  intros Hwf1 Hwf2 Hname.
  assert (Hsplit : [p1; v1; o1; a1] = [p2; v2; o2; a2]).
  { rewrite <- (split_stem _ _ _ _ Hwf1), <- (split_stem _ _ _ _ Hwf2).
    f_equal. rewrite <- (slice_zip (p1 +:+ _)), <- archive_name_stem, Hname.
    by rewrite archive_name_stem, slice_zip. }
  by injection Hsplit.
Qed.

(** X3: what a parser returns is the archive name again.  When a path or key
    parses, the file name of the record is its last component (it has no
    ['/']), the four parts are not empty, the first three have no underscore,
    and the file name is [{provider}_{version}_{os}_{arch}.zip] of the parts
    returned; so parsing the file name alone returns the same parts. *)
Theorem parse_file_name :
  (∀ s r, Local.parse s = Some r →
     Local.path r = s ∧
     Py.contains "/" (Local.file_name r) = false ∧
     (s = Local.file_name r ∨ ∃ dir, s = dir +:+ "/" +:+ Local.file_name r) ∧
     well_formed (Local.provider r) (Local.version r) (Local.os r) (Local.arch r) ∧
     Local.file_name r
     = archive_name (Local.provider r) (Local.version r) (Local.os r) (Local.arch r) ∧
     Local.parse (Local.file_name r)
     = Some (Local.mkArchive (Local.file_name r) (Local.file_name r)
               (Local.provider r) (Local.version r) (Local.os r) (Local.arch r))) ∧
  (∀ s r, Remote.parse s = Some r →
     Remote.key r = s ∧
     Py.contains "/" (Remote.file_name r) = false ∧
     (s = Remote.file_name r ∨ ∃ dir, s = dir +:+ "/" +:+ Remote.file_name r) ∧
     well_formed (Remote.provider r) (Remote.version r) (Remote.os r) (Remote.arch r) ∧
     Remote.file_name r
     = archive_name (Remote.provider r) (Remote.version r) (Remote.os r)
         (Remote.arch r) ∧
     Remote.parse (Remote.file_name r)
     = Some (Remote.mkArchive (Remote.file_name r) (Remote.file_name r)
               (Remote.provider r) (Remote.version r) (Remote.os r) (Remote.arch r))).
Proof.
  assert (Hremote : ∀ s r, Remote.parse s = Some r →
     Remote.key r = s ∧
     Py.contains "/" (Remote.file_name r) = false ∧
     (s = Remote.file_name r ∨ ∃ dir, s = dir +:+ "/" +:+ Remote.file_name r) ∧
     well_formed (Remote.provider r) (Remote.version r) (Remote.os r) (Remote.arch r) ∧
     Remote.file_name r
     = archive_name (Remote.provider r) (Remote.version r) (Remote.os r)
         (Remote.arch r) ∧
     Remote.parse (Remote.file_name r)
     = Some (Remote.mkArchive (Remote.file_name r) (Remote.file_name r)
               (Remote.provider r) (Remote.version r) (Remote.os r) (Remote.arch r))).
  { intros s r Hr.
    pose proof (archive_name_no_slash _ _ Hr) as Hslash.
    destruct (remote_parse_inv _ _ Hr) as (Hwf & Hkey & Hlast & Hname).
    destruct (last_item_split s) as [_ Hdir]. rewrite <- Hlast in Hdir.
    split_and!; try done.
    rewrite Hname at 1 2 3. rewrite Hname in Hslash.
    apply remote_parse_some; [done|]. by rewrite split_no_sep. }
  split; [|done].
  intros s r Hr. rewrite local_parse_remote in Hr.
  destruct (Remote.parse s) as [r'|] eqn:Hr'; [|done].
  injection Hr as <-. simpl.
  destruct (Hremote _ _ Hr') as (_ & ? & ? & ? & ? & Hagain).
  split_and!; try done.
  by rewrite local_parse_remote, Hagain.
Qed.

Lemma parse_file_name_witness :
  Local.parse "pkg_1.0.0_linux_amd64.zip"
  = Some (Local.mkArchive "pkg_1.0.0_linux_amd64.zip" "pkg_1.0.0_linux_amd64.zip"
            "pkg" "1.0.0" "linux" "amd64") ∧
  Remote.parse "pkg_1.0.0_linux_amd64.zip"
  = Some (Remote.mkArchive "pkg_1.0.0_linux_amd64.zip" "pkg_1.0.0_linux_amd64.zip"
            "pkg" "1.0.0" "linux" "amd64").
Proof.
  split.
  - refine (proj2 (proj2 (proj2 (proj2 (proj2
              (proj1 parse_file_name "dist/pkg_1.0.0_linux_amd64.zip"
                 (Local.mkArchive "dist/pkg_1.0.0_linux_amd64.zip"
                    "pkg_1.0.0_linux_amd64.zip" "pkg" "1.0.0" "linux" "amd64") _)))))).
    vm_compute. reflexivity.
  - refine (proj2 (proj2 (proj2 (proj2 (proj2
              (proj2 parse_file_name "aws/pkg_1.0.0_linux_amd64.zip"
                 (Remote.mkArchive "aws/pkg_1.0.0_linux_amd64.zip"
                    "pkg_1.0.0_linux_amd64.zip" "pkg" "1.0.0" "linux" "amd64") _)))))).
    vm_compute. reflexivity.
Defined.

(** The platform key [{os}_{arch}] determines its two parts, when the first
    has no underscore. *)
Lemma os_arch_inj o1 a1 o2 a2 :
  Py.contains "_" o1 = false → Py.contains "_" o2 = false →
  o1 +:+ "_" +:+ a1 = o2 +:+ "_" +:+ a2 → o1 = o2 ∧ a1 = a2.
Proof.
  intros H1 H2 Heq.
  assert (Hsplit : [o1; a1] = [o2; a2]).
  { rewrite <- (split_once "_" o1 a1 H1), <- (split_once "_" o2 a2 H2).
    f_equal. exact Heq. }
  by injection Hsplit.
Qed.

(** X4: the key of an archive in a version document, [{os}_{arch}], is the
    same for two parsed archives only if both their os and their arch are the
    same, although an arch may have underscores: entries of different
    platforms are never merged. *)
Theorem platform_keys_injective :
  (∀ s1 s2 r1 r2,
     Local.parse s1 = Some r1 → Local.parse s2 = Some r2 →
     Local.os_arch r1 = Local.os_arch r2 →
     Local.os r1 = Local.os r2 ∧ Local.arch r1 = Local.arch r2) ∧
  (∀ s1 s2 r1 r2,
     Remote.parse s1 = Some r1 → Remote.parse s2 = Some r2 →
     Remote.os_arch r1 = Remote.os_arch r2 →
     Remote.os r1 = Remote.os r2 ∧ Remote.arch r1 = Remote.arch r2).
Proof.
  split.
  - intros s1 s2 r1 r2 ([] & _)%local_parse_inv ([] & _)%local_parse_inv.
    by apply os_arch_inj.
  - intros s1 s2 r1 r2 ([] & _)%remote_parse_inv ([] & _)%remote_parse_inv.
    by apply os_arch_inj.
Qed.

Lemma platform_keys_injective_witness :
  let r1 := Local.mkArchive "a/pkg_1.0.0_linux_x86_64.zip" "pkg_1.0.0_linux_x86_64.zip"
              "pkg" "1.0.0" "linux" "x86_64" in
  let r2 := Local.mkArchive "b/pkg_2.0.0_linux_x86_64.zip" "pkg_2.0.0_linux_x86_64.zip"
              "pkg" "2.0.0" "linux" "x86_64" in
  Local.os r1 = Local.os r2 ∧ Local.arch r1 = Local.arch r2.
Proof.
  intros r1 r2.
  refine (proj1 platform_keys_injective "a/pkg_1.0.0_linux_x86_64.zip"
            "b/pkg_2.0.0_linux_x86_64.zip" r1 r2 _ _ _).
  - vm_compute. reflexivity.
  - vm_compute. reflexivity.
  - reflexivity.
Defined.

(** ** The keys of the mirror *)

Lemma last_item_split_app x y :
  Py.contains "/" y = false →
  Py.last_item (Py.split "/" None (x +:+ y))
  = Py.last_item (Py.split "/" None x) +:+ y.
Proof.
  intros Hy. destruct (last_item_split x) as [Hf Hx].
  set (f := Py.last_item (Py.split "/" None x)) in *.
  assert (Hfy : Py.contains "/" (f +:+ y) = false) by by rewrite contains_app, Hf, Hy.
  destruct Hx as [Hx | [d Hx]]; rewrite Hx at 1.
  - rewrite split_no_sep by done. done.
  - rewrite !str_app_assoc. by apply last_item_split_dir.
Qed.

(** X5: the mirror objects of two parsed archives are the same object exactly
    when their provider, version, os and arch are the same: archives that
    differ in one of the four never replace each other in the mirror, and
    those that agree in the four always share their mirror object, whatever
    their paths or keys are. *)
Theorem mirror_objects_collide_same_tuple :
  (∀ bucket out_prefix s1 s2 r1 r2,
     Local.parse s1 = Some r1 → Local.parse s2 = Some r2 →
     (local_mirror_obj bucket out_prefix r1 = local_mirror_obj bucket out_prefix r2
      ↔ Local.provider r1 = Local.provider r2 ∧ Local.version r1 = Local.version r2 ∧
        Local.os r1 = Local.os r2 ∧ Local.arch r1 = Local.arch r2)) ∧
  (∀ bucket out_prefix s1 s2 r1 r2,
     Remote.parse s1 = Some r1 → Remote.parse s2 = Some r2 →
     (remote_mirror_obj bucket out_prefix r1 = remote_mirror_obj bucket out_prefix r2
      ↔ Remote.provider r1 = Remote.provider r2 ∧ Remote.version r1 = Remote.version r2 ∧
        Remote.os r1 = Remote.os r2 ∧ Remote.arch r1 = Remote.arch r2)).
Proof.
  split.
  - intros bucket out_prefix s1 s2 r1 r2
      (Hwf1 & _ & _ & Hn1)%local_parse_inv (Hwf2 & _ & _ & Hn2)%local_parse_inv.
    unfold local_mirror_obj. split.
    + intros [= Heq%(inj (String.app out_prefix))].
      rewrite Hn1, Hn2 in Heq. by apply archive_name_inj.
    + intros (Hp & Hv & Ho & Ha). by rewrite Hn1, Hn2, Hp, Hv, Ho, Ha.
  - intros bucket out_prefix s1 s2 r1 r2 Hr1 Hr2.
    pose proof (archive_name_no_slash _ _ Hr1) as Hs1.
    pose proof (archive_name_no_slash _ _ Hr2) as Hs2.
    destruct (remote_parse_inv _ _ Hr1) as (Hwf1 & _ & _ & Hn1).
    destruct (remote_parse_inv _ _ Hr2) as (Hwf2 & _ & _ & Hn2).
    unfold remote_mirror_obj. split.
    + intros [= Heq%(inj (String.app out_prefix))].
      assert (Hf : Remote.file_name r1 = Remote.file_name r2).
      { rewrite <- (last_item_split_dir (Remote.version r1) _ Hs1).
        rewrite <- (last_item_split_dir (Remote.version r2) _ Hs2).
        by rewrite Heq. }
      rewrite Hn1, Hn2 in Hf. by apply archive_name_inj.
    + intros (Hp & Hv & Ho & Ha). by rewrite Hn1, Hn2, Hp, Hv, Ho, Ha.
Qed.

Lemma mirror_objects_collide_same_tuple_witness :
  local_mirror_obj "mirror" "registry/"
    (Local.mkArchive "a/pkg_1.0.0_linux_amd64.zip" "pkg_1.0.0_linux_amd64.zip"
       "pkg" "1.0.0" "linux" "amd64")
  = local_mirror_obj "mirror" "registry/"
      (Local.mkArchive "b/pkg_1.0.0_linux_amd64.zip" "pkg_1.0.0_linux_amd64.zip"
         "pkg" "1.0.0" "linux" "amd64").
Proof.
  refine (proj2 (proj1 mirror_objects_collide_same_tuple "mirror" "registry/"
                   "a/pkg_1.0.0_linux_amd64.zip" "b/pkg_1.0.0_linux_amd64.zip"
                   _ _ _ _) _).
  - vm_compute. reflexivity.
  - vm_compute. reflexivity.
  - by split_and!.
Defined.

(** X6: a mirror that the remote program has written can be read by it as a
    releases bucket: whatever the output prefix is, the mirror key of a parsed
    archive parses to the same file name, provider, version, os and arch, and
    the keys of the version and index documents do not parse. *)
Theorem mirror_key_parses_back bucket out_prefix key r :
  Remote.parse key = Some r →
  let mirror_key := (remote_mirror_obj bucket out_prefix r).2 in
  Remote.parse mirror_key
  = Some (Remote.mkArchive mirror_key (Remote.file_name r) (Remote.provider r)
            (Remote.version r) (Remote.os r) (Remote.arch r)) ∧
  Remote.parse (out_prefix +:+ Remote.version r +:+ ".json") = None ∧
  Remote.parse (out_prefix +:+ "index.json") = None.
Proof.
  intros Hr mirror_key.
  pose proof (archive_name_no_slash _ _ Hr) as Hslash.
  destruct (remote_parse_inv _ _ Hr) as (Hwf & _ & _ & Hname).
  assert (Hjson : ∀ x name, Py.contains "/" name = false →
                    Remote.parse (x +:+ name +:+ ".json") = None).
  { intros x name Hn. unfold Remote.parse.
    rewrite last_item_split_app by by rewrite contains_app, Hn.
    destruct (Py.endswith _ ".zip") eqn:Hzip; [|done].
    apply endswith_iff in Hzip as [y Hy]. rewrite <- str_app_assoc in Hy.
    symmetry in Hy. by apply zip_not_json in Hy. }
  split_and!.
  - unfold mirror_key, remote_mirror_obj. simpl.
    rewrite (remote_parse_some _ _ _ _ _ Hwf).
    + by rewrite <- Hname.
    + rewrite <- Hname, <- str_app_assoc. by apply last_item_split_dir.
  - apply Hjson.
    destruct (Py.contains "/" (Remote.version r)) eqn:Hv; [|done].
    rewrite Hname in Hslash. unfold archive_name in Hslash.
    rewrite !contains_app, Hv in Hslash. by rewrite !orb_true_r in Hslash.
  - exact (Hjson out_prefix "index" eq_refl).
Qed.

Lemma mirror_key_parses_back_witness :
  Remote.parse "registry/1.0.0/pkg_1.0.0_linux_amd64.zip"
  = Some (Remote.mkArchive "registry/1.0.0/pkg_1.0.0_linux_amd64.zip"
            "pkg_1.0.0_linux_amd64.zip" "pkg" "1.0.0" "linux" "amd64").
Proof.
  refine (proj1 (mirror_key_parses_back "mirror" "registry/"
                   "aws/pkg_1.0.0_linux_amd64.zip"
                   (Remote.mkArchive "aws/pkg_1.0.0_linux_amd64.zip"
                      "pkg_1.0.0_linux_amd64.zip" "pkg" "1.0.0" "linux" "amd64") _)).
  vm_compute. reflexivity.
Defined.

(** ** Runs, whatever their outcome *)

Section keeps_rules.
Context (P : world → Prop) (R : world → world → Prop).
Hypothesis R_refl : ∀ w, R w w.
Hypothesis R_trans : ∀ w1 w2 w3, R w1 w2 → R w2 w3 → R w1 w3.
Hypothesis P_R : ∀ w w', P w → R w w' → P w'.

Lemma keeps_ret {A} Qe (a : A) : keeps P R Qe (mret a).
Proof. intros w _. split; [apply R_refl|done]. Qed.

Lemma keeps_lift {A} (Qe : exn → Prop) (r : result A) :
  (∀ e, r = Raise e → Qe e) → keeps P R Qe (lift r).
Proof.
  intros Hr w _. split; [apply R_refl|]. simpl. destruct r; [done|]. by apply Hr.
Qed.

Lemma keeps_bind {A B} Qe (m : M A) (f : A → M B) :
  keeps P R Qe m → (∀ a, keeps P R Qe (f a)) → keeps P R Qe (m ≫= f).
Proof.
  intros Hm Hf w Hw. destruct (Hm w Hw) as [HR He].
  unfold mbind, M_bind. destruct (m w) as [[a|e] w1]; simpl in *; [|done].
  destruct (Hf a w1) as [HR' He']; [by eapply P_R|].
  split; [by eapply R_trans|done].
Qed.

Lemma keeps_mono {A} (Qe Qe' : exn → Prop) (m : M A) :
  keeps P R Qe m → (∀ e, Qe e → Qe' e) → keeps P R Qe' m.
Proof.
  intros Hm HQ w Hw. destruct (Hm w Hw) as [HR He]. split; [done|].
  destruct ((m w).1); [done|]. by apply HQ.
Qed.

Lemma keeps_foldM {A B} Qe (body : B → A → M B) l :
  (∀ acc x, x ∈ l → keeps P R Qe (body acc x)) →
  ∀ acc, keeps P R Qe (foldM body acc l).
Proof.
  induction l as [|x l IH]; intros Hbody acc; simpl.
  - apply keeps_ret.
  - apply keeps_bind; [apply Hbody; by left|].
    intros acc'. apply IH. intros acc'' y Hy. apply Hbody. by right.
Qed.

End keeps_rules.

(** The three loops keep what the copy step and the puts of documents keep,
    and raise what the copy step of an archive raises. *)
Section loops_keep.
Context {A : Type} `{Countable A}.
Context (sort : gset A → list A) (os_arch url_of : A → string).
Context (bucket out_prefix : string).
Context (copy : A → M (string * bool)).
Context (P : world → Prop) (R : world → world → Prop) (Qe : A → exn → Prop).
Context (pv : gmap string (gmap string (gset A))).

Hypothesis sort_elements : ∀ s a, a ∈ sort s ↔ a ∈ s.
Hypothesis R_refl : ∀ w, R w w.
Hypothesis R_trans : ∀ w1 w2 w3, R w1 w2 → R w2 w3 → R w1 w3.
Hypothesis P_R : ∀ w w', P w → R w w' → P w'.
Hypothesis copy_keeps : ∀ a, grouped pv a → keeps P R (Qe a) (copy a).
Hypothesis put_keeps :
  ∀ name body content_type w,
    R w (put (bucket, out_prefix +:+ name +:+ ".json") body content_type w).2.

Lemma put_document_keeps (Q : exn → Prop) name body content_type :
  keeps P R Q (put (bucket, out_prefix +:+ name +:+ ".json") body content_type).
Proof. intros w _. split; [apply put_keeps|done]. Qed.

Lemma loop_providers_keeps :
  keeps P R (λ e, ∃ a, grouped pv a ∧ Qe a e)
    (loop_providers sort os_arch url_of bucket out_prefix copy pv).
Proof.
  unfold loop_providers, for_each. apply keeps_foldM; [done..|].
  intros [] p Hp. apply keeps_bind; [done..| |].
  2:{ intros idx. apply (put_document_keeps _ "index"). }
  unfold loop_versions. apply keeps_foldM; [done..|].
  intros idx v Hv. apply keeps_bind; [done..| |].
  2:{ intros vd. apply keeps_bind; [done..| |].
      - apply put_document_keeps.
      - intros []. by apply keeps_ret. }
  unfold loop_archives. apply keeps_foldM; [done..|].
  intros vd a Ha%sort_elements. apply keeps_bind; [done..| |].
  - eapply keeps_mono; [apply copy_keeps; by exists p, v|].
    intros e He. exists a. split; [by exists p, v|done].
  - intros hc. by apply keeps_ret.
Qed.

End loops_keep.

(** ** The writes of a run stay in the mirror *)

Lemma prefix_app (p x : string) : String.prefix p (p +:+ x) = true.
Proof.
  induction p as [|a p IH]; str_simpl; [by destruct x|].
  simpl. by destruct (ascii_dec a a).
Qed.

Section within.
Context (bucket out_prefix : string).

Lemma writes_within_refl w : writes_within bucket out_prefix w w.
Proof. split_and!; [|done..]. exists []. by rewrite app_nil_r. Qed.

Lemma writes_within_trans w1 w2 w3 :
  writes_within bucket out_prefix w1 w2 → writes_within bucket out_prefix w2 w3 →
  writes_within bucket out_prefix w1 w3.
Proof.
  intros ((new1 & Hw1 & Hn1) & Hout1 & Hin1) ((new2 & Hw2 & Hn2) & Hout2 & Hin2).
  split_and!.
  - exists (new1 ++ new2). rewrite Hw2, Hw1, app_assoc. split; [done|].
    by apply Forall_app.
  - intros obj Hobj. by rewrite Hout2, Hout1.
  - intros obj Hobj. by apply Hin2, Hin1.
Qed.

Lemma writes_within_write w o x :
  under bucket out_prefix (target x) →
  writes_within bucket out_prefix w
    (mkWorld (<[target x := o]> (s3 w)) (writes w ++ [x])).
Proof.
  intros Hx. split_and!; simpl.
  - exists [x]. split; [done|]. by apply Forall_singleton.
  - intros obj Hobj. apply lookup_insert_ne. by intros <-.
  - intros obj Hobj. destruct (decide (target x = obj)) as [<-|Hne].
    + rewrite lookup_insert_eq. by eexists.
    + by rewrite lookup_insert_ne.
Qed.

Lemma under_prefix name : under bucket out_prefix (bucket, out_prefix +:+ name).
Proof. split; [done|]. apply prefix_app. Qed.

Lemma put_within name body content_type w :
  writes_within bucket out_prefix w
    (put (bucket, out_prefix +:+ name) body content_type w).2.
Proof.
  apply (writes_within_write w _ (PutObject bucket (out_prefix +:+ name) body content_type)).
  apply under_prefix.
Qed.

End within.

(** What the copy step of the local program raises for an archive. *)
Lemma local_copy_keeps E bucket out_prefix a :
  keeps (λ _, True) (writes_within bucket out_prefix)
    (λ e, dirhash_of (dirhasher E (Local.path a)) = Raise e ∨
          ∃ code, object_error E (local_mirror_obj bucket out_prefix a) = Some code ∧
                  code ≠ "404" ∧ e = ClientError code)
    (Local.copy_archive E (Local.path a) (local_mirror_obj bucket out_prefix a)).
Proof.
  intros w _. rewrite local_copy_archive_eq, object_exists_eq.
  destruct (dirhash_of _) as [h1|e]; simpl.
  2:{ split; [apply writes_within_refl|by left]. }
  destruct (object_error E _) as [code|] eqn:Herr.
  - destruct (String.eqb_spec code "404") as [->|Hcode]; simpl.
    + split; [|done].
      apply (writes_within_write _ _ _ _ (UploadFile _ _ _ _ _)), under_prefix.
    + split; [apply writes_within_refl|]. right. by exists code.
  - case_bool_decide; simpl; (split; [|done]); [apply writes_within_refl|].
    apply (writes_within_write _ _ _ _ (UploadFile _ _ _ _ _)), under_prefix.
Qed.

Lemma local_sync_keeps E bucket out_prefix pv :
  keeps (λ _, True) (writes_within bucket out_prefix)
    (λ e, ∃ a, grouped pv a ∧
       (dirhash_of (dirhasher E (Local.path a)) = Raise e ∨
        ∃ code, object_error E (local_mirror_obj bucket out_prefix a) = Some code ∧
                code ≠ "404" ∧ e = ClientError code))
    (Local.sync_providers E bucket out_prefix pv).
Proof.
  rewrite local_sync_providers_loops.
  apply (loop_providers_keeps Local.sorted_archives Local.os_arch Local.file_name
           bucket out_prefix _ (λ _, True) (writes_within bucket out_prefix)
           (λ a e, dirhash_of (dirhasher E (Local.path a)) = Raise e ∨
                   ∃ code, object_error E (local_mirror_obj bucket out_prefix a)
                           = Some code ∧ code ≠ "404" ∧ e = ClientError code)).
  - apply local_sorted_archives_elem.
  - apply writes_within_refl.
  - apply writes_within_trans.
  - done.
  - intros a _. apply local_copy_keeps.
  - intros name body ct w. apply put_within.
Qed.

Lemma remote_copy_keeps E rel_bucket bucket out_prefix a :
  keeps (source_exists rel_bucket a) (writes_within bucket out_prefix)
    (λ e, (∃ code, object_error E (remote_mirror_obj bucket out_prefix a) = Some code ∧
                   code ≠ "404" ∧ e = ClientError code) ∨
          (∃ code, object_error E (rel_bucket, Remote.key a) = Some code ∧
                   e = ClientError code) ∨
          (∃ src, dirhash_of (dirhasher E (body src)) = Raise e))
    (Remote.copy_archive E (rel_bucket, Remote.key a)
       (remote_mirror_obj bucket out_prefix a)).
Proof.
  intros w [src Hsrc]. rewrite remote_copy_archive_eq, object_exists_eq.
  assert (Hunder : under bucket out_prefix (remote_mirror_obj bucket out_prefix a)).
  { unfold remote_mirror_obj. apply under_prefix. }
  set (obj := remote_mirror_obj bucket out_prefix a) in *.
  assert (Hfetch : ∀ w0, s3 w0 !! (rel_bucket, Remote.key a) = Some src →
    let r := match fetch E (rel_bucket, Remote.key a) w0 with
             | (Raise e, w'') => (Raise e, w'')
             | (Ok src, w'') =>
                 match dirhash_of (dirhasher E (body src)) with
                 | Raise e => (Raise e, w'')
                 | Ok h1 =>
                     (@Ok (string * bool) (h1, true),
                      mkWorld
                        (<[obj := mkObject (body src)
                                    (<[DIRHASH_METADATA := h1]> (metadata src))]>
                           (s3 w''))
                        (writes w'' ++ [CopyFrom obj.1 obj.2 rel_bucket (Remote.key a)
                                          (<[DIRHASH_METADATA := h1]> (metadata src))]))
                 end
             end in
    writes_within bucket out_prefix w0 r.2 ∧
    match r.1 with
    | Ok _ => True
    | Raise e =>
        (∃ code, object_error E (rel_bucket, Remote.key a) = Some code ∧
                 e = ClientError code) ∨
        (∃ src, dirhash_of (dirhasher E (body src)) = Raise e)
    end).
  { intros w0 Hw0. unfold fetch. rewrite Hw0.
    destruct (object_error E (rel_bucket, Remote.key a)) as [code|]; simpl.
    { split; [apply writes_within_refl|]. left. by exists code. }
    destruct (dirhash_of (dirhasher E (body src))) as [h1|e] eqn:Hh; simpl.
    - split; [|done].
      apply (writes_within_write _ _ _ _ (CopyFrom obj.1 obj.2 _ _ _)), Hunder.
    - split; [apply writes_within_refl|]. right. by exists src. }
  destruct (object_error E obj) as [code|] eqn:Herr.
  - destruct (String.eqb_spec code "404") as [->|Hcode]; simpl.
    + destruct (Hfetch w Hsrc) as [HR He]. split; [done|].
      destruct (match fetch E _ w with (Raise e, w'') => _ | _ => _ end) as [[?|e] ?];
        simpl in *; [done|]. by right.
    + split; [apply writes_within_refl|]. left. by exists code.
  - destruct (cached_fingerprint (s3 w !! obj)); simpl.
    { split; [apply writes_within_refl|done]. }
    destruct (Hfetch w Hsrc) as [HR He]. split; [done|].
    destruct (match fetch E _ w with (Raise e, w'') => _ | _ => _ end) as [[?|e] ?];
      simpl in *; [done|]. by right.
Qed.

Lemma keeps_pre {A} (P P' : world → Prop) R Qe (m : M A) :
  (∀ w, P' w → P w) → keeps P R Qe m → keeps P' R Qe m.
Proof. intros HP Hm w Hw. by apply Hm, HP. Qed.

Lemma remote_sync_keeps E rel_bucket bucket out_prefix pv :
  keeps (λ w, ∀ a, grouped pv a → source_exists rel_bucket a w)
    (writes_within bucket out_prefix)
    (λ e, ∃ a, grouped pv a ∧
       ((∃ code, object_error E (remote_mirror_obj bucket out_prefix a) = Some code ∧
                 code ≠ "404" ∧ e = ClientError code) ∨
        (∃ code, object_error E (rel_bucket, Remote.key a) = Some code ∧
                 e = ClientError code) ∨
        (∃ src, dirhash_of (dirhasher E (body src)) = Raise e)))
    (Remote.sync_providers E rel_bucket bucket out_prefix pv).
Proof.
  rewrite remote_sync_providers_loops.
  apply (loop_providers_keeps Remote.sorted_archives Remote.os_arch remote_url
           bucket out_prefix _ _ (writes_within bucket out_prefix)
           (λ a e,
              (∃ code, object_error E (remote_mirror_obj bucket out_prefix a) = Some code ∧
                       code ≠ "404" ∧ e = ClientError code) ∨
              (∃ code, object_error E (rel_bucket, Remote.key a) = Some code ∧
                       e = ClientError code) ∨
              (∃ src, dirhash_of (dirhasher E (body src)) = Raise e))).
  - apply remote_sorted_archives_elem.
  - apply writes_within_refl.
  - apply writes_within_trans.
  - intros w w' Hw (_ & _ & Hin) a Ha. by apply Hin, Hw.
  - intros a Ha. eapply keeps_pre; [|apply remote_copy_keeps]. intros w Hw. by apply Hw.
  - intros name body ct w. apply put_within.
Qed.

Lemma elem_of_list_keys (bucket prefix : string)
    (objects : gmap (string * string) s3object) (k : string) :
  k ∈ list_keys bucket prefix objects
  ↔ is_Some (objects !! (bucket, k)) ∧ String.prefix prefix k = true.
Proof.
  unfold list_keys. rewrite list_elem_of_omap. split.
  - intros (bk & Hin & Hk).
    apply list_elem_of_fmap in Hin as ([bk' o] & Heq & Ho%elem_of_map_to_list).
    simpl in Heq. subst bk'. destruct bk as [b k']. simpl in Hk.
    case_bool_decide as Hb; simpl in Hk; [|done].
    destruct (String.prefix prefix k') eqn:Hp; [|done].
    injection Hk as <-. subst b. split; [by eexists|done].
  - intros [[o Ho] Hp]. exists (bucket, k). split.
    + apply list_elem_of_fmap. exists ((bucket, k), o). split; [done|].
      by apply elem_of_map_to_list.
    + simpl. by rewrite bool_decide_eq_true_2, Hp.
Qed.

Lemma dirhash_of_raise p e :
  dirhash_of p = Raise e →
  (returncode p ≠ 0%Z ∧
   e = MirrorError ("dirhasher failed with code: " +:+ pretty (returncode p))) ∨
  (returncode p = 0%Z ∧ stdout p = None ∧ e = UnicodeDecodeError).
Proof.
  unfold dirhash_of. destruct (Z.eqb_spec (returncode p) 0) as [Hz|Hnz]; simpl.
  - destruct (stdout p); [done|]. intros [= <-]. by right.
  - intros [= <-]. by left.
Qed.

(** The outcome of [main] of the local program. *)
Lemma local_main_keeps E argv w :
  let bp := parse_bucket_and_prefix (argv !!! 1) in
  let pv := Local.gather (drop 2 argv) in
  writes_within bp.1 bp.2 w (Local.main E argv w).2 ∧
  match (Local.main E argv w).1 with
  | Ok _ => True
  | Raise e =>
      (length argv < 3 ∧ (Local.main E argv w).2 = w ∧
       e = MirrorError ("usage: " +:+ argv !!! 0
                        +:+ " output-mirror-bucket/prefix provider-archive.zip...")) ∨
      (3 ≤ length argv ∧ (Local.main E argv w).2 = w ∧
       ∃ msg, head_bucket_error E bp.1 = Some msg ∧
              e = MirrorError ("Cannot access bucket " +:+ bp.1 +:+ ": " +:+ msg)) ∨
      (3 ≤ length argv ∧ head_bucket_error E bp.1 = None ∧
       ∃ a, grouped pv a ∧
         (dirhash_of (dirhasher E (Local.path a)) = Raise e ∨
          ∃ code, object_error E (local_mirror_obj bp.1 bp.2 a) = Some code ∧
                  code ≠ "404" ∧ e = ClientError code))
  end.
Proof.
  intros bp pv. rewrite local_main_eq. cbv zeta. fold bp pv.
  destruct (Nat.ltb_spec (length argv) 3) as [Hlen|Hlen]; simpl.
  { split; [apply writes_within_refl|]. by left. }
  destruct (head_bucket_error E bp.1) as [msg|] eqn:Hhead; simpl.
  { split; [apply writes_within_refl|]. right. left. split_and!; [done..|]. by exists msg. }
  destruct (local_sync_keeps E bp.1 bp.2 pv w I) as [HR He]. split; [done|].
  destruct (Local.sync_providers E bp.1 bp.2 pv w).1; [done|]. right. right. done.
Qed.

(** The outcome of [main] of the remote program. *)
Lemma remote_main_keeps E argv w :
  let rel := parse_bucket_and_prefix (argv !!! 1) in
  let mir := parse_bucket_and_prefix (argv !!! 2) in
  let pv := Remote.gather (list_keys rel.1 rel.2 (s3 w)) in
  writes_within mir.1 mir.2 w (Remote.main E argv w).2 ∧
  match (Remote.main E argv w).1 with
  | Ok _ => True
  | Raise e =>
      (length argv ≠ 3 ∧ (Remote.main E argv w).2 = w ∧
       e = MirrorError ("usage: " +:+ argv !!! 0
                        +:+ " input-releases-bucket/prefix output-mirror-bucket/prefix")) ∨
      (length argv = 3 ∧ (Remote.main E argv w).2 = w ∧
       ∃ msg, head_bucket_error E rel.1 = Some msg ∧
              e = MirrorError ("Cannot access bucket " +:+ rel.1 +:+ ": " +:+ msg)) ∨
      (length argv = 3 ∧ (Remote.main E argv w).2 = w ∧
       head_bucket_error E rel.1 = None ∧
       ∃ msg, head_bucket_error E mir.1 = Some msg ∧
              e = MirrorError ("Cannot access bucket " +:+ mir.1 +:+ ": " +:+ msg)) ∨
      (length argv = 3 ∧ head_bucket_error E rel.1 = None ∧
       head_bucket_error E mir.1 = None ∧
       ∃ a, grouped pv a ∧
         ((∃ code, object_error E (remote_mirror_obj mir.1 mir.2 a) = Some code ∧
                   code ≠ "404" ∧ e = ClientError code) ∨
          (∃ code, object_error E (rel.1, Remote.key a) = Some code ∧
                   e = ClientError code) ∨
          (∃ src, dirhash_of (dirhasher E (body src)) = Raise e)))
  end.
Proof.
  intros rel mir pv. rewrite remote_main_eq. cbv zeta. fold rel mir pv.
  destruct (Nat.eqb_spec (length argv) 3) as [Hlen|Hlen]; simpl.
  2:{ split; [apply writes_within_refl|]. by left. }
  destruct (head_bucket_error E rel.1) as [msg|] eqn:Hrel; simpl.
  { split; [apply writes_within_refl|]. right. left. split_and!; [done..|]. by exists msg. }
  destruct (head_bucket_error E mir.1) as [msg|] eqn:Hmir; simpl.
  { split; [apply writes_within_refl|]. right. right. left.
    split_and!; [done..|]. by exists msg. }
  unfold Remote.mirror. fold pv.
  destruct (remote_sync_keeps E rel.1 mir.1 mir.2 pv w) as [HR He].
  { intros a (k & Hk & Ha)%remote_gather_parsed.
    apply elem_of_list_keys in Hk as [Hk _].
    destruct (remote_parse_inv _ _ Ha) as (_ & Hkey & _).
    unfold source_exists. by rewrite Hkey. }
  split; [done|].
  destruct (Remote.sync_providers E rel.1 mir.1 mir.2 pv w).1; [done|].
  right. right. right. done.
Qed.

(** X10: every write of a run, whether the run completes or raises, is to an
    object of the mirror bucket whose key starts with the output prefix;
    writes are only added to those issued before; the objects that are not
    under the output prefix of the mirror bucket are after the run what they
    were before it, and no object of the store is removed. *)
Theorem writes_stay_in_mirror :
  (∀ E argv w,
     let bp := parse_bucket_and_prefix (argv !!! 1) in
     writes_within bp.1 bp.2 w (Local.main E argv w).2) ∧
  (∀ E argv w,
     let mir := parse_bucket_and_prefix (argv !!! 2) in
     writes_within mir.1 mir.2 w (Remote.main E argv w).2).
Proof.
  split.
  - intros E argv w. apply local_main_keeps.
  - intros E argv w. apply remote_main_keeps.
Qed.

(** X8: the [MirrorError]s of the local program.  When [main] raises a
    [MirrorError], either
    - there are less than three arguments, and its message is the usage;
    - or [head_bucket] has raised a [ClientError] for the mirror bucket, and
      the message names the bucket and that error;
    in both cases the store is untouched; or
    - [dirhasher] has exited with another code than 0 for an archive among
      the inputs, and the message gives that code. *)
Theorem local_main_errors E argv w msg w' :
  Local.main E argv w = (Raise (MirrorError msg), w') →
  let bp := parse_bucket_and_prefix (argv !!! 1) in
  let pv := Local.gather (drop 2 argv) in
  (length argv < 3 ∧ w' = w ∧
   msg = "usage: " +:+ argv !!! 0
         +:+ " output-mirror-bucket/prefix provider-archive.zip...") ∨
  (3 ≤ length argv ∧ w' = w ∧
   ∃ e, head_bucket_error E bp.1 = Some e ∧
        msg = "Cannot access bucket " +:+ bp.1 +:+ ": " +:+ e) ∨
  (3 ≤ length argv ∧ head_bucket_error E bp.1 = None ∧
   ∃ a, grouped pv a ∧
        returncode (dirhasher E (Local.path a)) ≠ 0%Z ∧
        msg = "dirhasher failed with code: "
              +:+ pretty (returncode (dirhasher E (Local.path a)))).
Proof.
  intros Hrun bp pv.
  destruct (local_main_keeps E argv w) as [_ He]. rewrite Hrun in He. simpl in He.
  destruct He as [(? & ? & [= ->])|[(? & ? & e & ? & [= ->])|(? & ? & a & Ha & He)]].
  - by left.
  - right. left. split_and!; [done..|]. by exists e.
  - right. right. split_and!; [done..|]. exists a. split; [done|].
    destruct He as [[[? [= ->]]|(_ & _ & [=])]%dirhash_of_raise|(code & _ & _ & [=])].
    done.
Qed.

Lemma local_main_errors_witness :
  ∃ a, grouped (Local.gather ["pkg_1.0.0_linux_amd64.zip"]) a ∧
       returncode (dirhasher failing_dirhasher (Local.path a)) ≠ 0%Z.
Proof.
  destruct (local_main_errors failing_dirhasher
              ["prog"; "mirror/registry/"; "pkg_1.0.0_linux_amd64.zip"] empty_store
              "dirhasher failed with code: 2" empty_store)
    as [(Hlen & _)|[(_ & _ & e & He & _)|(_ & _ & a & Ha & Hcode & _)]].
  - vm_compute. reflexivity.
  - simpl in Hlen. lia.
  - discriminate He.
  - by exists a.
Defined.



(** X7: how the script of the local program ends.  Its exit status is 0
    exactly when [main] returns; when there are at least three arguments,
    [head_bucket] succeeds for the mirror bucket and, for every archive among
    the inputs, [dirhasher] gives a fingerprint and the existence check of its
    mirror object is answered, possibly with ['404'], then [main] returns,
    whatever the store holds, and only then (the writes to the store being
    taken to succeed).  In every other case the exit status is 1: a
    [MirrorError] is caught and its message printed, and an exception that is
    not caught is the one that [main] has raised, and no [MirrorError]. *)
Theorem local_script_exit E argv w :
  let bp := parse_bucket_and_prefix (argv !!! 1) in
  let pv := Local.gather (drop 2 argv) in
  let t := (script (Local.main E) argv w).1 in
  (exit_status t = 0%Z ↔
   3 ≤ length argv ∧ head_bucket_error E bp.1 = None ∧
   ∀ a, grouped pv a → local_ok E bp.1 bp.2 a) ∧
  (exit_status t = 0%Z ↔ ∃ w', Local.main E argv w = (Ok tt, w')) ∧
  (exit_status t = 0%Z ∨ exit_status t = 1%Z) ∧
  (∀ status msg, t = SysExit status (Some msg) →
     status = 1%Z ∧ (Local.main E argv w).1 = Raise (MirrorError msg)) ∧
  (∀ e, t = Uncaught e →
     (Local.main E argv w).1 = Raise e ∧ ∀ msg, e ≠ MirrorError msg).
Proof.
  intros bp pv t.
  assert (Hexit : exit_status t = 0%Z ↔ ∃ w', Local.main E argv w = (Ok tt, w')).
  { unfold t, script.
    destruct (Local.main E argv w) as [[[]|[]] w']; simpl; split; try done;
      try (by intros [? [=]]). by eauto. }
  split_and!; [|done| | |].
  - rewrite Hexit. split.
    + intros [w' Hrun]. pose proof Hrun as Hmain.
      rewrite local_main_eq in Hmain. cbv zeta in Hmain. fold bp pv in Hmain.
      destruct (Nat.ltb_spec (length argv) 3); [done|].
      destruct (head_bucket_error E bp.1); [done|]. split_and!; [done..|].
      pose proof (local_loops_documents E bp.1 bp.2 pv True (or_introl I) w) as Hok.
      rewrite post_partial in Hok. by destruct (Hok _ _ Hmain).
    + intros (Hlen & Hhead & Hok).
      pose proof (local_loops_documents E bp.1 bp.2 pv False (or_intror Hok) w) as Hrun.
      rewrite post_total in Hrun. destruct Hrun as ([] & w' & Hrun & _).
      exists w'. rewrite local_main_eq. cbv zeta. fold bp pv.
      destruct (Nat.ltb_spec (length argv) 3); [lia|]. by rewrite Hhead.
  - unfold t, script.
    destruct (Local.main E argv w) as [[[]|[]] w']; simpl; auto.
  - intros status msg. unfold t, script.
    destruct (Local.main E argv w) as [[[]|[]] w']; simpl; try done.
    by intros [= <- <-].
  - intros e. unfold t, script.
    destruct (Local.main E argv w) as [[[]|[]] w']; simpl; try done;
      by intros [= <-].
Qed.

(** ** Runs without archives *)

Lemma sorted_keys_empty {V} : sorted_keys (∅ : gmap string V) = [].
Proof. unfold sorted_keys. by rewrite map_to_list_empty. Qed.

Section gathered.
Context {A : Type} `{Countable A} (provider version : A → string).
Context (parse : string → option A) (l : list string).

Local Abbreviation pv0 :=
  (foldl (λ pv key, match parse key with
                    | Some archive => add_archive provider version pv archive
                    | None => pv
                    end) ∅ l).

Lemma gathered_elem a p v :
  a ∈ (pv0 !!! p) !!! v
  ↔ (∃ key, key ∈ l ∧ parse key = Some a) ∧ p = provider a ∧ v = version a.
Proof.
  rewrite elem_of_gather_from.
  rewrite lookup_total_versions, lookup_empty. simpl.
  rewrite lookup_total_archives, lookup_empty. simpl.
  rewrite elem_of_empty. naive_solver.
Qed.

Lemma gathered_grouped a :
  grouped pv0 a ↔ ∃ key, key ∈ l ∧ parse key = Some a.
Proof.
  split.
  - intros (p & v & Ha). by apply gathered_elem in Ha as [? _].
  - intros Hkey. exists (provider a), (version a). by apply gathered_elem.
Qed.

Lemma gathered_tight : tight pv0.
Proof. apply gather_from_tight. intros p vs. by rewrite lookup_empty. Qed.

(** The providers and the versions grouped are those of the archives. *)
Lemma gathered_providers p :
  p ∈ sorted_keys pv0 ↔ ∃ a, grouped pv0 a ∧ provider a = p.
Proof.
  split.
  - intros Hp. pose proof Hp as [versions Hvs]%elem_of_sorted_keys.
    destruct (gathered_tight _ _ Hvs) as [[v Hv] _].
    destruct (tight_keys pv0 p v gathered_tight Hp) as [a Ha].
    { rewrite lookup_total_versions, Hvs. simpl. by apply elem_of_sorted_keys. }
    exists a. split; [by exists p, v|]. by apply gathered_elem in Ha as (_ & -> & _).
  - intros (a & (p' & v & Ha) & <-).
    pose proof Ha as (_ & -> & _)%gathered_elem.
    by destruct (grouped_keys _ _ _ _ Ha).
Qed.

Lemma gathered_versions p v :
  v ∈ sorted_keys (pv0 !!! p) ↔ ∃ a, grouped pv0 a ∧ provider a = p ∧ version a = v.
Proof.
  split.
  - intros Hv.
    assert (Hp : p ∈ sorted_keys pv0).
    { apply elem_of_sorted_keys. destruct (pv0 !! p) as [vs|] eqn:Hvs; [by eexists|].
      rewrite lookup_total_versions, Hvs in Hv. simpl in Hv.
      rewrite sorted_keys_empty in Hv. by apply elem_of_nil in Hv. }
    destruct (tight_keys pv0 p v gathered_tight Hp Hv) as [a Ha].
    exists a. split; [by exists p, v|]. by apply gathered_elem in Ha as (_ & -> & ->).
  - intros (a & (p' & v' & Ha) & <- & <-).
    pose proof Ha as (_ & -> & ->)%gathered_elem.
    by destruct (grouped_keys _ _ _ _ Ha).
Qed.

Lemma gathered_none :
  (∀ key, key ∈ l → parse key = None) → sorted_keys pv0 = [].
Proof.
  intros Hnone. destruct (sorted_keys pv0) as [|p ps] eqn:Hkeys; [done|].
  assert (Hp : p ∈ sorted_keys pv0) by (rewrite Hkeys; by left).
  apply gathered_providers in Hp as (a & (key & Hkey & Ha)%gathered_grouped & _).
  by rewrite (Hnone key Hkey) in Ha.
Qed.

End gathered.

(** The documents of a run with an archive are not empty. *)
Lemma are_documents_not_empty {A : Type} `{Countable A} (os_arch url_of : A → string)
    bucket out_prefix (pv : gmap string (gmap string (gset A))) l a :
  are_documents os_arch url_of bucket out_prefix pv l → grouped pv a → l ≠ [].
Proof.
  intros (provider_docs & Hdocs & ->) (p & v & Ha).
  destruct (grouped_keys _ _ _ _ Ha) as [Hp _].
  destruct Hdocs as [|p' docs ps dss (version_docs & _ & ->) _].
  - by apply elem_of_nil in Hp.
  - simpl. by destruct version_docs.
Qed.

Lemma app_eq_self {A} (l new : list A) : l ++ new = l → new = [].
Proof.
  intros Heq. rewrite <- (app_nil_r l) in Heq at 2. by apply app_inv_head in Heq.
Qed.

(** X11: a run that completes leaves the store as it was, without any write,
    exactly when none of its inputs parses as an archive: then not even an
    index document is put; and as soon as one input parses, documents are
    put. *)
Theorem no_archive_no_write :
  (∀ E argv w w',
     Local.main E argv w = (Ok tt, w') →
     (w' = w ↔ ∀ p, p ∈ drop 2 argv → Local.parse p = None)) ∧
  (∀ E argv w w',
     Remote.main E argv w = (Ok tt, w') →
     let rel := parse_bucket_and_prefix (argv !!! 1) in
     (w' = w ↔ ∀ k, k ∈ list_keys rel.1 rel.2 (s3 w) → Remote.parse k = None)).
Proof.
  split.
  - intros E argv w w' Hrun.
    destruct (local_main_ok _ _ _ _ Hrun) as [Hsync _]. simpl in Hsync.
    set (bp := parse_bucket_and_prefix (argv !!! 1)) in *.
    set (pv := Local.gather (drop 2 argv)) in *.
    split.
    + intros -> p Hp. destruct (Local.parse p) as [a|] eqn:Ha; [|done].
      assert (Hg : grouped pv a) by (apply gathered_grouped; by exists p).
      pose proof (loop_providers_shape Local.sorted_archives Local.os_arch
                    Local.file_name bp.1 bp.2
                    (λ a, Local.copy_archive E (Local.path a)
                            (local_mirror_obj bp.1 bp.2 a))
                    local_sorted_archives_elem
                    (λ a w0, local_copy_no_put E _ _ w0) pv w) as Hshape.
      rewrite post_partial in Hshape.
      destruct (Hshape _ _ Hsync) as (new & Hw & Hdocs).
      symmetry in Hw. apply app_eq_self in Hw. subst new.
      by destruct (are_documents_not_empty _ _ _ _ _ _ a Hdocs).
    + intros Hnone. unfold Local.sync_providers, for_each in Hsync.
      unfold pv, Local.gather in Hsync. rewrite gathered_none in Hsync by done.
      by injection Hsync.
  - intros E argv w w' Hrun rel.
    destruct (remote_main_ok _ _ _ _ Hrun) as [Hsync _]. simpl in Hsync.
    fold rel in Hsync. unfold Remote.mirror in Hsync.
    set (mir := parse_bucket_and_prefix (argv !!! 2)) in *.
    set (pv := Remote.gather (list_keys rel.1 rel.2 (s3 w))) in *.
    split.
    + intros -> k Hk. destruct (Remote.parse k) as [a|] eqn:Ha; [|done].
      assert (Hg : grouped pv a) by (apply gathered_grouped; by exists k).
      pose proof (loop_providers_shape Remote.sorted_archives Remote.os_arch
                    remote_url mir.1 mir.2
                    (λ a, Remote.copy_archive E (rel.1, Remote.key a)
                            (remote_mirror_obj mir.1 mir.2 a))
                    remote_sorted_archives_elem
                    (λ a w0, remote_copy_no_put E _ _ w0) pv w) as Hshape.
      rewrite post_partial in Hshape.
      destruct (Hshape _ _ Hsync) as (new & Hw & Hdocs).
      symmetry in Hw. apply app_eq_self in Hw. subst new.
      by destruct (are_documents_not_empty _ _ _ _ _ _ a Hdocs).
    + intros Hnone. unfold Remote.sync_providers, for_each in Hsync.
      unfold pv, Remote.gather in Hsync. rewrite gathered_none in Hsync by done.
      by injection Hsync.
Qed.

Lemma no_archive_no_write_witness :
  (Local.main named_fingerprints ["prog"; "mirror/registry/"; "README.md"; "pkg.zip"]
     empty_store).2 = empty_store.
Proof.
  refine (proj2 (proj1 no_archive_no_write named_fingerprints
                   ["prog"; "mirror/registry/"; "README.md"; "pkg.zip"] empty_store
                   _ _) _).
  - vm_compute. reflexivity.
  - intros p Hp. simpl in Hp. rewrite !elem_of_cons, elem_of_nil in Hp.
    destruct Hp as [->|[->|[]]]; vm_compute; reflexivity.
Defined.

(** ** The index that a run leaves *)

Lemma foldM_snoc {A B} (body : B → A → M B) acc l x w :
  foldM body acc (l ++ [x]) w
  = match foldM body acc l w with
    | (Ok acc', w') => body acc' x w'
    | (Raise e, w') => (Raise e, w')
    end.
Proof.
  revert acc w. induction l as [|y l IH]; intros acc w; simpl.
  - unfold mbind, M_bind. by destruct (body acc x w) as [[?|?] ?].
  - unfold mbind, M_bind. destruct (body acc y w) as [[acc'|e] w']; [|done].
    apply IH.
Qed.

(** The greatest string is the last one that [sorted] returns. *)
Lemma sorted_last_greatest (keys : list string) l p :
  sorted keys = l ++ [p] → p ∈ keys ∧ ∀ k, k ∈ keys → String.le k p.
Proof.
  intros Hl. split.
  - apply elem_of_sorted. rewrite Hl. apply elem_of_snoc_r.
  - intros k Hk%elem_of_sorted. rewrite Hl in Hk.
    assert (Hsorted : StronglySorted String.le (l ++ [p])).
    { rewrite <- Hl. apply StronglySorted_merge_sort; apply _. }
    apply elem_of_app in Hk as [Hk| ->%list_elem_of_singleton]; [|done].
    eapply StronglySorted_app_1_elem_of; [done..|]. by apply list_elem_of_singleton.
Qed.

Section loops_last.
Context {A : Type} `{Countable A}.
Context (sort : gset A → list A) (os_arch url_of : A → string).
Context (bucket out_prefix : string).
Context (copy : A → M (string * bool)).

Hypothesis sort_elements : ∀ s a, a ∈ sort s ↔ a ∈ s.
Hypothesis copy_no_put :
  ∀ a w, post True (copy a) w (λ _ w',
    ∃ new, writes w' = writes w ++ new ∧ puts new = []).

(** A run of the loops ends with the put of the index of the provider that
    is last in the order of [sorted]. *)
Lemma loop_providers_last (pv : gmap string (gmap string (gset A))) l p w w' :
  sorted_keys pv = l ++ [p] →
  loop_providers sort os_arch url_of bucket out_prefix copy pv w = (Ok tt, w') →
  ∃ w2, w' = (put (bucket, out_prefix +:+ "index.json")
                (Json.dumps (index_json (index_data_of (sorted_keys (pv !!! p)))))
                "application/json" w2).2.
Proof.
  intros Hl. unfold loop_providers, for_each. rewrite Hl, foldM_snoc.
  destruct (foldM _ tt l w) as [[[]|e] w1]; [|done].
  unfold mbind, M_bind.
  pose proof (loop_versions_shape sort os_arch url_of bucket out_prefix copy
                sort_elements copy_no_put (pv !!! p) w1) as Hshape.
  unfold post in Hshape.
  destruct (loop_versions _ _ _ _ _ _ _ w1) as [[idx|e] w2]; [|done].
  destruct Hshape as [-> _]. intros [= <-]. by exists w2.
Qed.

End loops_last.

Lemma local_gathered_providers paths p :
  p ∈ sorted_keys (Local.gather paths)
  ↔ ∃ a, grouped (Local.gather paths) a ∧ Local.provider a = p.
Proof. apply gathered_providers. Qed.

Lemma local_gathered_versions paths p v :
  v ∈ sorted_keys (Local.gather paths !!! p)
  ↔ ∃ a, grouped (Local.gather paths) a ∧ Local.provider a = p ∧ Local.version a = v.
Proof. apply gathered_versions. Qed.

Lemma remote_gathered_providers keys p :
  p ∈ sorted_keys (Remote.gather keys)
  ↔ ∃ a, grouped (Remote.gather keys) a ∧ Remote.provider a = p.
Proof. apply gathered_providers. Qed.

Lemma remote_gathered_versions keys p v :
  v ∈ sorted_keys (Remote.gather keys !!! p)
  ↔ ∃ a, grouped (Remote.gather keys) a ∧ Remote.provider a = p ∧ Remote.version a = v.
Proof. apply gathered_versions. Qed.

(** X12: a run that completes for at least one archive ends with the put of
    [index.json], and the index that it leaves in the mirror is the one of the
    provider whose name is the greatest in the order of [sorted]: it lists
    exactly the versions of the archives of that provider among the inputs.
    The indexes of the other providers of the run, put to the same key
    before, are replaced. *)
Theorem index_of_greatest_provider :
  (∀ E argv w w' a,
     Local.main E argv w = (Ok tt, w') →
     let bp := parse_bucket_and_prefix (argv !!! 1) in
     let pv := Local.gather (drop 2 argv) in
     grouped pv a →
     ∃ pmax (idx : gmap string unit),
       (∃ b, grouped pv b ∧ Local.provider b = pmax) ∧
       (∀ b, grouped pv b → String.le (Local.provider b) pmax) ∧
       (∀ v, idx !! v = Some tt
             ↔ ∃ b, grouped pv b ∧ Local.provider b = pmax ∧ Local.version b = v) ∧
       s3 w' !! (bp.1, bp.2 +:+ "index.json")
       = Some (mkObject (Json.dumps (index_json idx)) ∅) ∧
       last (writes w')
       = Some (PutObject bp.1 (bp.2 +:+ "index.json") (Json.dumps (index_json idx))
                 "application/json")) ∧
  (∀ E argv w w' a,
     Remote.main E argv w = (Ok tt, w') →
     let rel := parse_bucket_and_prefix (argv !!! 1) in
     let mir := parse_bucket_and_prefix (argv !!! 2) in
     let pv := Remote.gather (list_keys rel.1 rel.2 (s3 w)) in
     grouped pv a →
     ∃ pmax (idx : gmap string unit),
       (∃ b, grouped pv b ∧ Remote.provider b = pmax) ∧
       (∀ b, grouped pv b → String.le (Remote.provider b) pmax) ∧
       (∀ v, idx !! v = Some tt
             ↔ ∃ b, grouped pv b ∧ Remote.provider b = pmax ∧ Remote.version b = v) ∧
       s3 w' !! (mir.1, mir.2 +:+ "index.json")
       = Some (mkObject (Json.dumps (index_json idx)) ∅) ∧
       last (writes w')
       = Some (PutObject mir.1 (mir.2 +:+ "index.json") (Json.dumps (index_json idx))
                 "application/json")).
Proof.
  split.
  - intros E argv w w' a Hrun bp pv Ha.
    destruct (local_main_ok _ _ _ _ Hrun) as [Hsync _]. fold bp pv in Hsync.
    assert (Hkey : Local.provider a ∈ sorted_keys pv).
    { apply local_gathered_providers. by exists a. }
    destruct (sorted_keys pv) as [|p0 ps] eqn:Hkeys using rev_ind;
      [by apply elem_of_nil in Hkey|]. clear IHps Hkey.
    rename p0 into pmax.
    destruct (sorted_last_greatest _ _ _ Hkeys) as [Hin Hmax].
    rewrite local_sync_providers_loops in Hsync.
    destruct (loop_providers_last Local.sorted_archives Local.os_arch Local.file_name
                bp.1 bp.2 _ local_sorted_archives_elem
                (λ a w0, local_copy_no_put E _ _ w0) pv ps pmax w w' Hkeys Hsync)
      as [w2 ->].
    exists pmax, (index_data_of (sorted_keys (pv !!! pmax))). split_and!.
    + apply local_gathered_providers. by apply elem_of_sorted.
    + intros b Hb. apply Hmax.
      assert (Hpb : Local.provider b ∈ sorted_keys pv)
        by (apply local_gathered_providers; by exists b).
      unfold sorted_keys in Hpb. by rewrite elem_of_sorted in Hpb.
    + intros v. rewrite index_data_of_lookup. apply local_gathered_versions.
    + simpl. apply lookup_insert_eq.
    + simpl. apply last_snoc.
  - intros E argv w w' a Hrun rel mir pv Ha.
    destruct (remote_main_ok _ _ _ _ Hrun) as [Hsync _]. fold rel mir in Hsync.
    unfold Remote.mirror in Hsync. fold pv in Hsync.
    assert (Hkey : Remote.provider a ∈ sorted_keys pv).
    { apply remote_gathered_providers. by exists a. }
    destruct (sorted_keys pv) as [|p0 ps] eqn:Hkeys using rev_ind;
      [by apply elem_of_nil in Hkey|]. clear IHps Hkey.
    rename p0 into pmax.
    destruct (sorted_last_greatest _ _ _ Hkeys) as [Hin Hmax].
    rewrite remote_sync_providers_loops in Hsync.
    destruct (loop_providers_last Remote.sorted_archives Remote.os_arch remote_url
                mir.1 mir.2 _ remote_sorted_archives_elem
                (λ a w0, remote_copy_no_put E _ _ w0) pv ps pmax w w' Hkeys Hsync)
      as [w2 ->].
    exists pmax, (index_data_of (sorted_keys (pv !!! pmax))). split_and!.
    + apply remote_gathered_providers. by apply elem_of_sorted.
    + intros b Hb. apply Hmax.
      assert (Hpb : Remote.provider b ∈ sorted_keys pv)
        by (apply remote_gathered_providers; by exists b).
      unfold sorted_keys in Hpb. by rewrite elem_of_sorted in Hpb.
    + intros v. rewrite index_data_of_lookup. apply remote_gathered_versions.
    + simpl. apply lookup_insert_eq.
    + simpl. apply last_snoc.
Qed.

Lemma index_of_greatest_provider_witness :
  let argv := ["prog"; "mirror/registry/"; "zzz_2.0.0_linux_amd64.zip";
               "aaa_1.0.0_linux_amd64.zip"] in
  ∃ pmax (idx : gmap string unit),
    (String.le "zzz" pmax) ∧
    s3 (Local.main named_fingerprints argv empty_store).2 !! ("mirror", "registry/index.json")
    = Some (mkObject (Json.dumps (index_json idx)) ∅).
Proof.
  intros argv.
  destruct (proj1 index_of_greatest_provider named_fingerprints argv empty_store
              (Local.main named_fingerprints argv empty_store).2
              (Local.mkArchive "zzz_2.0.0_linux_amd64.zip" "zzz_2.0.0_linux_amd64.zip"
                 "zzz" "2.0.0" "linux" "amd64"))
    as (pmax & idx & _ & Hmax & _ & Hstore & _).
  - vm_compute. reflexivity.
  - exists "zzz", "2.0.0". vm_compute. reflexivity.
  - exists pmax, idx. split; [|exact Hstore].
    apply (Hmax (Local.mkArchive "zzz_2.0.0_linux_amd64.zip" "zzz_2.0.0_linux_amd64.zip"
                   "zzz" "2.0.0" "linux" "amd64")).
    exists "zzz", "2.0.0". vm_compute. reflexivity.
Defined.

(** ** The archives that the documents list are in the mirror *)

Section loops_establish.
Context {A : Type} `{Countable A}.
Context (sort : gset A → list A) (os_arch url_of : A → string).
Context (bucket out_prefix : string).
Context (copy : A → M (string * bool)).
Context (Q : A → world → Prop) (ext : world → world → Prop).

Hypothesis sort_elements : ∀ s a, a ∈ sort s ↔ a ∈ s.
Hypothesis ext_refl : ∀ w, ext w w.
Hypothesis ext_trans : ∀ w1 w2 w3, ext w1 w2 → ext w2 w3 → ext w1 w3.
Hypothesis Q_ext : ∀ a w w', Q a w → ext w w' → Q a w'.
Hypothesis copy_establishes :
  ∀ a w, post True (copy a) w (λ _ w', Q a w' ∧ ext w w').
Hypothesis put_ext :
  ∀ name body content_type w,
    ext w (put (bucket, out_prefix +:+ name +:+ ".json") body content_type w).2.

Lemma loop_archives_establishes (s : gset A) w :
  post True (loop_archives sort os_arch url_of copy s) w (λ _ w',
    ext w w' ∧ ∀ a, a ∈ s → Q a w').
Proof.
  unfold loop_archives. eapply post_mono.
  { apply (post_foldM True _ (λ done _ w', ext w w' ∧ ∀ a, a ∈ done → Q a w')).
    - split; [done|]. by intros a ?%elem_of_nil.
    - intros done x rest vd w1 _ [Hext Hdone].
      apply post_bind. eapply post_mono; [apply copy_establishes|].
      intros hc w2 [Hx Hext2]. apply post_ret. split; [by eapply ext_trans|].
      intros a [Ha| ->%list_elem_of_singleton]%elem_of_app; [|done].
      eapply Q_ext; [by apply Hdone|done]. }
  intros vd w' [Hext Hall]. split; [done|]. intros a Ha. by apply Hall, sort_elements.
Qed.

Lemma loop_versions_establishes (versions : gmap string (gset A)) w :
  post True (loop_versions sort os_arch url_of bucket out_prefix copy versions) w
    (λ _ w', ext w w' ∧
             ∀ v a, v ∈ sorted_keys versions → a ∈ versions !!! v → Q a w').
Proof.
  unfold loop_versions.
  apply (post_foldM True _ (λ done _ w',
    ext w w' ∧ ∀ v a, v ∈ done → a ∈ versions !!! v → Q a w')).
  - split; [done|]. by intros v a ?%elem_of_nil.
  - intros done v rest idx w1 _ [Hext Hdone].
    apply post_bind. eapply post_mono; [apply loop_archives_establishes|].
    intros vd w2 [Hext2 Hv]. apply post_bind, post_put, post_ret.
    set (w3 := (put _ _ _ w2).2).
    assert (Hext3 : ext w2 w3) by apply put_ext.
    split; [eapply ext_trans; [|done]; by eapply ext_trans|].
    intros v' a [Hv'| ->%list_elem_of_singleton]%elem_of_app Ha.
    + eapply Q_ext; [by eapply Hdone|]. by eapply ext_trans.
    + eapply Q_ext; [by apply Hv|done].
Qed.

Lemma loop_providers_establishes (pv : gmap string (gmap string (gset A))) w :
  post True (loop_providers sort os_arch url_of bucket out_prefix copy pv) w
    (λ _ w', ext w w' ∧ ∀ a, grouped pv a → Q a w').
Proof.
  unfold loop_providers, for_each. eapply post_mono.
  { apply (post_foldM True _ (λ done (_ : unit) w',
      ext w w' ∧ ∀ p v a, p ∈ done → a ∈ (pv !!! p) !!! v → Q a w')).
    - split; [done|]. by intros p v a ?%elem_of_nil.
    - intros done p rest [] w1 _ [Hext Hdone].
      apply post_bind. eapply post_mono; [apply loop_versions_establishes|].
      intros idx w2 [Hext2 Hp]. apply post_put.
      set (w3 := (put _ _ _ w2).2).
      assert (Hext3 : ext w2 w3) by apply (put_ext "index").
      split; [eapply ext_trans; [|done]; by eapply ext_trans|].
      intros p' v a [Hp'| ->%list_elem_of_singleton]%elem_of_app Ha.
      + eapply Q_ext; [by eapply Hdone|]. by eapply ext_trans.
      + eapply Q_ext; [|done]. eapply Hp; [|done].
        exact (proj2 (grouped_keys _ _ _ _ Ha)). }
  intros [] w' [Hext Hall]. split; [done|]. intros a (p & v & Ha).
  eapply Hall; [|done]. exact (proj1 (grouped_keys _ _ _ _ Ha)).
Qed.

End loops_establish.

Lemma keeps_archives_refl w : keeps_archives w w.
Proof. by intros obj. Qed.

Lemma keeps_archives_trans w1 w2 w3 :
  keeps_archives w1 w2 → keeps_archives w2 w3 → keeps_archives w1 w3.
Proof. intros H12 H23 obj Hzip Hobj. by apply H23, H12. Qed.

Lemma keeps_archives_put bucket out_prefix name body content_type w :
  keeps_archives w
    (put (bucket, out_prefix +:+ name +:+ ".json") body content_type w).2.
Proof.
  intros obj [stem Hzip] Hobj. simpl. rewrite lookup_insert_ne; [done|].
  intros <-. simpl in Hzip. rewrite <- str_app_assoc in Hzip.
  symmetry in Hzip. by apply zip_not_json in Hzip.
Qed.

Lemma keeps_archives_insert w obj o x :
  is_Some (metadata o !! DIRHASH_METADATA) →
  keeps_archives w (mkWorld (<[obj := o]> (s3 w)) x).
Proof.
  intros Ho obj' _ Hobj'. simpl. destruct (decide (obj = obj')) as [<-|Hne].
  - by rewrite lookup_insert_eq.
  - by rewrite lookup_insert_ne.
Qed.

Lemma local_copy_establishes E path obj w :
  post True (Local.copy_archive E path obj) w (λ _ w',
    is_Some (stored_fingerprint (s3 w' !! obj)) ∧ keeps_archives w w').
Proof.
  unfold post. rewrite local_copy_archive_eq, object_exists_eq.
  destruct (dirhash_of _) as [h1|e]; [|done].
  assert (Hupload : ∀ x,
    let w' := mkWorld
                (<[obj := mkObject (local_file E path) {[DIRHASH_METADATA := h1]}]> (s3 w))
                x in
    is_Some (stored_fingerprint (s3 w' !! obj)) ∧ keeps_archives w w').
  { intros x w'. split.
    - simpl. rewrite lookup_insert_eq. simpl. rewrite lookup_singleton_eq. by eexists.
    - apply keeps_archives_insert. simpl. rewrite lookup_singleton_eq. by eexists. }
  destruct (object_error E obj) as [code|].
  - destruct (String.eqb code "404"); [|done]. simpl. apply Hupload.
  - case_bool_decide as Hstored; [|apply Hupload].
    split; [|apply keeps_archives_refl]. rewrite Hstored. by eexists.
Qed.

Lemma remote_copy_establishes E rel_obj obj w :
  post True (Remote.copy_archive E rel_obj obj) w (λ _ w',
    is_Some (stored_fingerprint (s3 w' !! obj)) ∧ keeps_archives w w').
Proof.
  unfold post. rewrite remote_copy_archive_eq, object_exists_eq.
  assert (Hcopy : ∀ w0, w0 = w →
    match
      match fetch E rel_obj w0 with
      | (Raise e, w'') => (@Raise (string * bool) e, w'')
      | (Ok src, w'') =>
          match dirhash_of (dirhasher E (body src)) with
          | Raise e => (Raise e, w'')
          | Ok h1 =>
              (Ok (h1, true),
               mkWorld
                 (<[obj := mkObject (body src)
                             (<[DIRHASH_METADATA := h1]> (metadata src))]> (s3 w''))
                 (writes w'' ++ [CopyFrom obj.1 obj.2 rel_obj.1 rel_obj.2
                                   (<[DIRHASH_METADATA := h1]> (metadata src))]))
          end
      end
    with
    | (Ok _, w') => is_Some (stored_fingerprint (s3 w' !! obj)) ∧ keeps_archives w w'
    | (Raise _, _) => True
    end).
  { intros w0 ->. unfold fetch.
    destruct (object_error E rel_obj); [done|].
    destruct (s3 w !! rel_obj) as [src|]; [|done].
    destruct (dirhash_of _) as [h1|e]; [|done]. split.
    - simpl. rewrite lookup_insert_eq. simpl. rewrite lookup_insert_eq. by eexists.
    - apply keeps_archives_insert. simpl. rewrite lookup_insert_eq. by eexists. }
  destruct (object_error E obj) as [code|].
  - destruct (String.eqb code "404"); [|done]. by apply Hcopy.
  - destruct (cached_fingerprint (s3 w !! obj)) as [h|] eqn:Hcached; [|by apply Hcopy].
    split; [|apply keeps_archives_refl].
    unfold cached_fingerprint in Hcached.
    destruct (stored_fingerprint (s3 w !! obj)); [by eexists|done].
Qed.

(** X13: after a run that completes, every archive among its inputs has its
    mirror object, under the key that the version document gives as its url,
    relative to the output prefix, and the object carries a fingerprint
    metadata: the documents of a completed run list no archive that the
    mirror has not. *)
Theorem listed_archives_exist :
  (∀ E argv w w' a,
     Local.main E argv w = (Ok tt, w') →
     let bp := parse_bucket_and_prefix (argv !!! 1) in
     grouped (Local.gather (drop 2 argv)) a →
     ∃ o h, s3 w' !! (bp.1, bp.2 +:+ Local.file_name a) = Some o ∧
            metadata o !! DIRHASH_METADATA = Some h) ∧
  (∀ E argv w w' a,
     Remote.main E argv w = (Ok tt, w') →
     let rel := parse_bucket_and_prefix (argv !!! 1) in
     let mir := parse_bucket_and_prefix (argv !!! 2) in
     grouped (Remote.gather (list_keys rel.1 rel.2 (s3 w))) a →
     ∃ o h, s3 w' !! (mir.1, mir.2 +:+ remote_url a) = Some o ∧
            metadata o !! DIRHASH_METADATA = Some h).
Proof.
  assert (Hstored : ∀ (m : gmap (string * string) s3object) obj,
            is_Some (stored_fingerprint (m !! obj)) →
            ∃ o h, m !! obj = Some o ∧ metadata o !! DIRHASH_METADATA = Some h).
  { intros m obj [h Hh]. destruct (m !! obj) as [o|]; [|done]. by exists o, h. }
  split.
  - intros E argv w w' a Hrun bp Ha.
    destruct (local_main_ok _ _ _ _ Hrun) as [Hsync _]. fold bp in Hsync.
    rewrite local_sync_providers_loops in Hsync.
    pose proof (loop_providers_establishes Local.sorted_archives Local.os_arch
                  Local.file_name bp.1 bp.2
                  (λ a, Local.copy_archive E (Local.path a)
                          (local_mirror_obj bp.1 bp.2 a))
                  (λ a w, (∃ stem, (local_mirror_obj bp.1 bp.2 a).2 = stem +:+ ".zip") →
                          is_Some (stored_fingerprint
                                     (s3 w !! local_mirror_obj bp.1 bp.2 a)))
                  keeps_archives local_sorted_archives_elem
                  keeps_archives_refl keeps_archives_trans) as Hest.
    apply Hstored.
    specialize (Hest (λ a w1 w2 Hq Hext Hzip, Hext _ Hzip (Hq Hzip))).
    specialize (Hest (λ a w1, post_mono True _ w1 _ _
                                (local_copy_establishes E _ _ w1)
                                (λ _ w2 H, conj (λ _, proj1 H) (proj2 H)))).
    specialize (Hest (keeps_archives_put bp.1 bp.2) (Local.gather (drop 2 argv)) w).
    rewrite post_partial in Hest. destruct (Hest _ _ Hsync) as [_ Hall].
    apply (Hall a Ha).
    destruct (local_gather_zip _ _ Ha) as [stem Hstem]. exists (bp.2 +:+ stem).
    simpl. by rewrite Hstem, str_app_assoc.
  - intros E argv w w' a Hrun rel mir Ha.
    destruct (remote_main_ok _ _ _ _ Hrun) as [Hsync _]. fold rel mir in Hsync.
    unfold Remote.mirror in Hsync. rewrite remote_sync_providers_loops in Hsync.
    pose proof (loop_providers_establishes Remote.sorted_archives Remote.os_arch
                  remote_url mir.1 mir.2
                  (λ a, Remote.copy_archive E (rel.1, Remote.key a)
                          (remote_mirror_obj mir.1 mir.2 a))
                  (λ a w, (∃ stem, (remote_mirror_obj mir.1 mir.2 a).2 = stem +:+ ".zip") →
                          is_Some (stored_fingerprint
                                     (s3 w !! remote_mirror_obj mir.1 mir.2 a)))
                  keeps_archives remote_sorted_archives_elem
                  keeps_archives_refl keeps_archives_trans) as Hest.
    apply Hstored.
    specialize (Hest (λ a w1 w2 Hq Hext Hzip, Hext _ Hzip (Hq Hzip))).
    specialize (Hest (λ a w1, post_mono True _ w1 _ _
                                (remote_copy_establishes E _ _ w1)
                                (λ _ w2 H, conj (λ _, proj1 H) (proj2 H)))).
    specialize (Hest (keeps_archives_put mir.1 mir.2)
                  (Remote.gather (list_keys rel.1 rel.2 (s3 w))) w).
    rewrite post_partial in Hest. destruct (Hest _ _ Hsync) as [_ Hall].
    apply (Hall a Ha).
    destruct (remote_gather_zip _ _ Ha) as [stem Hstem].
    exists (mir.2 +:+ Remote.version a +:+ "/" +:+ stem).
    simpl. by rewrite Hstem, !str_app_assoc.
Qed.

Lemma listed_archives_exist_witness :
  ∃ o h,
    s3 (Local.main named_fingerprints
          ["prog"; "mirror/registry/"; "dist/pkg_1.0.0_linux_amd64.zip"] empty_store).2
      !! ("mirror", "registry/pkg_1.0.0_linux_amd64.zip") = Some o ∧
    metadata o !! DIRHASH_METADATA = Some h.
Proof.
  refine (proj1 listed_archives_exist named_fingerprints
            ["prog"; "mirror/registry/"; "dist/pkg_1.0.0_linux_amd64.zip"] empty_store _
            (Local.mkArchive "dist/pkg_1.0.0_linux_amd64.zip" "pkg_1.0.0_linux_amd64.zip"
               "pkg" "1.0.0" "linux" "amd64") _ _).
  - vm_compute. reflexivity.
  - exists "pkg", "1.0.0". vm_compute. reflexivity.
Defined.

(** ** The releases bucket is not written *)

(** X14: when the releases bucket is not the mirror bucket, a run of the
    remote program leaves every object of the releases bucket as it was,
    whether it completes or not, so that a second run lists the same keys.
    Then, if the store answers ['404'] for missing objects only and
    [dirhasher] never prints an empty fingerprint, a second run from the
    store that a completed run has left completes, puts the same documents
    and copies nothing. *)
Theorem remote_sync_twice_distinct_buckets E argv w0 w1 :
  let rel := parse_bucket_and_prefix (argv !!! 1) in
  let mir := parse_bucket_and_prefix (argv !!! 2) in
  rel.1 ≠ mir.1 →
  (∀ k, s3 (Remote.main E argv w0).2 !! (rel.1, k) = s3 w0 !! (rel.1, k)) ∧
  ((∀ obj, object_error E obj ≠ Some "404") →
   (∀ content h, dirhash_of (dirhasher E content) = Ok h → h ≠ EmptyString) →
   Remote.main E argv w0 = (Ok tt, w1) →
   ∃ w2 new1 new2,
     writes w1 = writes w0 ++ new1 ∧
     Remote.main E argv w1 = (Ok tt, w2) ∧
     writes w2 = writes w1 ++ new2 ∧
     puts new2 = puts new1 ∧ copies new2 = []).
Proof.
  intros rel mir Hbuckets.
  assert (Hsame : ∀ k, s3 (Remote.main E argv w0).2 !! (rel.1, k) = s3 w0 !! (rel.1, k)).
  { intros k. destruct (remote_main_keeps E argv w0) as [(_ & Hout & _) _].
    apply Hout. by intros [Hb _]. }
  split; [done|]. intros Htruthful Hnonempty Hrun.
  rewrite Hrun in Hsame. simpl in Hsame.
  destruct (remote_main_ok _ _ _ _ Hrun) as [Hsync Hmain]. simpl in *.
  fold rel mir in Hsync, Hmain.
  assert (Hgather : Remote.gather (list_keys rel.1 rel.2 (s3 w1))
                    = Remote.gather (list_keys rel.1 rel.2 (s3 w0))).
  { apply gather_from_same_elements. intros k.
    by rewrite !elem_of_list_keys, Hsame. }
  unfold Remote.mirror in Hsync, Hmain.
  set (pv := Remote.gather (list_keys rel.1 rel.2 (s3 w0))) in *.
  pose proof (remote_loops_store E rel.1 mir.1 mir.2 pv True Htruthful Hnonempty
                (remote_gather_zip _) w0 (or_introl I)) as Hrun1.
  rewrite post_partial in Hrun1.
  destruct (Hrun1 _ _ Hsync) as (Hsynced & _ & new1 & Hw1 & Hp1 & _).
  pose proof (remote_loops_store E rel.1 mir.1 mir.2 pv False Htruthful Hnonempty
                (remote_gather_zip _) w1 (or_intror Hsynced)) as Hrun2.
  rewrite post_total in Hrun2.
  destruct Hrun2 as ([] & w2 & Hsync2 & _ & Hfp & new2 & Hw2 & Hp2 & Hc2).
  exists w2, new1, new2. rewrite Hmain, Hgather. split_and!; try done.
  - rewrite Hp1, Hp2. apply documents_ext.
    intros p Hp v Hv a Ha%remote_sorted_archives_elem.
    apply Hfp; [|apply Hsynced]; by exists p, v.
  - by apply Hc2.
Qed.

Lemma remote_sync_twice_distinct_buckets_witness :
  let argv := ["prog"; "releases/aws/"; "mirror/registry/"] in
  let w1 := (Remote.main equal_fingerprints argv one_release).2 in
  s3 w1 !! ("releases", "aws/pkg_1.0.0_linux_amd64.zip")
  = s3 one_release !! ("releases", "aws/pkg_1.0.0_linux_amd64.zip") ∧
  ∃ w2 new1 new2,
    writes w1 = writes one_release ++ new1 ∧
    Remote.main equal_fingerprints argv w1 = (Ok tt, w2) ∧
    writes w2 = writes w1 ++ new2 ∧
    puts new2 = puts new1 ∧ copies new2 = [].
Proof.
  intros argv w1.
  destruct (remote_sync_twice_distinct_buckets equal_fingerprints argv one_release w1)
    as [Hsame Htwice].
  - vm_compute. discriminate.
  - split; [apply Hsame|]. apply Htwice.
    + intros obj. simpl. discriminate.
    + intros content h. vm_compute. intros Hh. injection Hh as <-. discriminate.
    + vm_compute. reflexivity.
Defined.

(** ** What the writes of a run are *)







(** ** The fingerprint is the trimmed output *)

(** X16: when [dirhash] returns, [dirhasher] has exited with 0 and the
    fingerprint is its output without the whitespace at its two ends: the
    output is whitespace, the fingerprint, and whitespace, and the fingerprint
    neither starts nor ends with a whitespace character (it may be empty).
    The store is not touched.  In the remote program [dirhasher] has run on the
    bytes of the object, which exists and was downloaded without error. *)
Theorem dirhash_trims :
  (∀ E path w h w',
     Local.dirhash E path w = (Ok h, w') →
     w' = w ∧ returncode (dirhasher E path) = 0%Z ∧
     ∃ out, stdout (dirhasher E path) = Some out ∧ trimmed out h) ∧
  (∀ E obj w h w',
     Remote.dirhash E obj w = (Ok h, w') →
     w' = w ∧ object_error E obj = None ∧
     ∃ src, s3 w !! obj = Some src ∧
            returncode (dirhasher E (body src)) = 0%Z ∧
            ∃ out, stdout (dirhasher E (body src)) = Some out ∧ trimmed out h).
Proof.
  split.
  - intros E path w h w'. unfold Local.dirhash, lift.
    destruct (dirhash_of (dirhasher E path)) as [h'|e] eqn:Hh; [|done].
    intros [= <- <-]. split; [done|]. by apply dirhash_of_ok.
  - intros E obj w h w'. unfold Remote.dirhash, fetch, lift, mbind, M_bind.
    destruct (object_error E obj); [done|].
    destruct (s3 w !! obj) as [src|]; [|done].
    destruct (dirhash_of (dirhasher E (body src))) as [h'|e] eqn:Hh; [|done].
    intros [= <- <-]. split_and!; [done..|]. exists src. split; [done|].
    by apply dirhash_of_ok.
Qed.

Lemma dirhash_trims_witness :
  let E := example_env (λ _, "  h1:abc" +:+ Json.nl) in
  ∃ out, stdout (dirhasher E "pkg_1.0.0_linux_amd64.zip") = Some out ∧
         trimmed out "h1:abc".
Proof.
  intros E.
  destruct (proj1 dirhash_trims E "pkg_1.0.0_linux_amd64.zip" empty_store "h1:abc"
              empty_store) as (_ & _ & Hout).
  - vm_compute. reflexivity.
  - exact Hout.
Defined.

(** ** The documents are ASCII text *)

Lemma ascii_text_app x y : ascii_text (x +:+ y) = ascii_text x && ascii_text y.
Proof.
  induction x as [|c x IH]; str_simpl; [done|]. simpl. by rewrite IH, andb_assoc.
Qed.

Lemma escape_char_ascii c : ascii_text (Json.escape_char c) = true.
Proof. by destruct c as [[] [] [] [] [] [] [] []]. Qed.

Lemma escape_ascii s : ascii_text (Json.escape s) = true.
Proof.
  induction s as [|c s IH]; simpl; [done|].
  by rewrite ascii_text_app, escape_char_ascii, IH.
Qed.

Lemma quote_ascii s : ascii_text (Json.quote s) = true.
Proof. unfold Json.quote. by rewrite !ascii_text_app, escape_ascii. Qed.

Lemma indent_ascii n : ascii_text (Json.indent n) = true.
Proof. induction n as [|n IH]; simpl; [done|]. by rewrite ascii_text_app, IH. Qed.

Lemma join_ascii sep l :
  ascii_text sep = true → Forall (λ x, ascii_text x = true) l →
  ascii_text (Py.join sep l) = true.
Proof.
  intros Hsep. induction 1 as [|x l Hx Hl IH]; simpl; [done|].
  destruct l; [done|]. by rewrite !ascii_text_app, Hx, Hsep, IH.
Qed.

Lemma block_ascii opening closing level items :
  ascii_text opening = true → ascii_text closing = true →
  Forall (λ x, ascii_text x = true) items →
  ascii_text (Json.block opening closing level items) = true.
Proof.
  intros Ho Hc Hitems. unfold Json.block. destruct items as [|x items].
  - by rewrite ascii_text_app, Ho, Hc.
  - rewrite !ascii_text_app, Ho, Hc, !indent_ascii, join_ascii; [done| |done].
    by rewrite !ascii_text_app, indent_ascii.
Qed.

Lemma dumps_at_ascii j : ∀ level, ascii_text (Json.dumps_at level j) = true.
Proof.
  revert j. fix IH 1. intros [s|items|members] level; simpl.
  - apply quote_ascii.
  - apply block_ascii; [done..|].
    induction items as [|x items IHitems]; simpl; constructor; [apply IH|done].
  - apply block_ascii; [done..|].
    induction members as [|[k v] members IHmembers]; simpl; constructor; [|done].
    by rewrite !ascii_text_app, quote_ascii, IH.
Qed.

Lemma are_documents_bodies {A : Type} `{Countable A} (os_arch url_of : A → string)
    bucket out_prefix (pv : gmap string (gmap string (gset A))) l x :
  are_documents os_arch url_of bucket out_prefix pv l → x ∈ l →
  ∃ key j, x = PutObject bucket key (Json.dumps j) "application/json".
Proof.
  intros (provider_docs & Hdocs & ->) Hx.
  apply list_elem_of_In, in_concat in Hx as (docs & Hin%list_elem_of_In & Hx%list_elem_of_In).
  apply list_elem_of_lookup in Hin as [i Hi].
  destruct (Forall2_lookup_r _ _ _ _ _ Hdocs Hi) as (p & _ & version_docs & Hvd & ->).
  apply elem_of_app in Hx as [Hx| ->%list_elem_of_singleton]; [|by eexists _, _].
  apply list_elem_of_lookup in Hx as [k Hk].
  destruct (Forall2_lookup_r _ _ _ _ _ Hvd Hk) as (v & _ & vd & _ & ->).
  by eexists _, _.
Qed.

Lemma elem_of_puts x l : x ∈ puts l ↔ x ∈ l ∧ is_put x = true.
Proof. unfold puts. rewrite !list_elem_of_In. apply List.filter_In. Qed.

(** X17: every document that a completed run puts is ASCII text, of the
    characters [' '] to ['~'] and the newline, whatever characters the file
    names and the fingerprints have: [json.dumps] escapes the others, so that
    the bytes put are the characters of the text. *)
Theorem documents_are_ascii :
  (∀ E argv w w' bucket key body content_type,
     Local.main E argv w = (Ok tt, w') →
     PutObject bucket key body content_type ∈ drop (length (writes w)) (writes w') →
     ascii_text body = true) ∧
  (∀ E argv w w' bucket key body content_type,
     Remote.main E argv w = (Ok tt, w') →
     PutObject bucket key body content_type ∈ drop (length (writes w)) (writes w') →
     ascii_text body = true).
Proof.
  split.
  - intros E argv w w' bucket key body ct Hrun Hx.
    destruct (local_main_ok _ _ _ _ Hrun) as [Hsync _]. simpl in Hsync.
    set (bp := parse_bucket_and_prefix (argv !!! 1)) in *.
    pose proof (loop_providers_shape Local.sorted_archives Local.os_arch
                  Local.file_name bp.1 bp.2
                  (λ a, Local.copy_archive E (Local.path a)
                          (local_mirror_obj bp.1 bp.2 a))
                  local_sorted_archives_elem
                  (λ a w0, local_copy_no_put E _ _ w0)
                  (Local.gather (drop 2 argv)) w) as Hshape.
    rewrite post_partial in Hshape.
    destruct (Hshape _ _ Hsync) as (new & Hw & Hdocs).
    rewrite Hw, drop_app_length in Hx.
    destruct (are_documents_bodies _ _ _ _ _ _ (PutObject bucket key body ct) Hdocs)
      as (key' & j & Hj); [by apply elem_of_puts|].
    injection Hj as _ _ -> _. apply dumps_at_ascii.
  - intros E argv w w' bucket key body ct Hrun Hx.
    destruct (remote_main_ok _ _ _ _ Hrun) as [Hsync _]. simpl in Hsync.
    unfold Remote.mirror in Hsync.
    set (rel := parse_bucket_and_prefix (argv !!! 1)) in *.
    set (mir := parse_bucket_and_prefix (argv !!! 2)) in *.
    pose proof (loop_providers_shape Remote.sorted_archives Remote.os_arch
                  remote_url mir.1 mir.2
                  (λ a, Remote.copy_archive E (rel.1, Remote.key a)
                          (remote_mirror_obj mir.1 mir.2 a))
                  remote_sorted_archives_elem
                  (λ a w0, remote_copy_no_put E _ _ w0)
                  (Remote.gather (list_keys rel.1 rel.2 (s3 w))) w) as Hshape.
    rewrite post_partial in Hshape.
    destruct (Hshape _ _ Hsync) as (new & Hw & Hdocs).
    rewrite Hw, drop_app_length in Hx.
    destruct (are_documents_bodies _ _ _ _ _ _ (PutObject bucket key body ct) Hdocs)
      as (key' & j & Hj); [by apply elem_of_puts|].
    injection Hj as _ _ -> _. apply dumps_at_ascii.
Qed.

Lemma documents_are_ascii_witness :
  let E := example_env (λ _, String "233"%char "h1") in
  let argv := ["prog"; "mirror/registry/"; "pkg_1.0.0_linux_amd64.zip"] in
  Forall (λ x, match x with
               | PutObject _ _ body _ => ascii_text body = true
               | _ => True
               end)
    (drop (length (writes empty_store)) (writes (Local.main E argv empty_store).2)).
Proof.
  intros E argv. rewrite Forall_forall. intros [| |bucket key body ct] Hx; [done..|].
  revert Hx.
  apply (proj1 documents_are_ascii E argv empty_store (Local.main E argv empty_store).2).
  vm_compute. reflexivity.
Defined.

Lemma local_script_exit_witness :
  exit_status
    (script (Local.main named_fingerprints)
       ["prog"; "mirror/registry/"; "pkg_1.0.0_linux_amd64.zip"] empty_store).1 = 0%Z.
Proof.
  apply (proj1 (local_script_exit named_fingerprints
                  ["prog"; "mirror/registry/"; "pkg_1.0.0_linux_amd64.zip"]
                  empty_store)).
  split_and!.
  - simpl. lia.
  - reflexivity.
  - intros a (p & Hp & Ha)%local_gather_parsed. simpl in Hp.
    apply list_elem_of_singleton in Hp as ->. vm_compute in Ha. injection Ha as <-.
    split; [by eexists|]. intros code. simpl. discriminate.
Defined.

(** ** The documents and the mirror agree *)

(** X18: after a run that completes, the documents that it has put list, for
    every archive, the fingerprint that the mirror object of the archive
    carries as metadata in the store that the run leaves: the documents are
    those computed from the metadata of the mirror.  This holds when the store
    answers ['404'] for missing objects only and
    - in the local program, the input archives that share a file name have the
      same fingerprint;
    - in the remote program, [dirhasher] never prints an empty fingerprint. *)
Theorem documents_match_mirror :
  (∀ E argv w w',
     (∀ obj, object_error E obj ≠ Some "404") →
     (∀ p1 p2 a1 a2,
        p1 ∈ drop 2 argv → p2 ∈ drop 2 argv →
        Local.parse p1 = Some a1 → Local.parse p2 = Some a2 →
        Local.file_name a1 = Local.file_name a2 →
        local_fingerprint E a1 = local_fingerprint E a2) →
     Local.main E argv w = (Ok tt, w') →
     let bp := parse_bucket_and_prefix (argv !!! 1) in
     let pv := Local.gather (drop 2 argv) in
     let fingerprint := λ a,
       default EmptyString (stored_fingerprint (s3 w' !! local_mirror_obj bp.1 bp.2 a)) in
     (∀ a, grouped pv a →
           stored_fingerprint (s3 w' !! local_mirror_obj bp.1 bp.2 a)
           = Some (local_fingerprint E a)) ∧
     ∃ new, writes w' = writes w ++ new ∧
       puts new = documents Local.sorted_archives Local.os_arch Local.file_name
                    bp.1 bp.2 fingerprint pv (sorted_keys pv)) ∧
  (∀ E argv w w',
     (∀ obj, object_error E obj ≠ Some "404") →
     (∀ content h, dirhash_of (dirhasher E content) = Ok h → h ≠ EmptyString) →
     Remote.main E argv w = (Ok tt, w') →
     let rel := parse_bucket_and_prefix (argv !!! 1) in
     let mir := parse_bucket_and_prefix (argv !!! 2) in
     let pv := Remote.gather (list_keys rel.1 rel.2 (s3 w)) in
     let fingerprint := λ a,
       default EmptyString
         (stored_fingerprint (s3 w' !! remote_mirror_obj mir.1 mir.2 a)) in
     (∀ a, grouped pv a →
           ∃ h, h ≠ EmptyString ∧
                stored_fingerprint (s3 w' !! remote_mirror_obj mir.1 mir.2 a) = Some h) ∧
     ∃ new, writes w' = writes w ++ new ∧
       puts new = documents Remote.sorted_archives Remote.os_arch remote_url
                    mir.1 mir.2 fingerprint pv (sorted_keys pv)).
Proof.
  split.
  - intros E argv w w' Htruthful Hsame Hrun bp pv fingerprint.
    destruct (local_main_ok _ _ _ _ Hrun) as [Hsync _]. fold bp pv in Hsync.
    assert (Hsame' : ∀ a b, grouped pv a → grouped pv b →
               Local.file_name a = Local.file_name b →
               local_fingerprint E a = local_fingerprint E b).
    { intros a b (pa & ? & ?)%local_gather_parsed (pb & ? & ?)%local_gather_parsed.
      by apply (Hsame pa pb). }
    pose proof (local_loops_store E bp.1 bp.2 pv True (or_introl I) Htruthful Hsame'
                  (local_gather_zip _) w) as Hstore.
    rewrite post_partial in Hstore.
    destruct (Hstore _ _ Hsync) as (Hsynced & new & Hw & Hp & _).
    split.
    + intros a Ha. by destruct (Hsynced a Ha) as (_ & _ & ?).
    + exists new. split; [done|]. rewrite Hp. apply documents_ext.
      intros p Hp' v Hv a Ha%local_sorted_archives_elem. unfold fingerprint.
      destruct (Hsynced a) as (_ & _ & ->); [by exists p, v|done].
  - intros E argv w w' Htruthful Hnonempty Hrun rel mir pv fingerprint.
    destruct (remote_main_ok _ _ _ _ Hrun) as [Hsync _]. fold rel mir in Hsync.
    unfold Remote.mirror in Hsync. fold pv in Hsync.
    pose proof (remote_loops_store E rel.1 mir.1 mir.2 pv True Htruthful Hnonempty
                  (remote_gather_zip _) w (or_introl I)) as Hstore.
    rewrite post_partial in Hstore.
    destruct (Hstore _ _ Hsync) as (Hsynced & _ & new & Hw & Hp & _).
    assert (Hcached : ∀ a, grouped pv a →
              ∃ h, h ≠ EmptyString ∧
                   stored_fingerprint (s3 w' !! remote_mirror_obj mir.1 mir.2 a) = Some h ∧
                   remote_fingerprint mir.1 mir.2 w' a = h).
    { intros a Ha. destruct (Hsynced a Ha) as [_ [h Hh]].
      unfold remote_fingerprint. rewrite Hh. simpl.
      unfold cached_fingerprint in Hh.
      destruct (stored_fingerprint _) as [h'|]; [|done]. simpl in Hh.
      destruct h' as [|c h']; [done|]. injection Hh as <-.
      exists (String c h'). by split_and!. }
    split.
    + intros a Ha. destruct (Hcached a Ha) as (h & ? & ? & _). by exists h.
    + exists new. split; [done|]. rewrite Hp. apply documents_ext.
      intros p Hp' v Hv a Ha%remote_sorted_archives_elem. unfold fingerprint.
      destruct (Hcached a) as (h & _ & -> & ->); [by exists p, v|done].
Qed.

Lemma documents_match_mirror_witness :
  let argv := ["prog"; "mirror/registry/"; "dist/pkg_1.0.0_linux_amd64.zip"] in
  let w' := (Local.main named_fingerprints argv (stale_mirror "h1:old")).2 in
  ∃ new, writes w' = writes (stale_mirror "h1:old") ++ new ∧
    puts new = documents Local.sorted_archives Local.os_arch Local.file_name
                 "mirror" "registry/"
                 (λ a, default EmptyString
                         (stored_fingerprint
                            (s3 w' !! local_mirror_obj "mirror" "registry/" a)))
                 (Local.gather (drop 2 argv)) (sorted_keys (Local.gather (drop 2 argv))).
Proof.
  intros argv w'.
  apply (proj1 documents_match_mirror named_fingerprints argv (stale_mirror "h1:old") w').
  - intros obj. simpl. discriminate.
  - intros p1 p2 a1 a2 Hp1 Hp2 Ha1 Ha2 _. simpl in Hp1, Hp2.
    apply list_elem_of_singleton in Hp1 as ->. apply list_elem_of_singleton in Hp2 as ->.
    congruence.
  - vm_compute. reflexivity.
Defined.
